(** * The procedural music engine (services/audioEngine.ts)

    A shallow embedding of the [AudioEngine] class: the composition
    generator, the transport (start / stop / scheduler / nextNote), the
    frequency resolution, the per-step note decisions and the gesture
    modulator, followed by the properties of the engine.  Around the
    engine, the distortion curve, the gesture detection of the hand
    tracker (components/HandTracker.tsx) and the playback zone of the HUD
    (App.tsx) are embedded too.

    Numbers.  JavaScript numbers that steer control flow (tempo, complexity,
    clock times, random draws, gains) are exact rationals [Q]; a decimal
    literal denotes itself and rounding of doubles is not modelled.  Integer
    valued numbers (steps, bars, scale degrees, semitones) are [Z], with
    [%] as [Z.rem] and [Math.floor (a / b)] as [Z.div].  The two places where
    the code leaves the rationals ([Math.log2] / [Math.pow] in [getFreq],
    [Math.sin] / [Math.pow] in [updateControlParams]) are real numbers [R].
    [NaN] and [undefined] are [None] where the code can produce them;
    [Infinity] (a tempo of 0, an overflow) is outside the model.  The range
    checks of the host on the arguments it is given (a [RangeError] for a
    negative time, which a negative tempo leads to) are not modelled: the
    properties that say that a call returns assume a positive tempo, and
    [timesInRange] states the range the host accepts.

    State.  The engine is a record of its fields; a method is a function
    from the engine before the call to its [Outcome].  The Web Audio nodes
    the engine holds, the audio context with its clock and the voices
    started on it, and the host window with its pending timeouts are part
    of that state.  The audio clock does not advance within one call; it
    advances between calls ([clockAdvances]). *)

From Stdlib Require Import ZArith QArith Qround Qminmax Qreals Reals.
From Stdlib Require Import List Bool Lia Lra.
From Stdlib Require Lqa.
Import ListNotations.

#[local] Open Scope Z_scope.

(** ** JavaScript helpers *)

(** [arr[i]]: [None] is [undefined] (index negative or past the end). *)
Definition js_index {A : Type} (arr : list A) (i : Z) : option A :=
  if i <? 0 then None else nth_error arr (Z.to_nat i).

(** [arr[i] = v] for an index inside the array.  Every write of the engine
    is at a loop index below the length of a freshly filled array; outside
    the array the list is left as it is. *)
Fixpoint array_set {A : Type} (arr : list A) (i : nat) (v : A) : list A :=
  match arr, i with
  | [], _ => []
  | _ :: rest, O => v :: rest
  | a :: rest, S j => a :: array_set rest j v
  end.

(** An object reference is not null. *)
Definition isSome {A : Type} (o : option A) : bool :=
  match o with Some _ => true | None => false end.

(** [a < b] on numbers. *)
Definition Qltb (a b : Q) : bool := negb (Qle_bool b a).

(** A rational literal [n / d]. *)
Definition lit (n : Z) (d : positive) : Q := Qmake n d.

(** [Math.random ()]: the host's generator is a tape of draws and a cursor;
    each call reads the draw under the cursor and moves it on. *)
Record Rng : Type := mkRng { tape : nat -> Q; cursor : nat }.

Definition random (r : Rng) : Q * Rng :=
  (tape r (cursor r), mkRng (tape r) (S (cursor r))).

(** Every draw of [Math.random ()] lies in [0, 1). *)
Definition unit_draws (r : Rng) : Prop :=
  forall n : nat, (0 <= tape r n)%Q /\ (tape r n < 1)%Q.

(** ** types.ts *)

Inductive MusicStyle : Type :=
  techno | ambient | industrial | house | glitch | symphony | easy_listening.

Inductive OscillatorType : Type := sawtooth | square | sine | triangle.

Record SonicParameters : Type := mkParams {
  bpm : Q;
  complexity : Q;
  darkness : Q;
  space : Q;
  synthType : OscillatorType;
  baseNoteFrequency : Q;
  style : MusicStyle
}.

Record HandGestures : Type := mkGestures {
  x : Q;
  y : Q;
  isPinching : bool;
  isFist : bool;
  isPalmOpen : bool;
  isVisible : bool
}.

(** [a === b] on styles. *)
Definition style_eqb (a b : MusicStyle) : bool :=
  match a, b with
  | techno, techno | ambient, ambient | industrial, industrial
  | house, house | glitch, glitch | symphony, symphony
  | easy_listening, easy_listening => true
  | _, _ => false
  end.

(** ** Music theory constants *)

Module SCALES.
Definition minor : list Z := [0; 2; 3; 5; 7; 8; 10].
Definition major : list Z := [0; 2; 4; 5; 7; 9; 11].
Definition phrygian : list Z := [0; 1; 3; 5; 7; 8; 10].
Definition dorian : list Z := [0; 2; 3; 5; 7; 9; 10].
Definition pentatonic : list Z := [0; 3; 5; 7; 10].
Definition harmonic_minor : list Z := [0; 2; 3; 5; 7; 8; 11].
Definition lydian : list Z := [0; 2; 4; 6; 7; 9; 11].
End SCALES.

(** A chord pool: the progressions on offer for section A and section B. *)
Record ChordPool : Type := mkPool { poolA : list (list Z); poolB : list (list Z) }.

(** [CHORD_POOLS[style]]; every style of [MusicStyle] has an entry, so the
    [|| CHORD_POOLS.techno] fallback of the source is never taken. *)
Definition CHORD_POOLS (s : MusicStyle) : ChordPool :=
  match s with
  | techno =>
      mkPool [[0; 0; 0; 0]; [0; -2; 0; -2]; [0; 2; 0; -2]]
             [[-4; -4; 0; 0]; [0; 3; 0; 5]; [-2; 0; -2; 0]]
  | house =>
      mkPool [[0; 3; 5; 3]; [0; 2; 4; 2]; [0; -2; 3; 5]]
             [[5; 3; 0; -2]; [4; 6; 0; 2]; [3; 0; 3; 5]]
  | ambient =>
      mkPool [[0; 4; 2; 5]; [0; -3; 2; 0]; [0; 2; 4; 6]]
             [[5; 2; 6; 4]; [4; 0; 5; 2]]
  | symphony =>
      mkPool [[0; 5; 2; 6]; [0; 4; 5; 1]]
             [[2; 6; 4; 5]; [3; 0; 4; 1]; [6; 4; 2; 5]]
  | easy_listening =>
      mkPool [[0; 5; 3; 4]; [0; 3; 0; 4]]
             [[3; 4; 0; 5]; [5; 4; 3; 0]]
  | industrial =>
      mkPool [[0; 6; 0; 6]; [0; 1; 0; 1]]
             [[6; 1; 6; 0]; [0; 0; 1; 1]]
  | glitch =>
      mkPool [[0; 0; 0; 0]]
             [[0; -2; 2; -5]]
  end.

(** ** Web Audio objects

    A node is recorded by the settings the engine gives it.  The routing
    ([connect]) is fixed by [init] and carries no state. *)

(** A call of [param.setTargetAtTime (target, startTime, timeConstant)]. *)
Inductive ParamEvent : Type :=
  SetTargetAtTime (target : R) (startTime timeConstant : Q).

(** An [AudioParam]: the value assigned to [.value] and the automation
    calls made on it, oldest first. *)
Record AudioParam : Type := mkParam { value : Q; events : list ParamEvent }.

Definition setTargetAtTime (target : R) (startTime timeConstant : Q)
    (p : AudioParam) : AudioParam :=
  mkParam (value p) (events p ++ [SetTargetAtTime target startTime timeConstant]).

Record GainNode : Type := mkGain { gain : AudioParam }.
Record BiquadFilterNode : Type :=
  mkBiquad { frequency : AudioParam; Qfactor : AudioParam }.
Record DelayNode : Type := mkDelay { delayTime : Q }.
(** [buffer]: the length in seconds of the impulse response, once built. *)
Record ConvolverNode : Type := mkConvolver { buffer : option Q }.
(** [curve]: the amount given to [makeDistortionCurve]. *)
Record WaveShaperNode : Type := mkShaper { curve : Q }.
Record DynamicsCompressorNode : Type :=
  mkCompressor { threshold : Q; ratio : Q; attack : Q }.

Inductive SynthType : Type := lead | pad | pluck | strings | woodwind | epiano.

(** A voice started on the graph, recorded by the arguments of the play
    call that built it.  The noise samples of a hi-hat and the random
    velocity of a chord voice only shape the sound and are not recorded. *)
Inductive Voice : Type :=
| Kick (time vol decay : Q)
| Timpani (time vol : Q)
| HiHat (time vol decay : Q)
| Bass (time : Q) (freq : R)
| Synth (time : Q) (freq : R) (duration : Q) (type : SynthType).

Inductive AudioContextState : Type := suspended | running | closed.

Record AudioContext : Type := mkCtx {
  currentTime : Q;               (* the audio clock, in seconds *)
  state : AudioContextState;
  resumeCalls : nat;             (* calls of [resume ()] *)
  voices : list Voice            (* voices started, oldest first *)
}.

(** ** The host window *)

Inductive TimerCallback : Type :=
| SchedulerTick                  (* [() => this.scheduler ()] *)
| StepCallback (beat : Z).       (* the UI sync closure of [scheduleNote] *)

Record Timeout : Type :=
  mkTimeout { timeoutId : nat; callback : TimerCallback; delay : Q }.

Record Window : Type := mkWindow {
  timeouts : list Timeout;       (* pending [setTimeout] calls *)
  nextTimeoutId : nat;
  (* [window.AudioContext || window.webkitAudioContext]: the state in which
     a new context starts, [None] when the host has no such class *)
  AudioContextClass : option AudioContextState
}.

Definition setTimeout (cb : TimerCallback) (d : Q) (w : Window) : nat * Window :=
  (nextTimeoutId w,
   mkWindow (timeouts w ++ [mkTimeout (nextTimeoutId w) cb d])
            (S (nextTimeoutId w)) (AudioContextClass w)).

Definition clearTimeout (id : option nat) (w : Window) : Window :=
  match id with
  | None => w
  | Some n =>
      mkWindow (filter (fun t => negb (Nat.eqb (timeoutId t) n)) (timeouts w))
               (nextTimeoutId w) (AudioContextClass w)
  end.

(** ** The engine *)

Record AudioEngine : Type := mkEngine {
  ctx : option AudioContext; (* the audio context; [None] is null *)
  isPlaying : bool;
  nextNoteTime : Q;
  current16thNote : Z;
  globalBar : Z; (* total bars played *)
  timerID : option nat;
  onStepCallback : bool; (* is a UI callback installed *)
  masterGain : option GainNode;
  filterNode : option BiquadFilterNode;
  delayNode : option DelayNode;
  delayFeedback : option GainNode;
  reverbNode : option ConvolverNode;
  reverbGain : option GainNode;
  distortionNode : option WaveShaperNode;
  compressorNode : option DynamicsCompressorNode;
  params : SonicParameters;
  currentGestures : HandGestures;
  lookahead : Q;
  scheduleAheadTime : Q;
  filterCutoff : Q;
  resonance : Q;
  scale : list Z;
  form : list Z; (* 0 = section A, 1 = section B *)
  sections : list (option (list Z));
  activeSectionIdx : option Z; (* [None] is undefined *)
  currentChordSequence : option (list Z);
  melodyPattern : list (option Z);
  bassPattern : list (option Z);
  flowLFO : Q;
  intensity : Q; (* builds up over time *)
  window : Window (* the host: timers and the AudioContext class *)
}.

(** Field assignment [this.f = v]: one setter for each field that a method
    writes. *)
Definition set_ctx (v : option AudioContext) (e : AudioEngine) : AudioEngine :=
  mkEngine v (isPlaying e) (nextNoteTime e) (current16thNote e)
    (globalBar e) (timerID e) (onStepCallback e) (masterGain e)
    (filterNode e) (delayNode e) (delayFeedback e) (reverbNode e)
    (reverbGain e) (distortionNode e) (compressorNode e) (params e)
    (currentGestures e) (lookahead e) (scheduleAheadTime e) (filterCutoff e)
    (resonance e) (scale e) (form e) (sections e) (activeSectionIdx e)
    (currentChordSequence e) (melodyPattern e) (bassPattern e) (flowLFO e)
    (intensity e) (window e).
Definition set_isPlaying (v : bool) (e : AudioEngine) : AudioEngine :=
  mkEngine (ctx e) v (nextNoteTime e) (current16thNote e) (globalBar e)
    (timerID e) (onStepCallback e) (masterGain e) (filterNode e)
    (delayNode e) (delayFeedback e) (reverbNode e) (reverbGain e)
    (distortionNode e) (compressorNode e) (params e) (currentGestures e)
    (lookahead e) (scheduleAheadTime e) (filterCutoff e) (resonance e)
    (scale e) (form e) (sections e) (activeSectionIdx e)
    (currentChordSequence e) (melodyPattern e) (bassPattern e) (flowLFO e)
    (intensity e) (window e).
Definition set_nextNoteTime (v : Q) (e : AudioEngine) : AudioEngine :=
  mkEngine (ctx e) (isPlaying e) v (current16thNote e) (globalBar e)
    (timerID e) (onStepCallback e) (masterGain e) (filterNode e)
    (delayNode e) (delayFeedback e) (reverbNode e) (reverbGain e)
    (distortionNode e) (compressorNode e) (params e) (currentGestures e)
    (lookahead e) (scheduleAheadTime e) (filterCutoff e) (resonance e)
    (scale e) (form e) (sections e) (activeSectionIdx e)
    (currentChordSequence e) (melodyPattern e) (bassPattern e) (flowLFO e)
    (intensity e) (window e).
Definition set_current16thNote (v : Z) (e : AudioEngine) : AudioEngine :=
  mkEngine (ctx e) (isPlaying e) (nextNoteTime e) v (globalBar e)
    (timerID e) (onStepCallback e) (masterGain e) (filterNode e)
    (delayNode e) (delayFeedback e) (reverbNode e) (reverbGain e)
    (distortionNode e) (compressorNode e) (params e) (currentGestures e)
    (lookahead e) (scheduleAheadTime e) (filterCutoff e) (resonance e)
    (scale e) (form e) (sections e) (activeSectionIdx e)
    (currentChordSequence e) (melodyPattern e) (bassPattern e) (flowLFO e)
    (intensity e) (window e).
Definition set_globalBar (v : Z) (e : AudioEngine) : AudioEngine :=
  mkEngine (ctx e) (isPlaying e) (nextNoteTime e) (current16thNote e) v
    (timerID e) (onStepCallback e) (masterGain e) (filterNode e)
    (delayNode e) (delayFeedback e) (reverbNode e) (reverbGain e)
    (distortionNode e) (compressorNode e) (params e) (currentGestures e)
    (lookahead e) (scheduleAheadTime e) (filterCutoff e) (resonance e)
    (scale e) (form e) (sections e) (activeSectionIdx e)
    (currentChordSequence e) (melodyPattern e) (bassPattern e) (flowLFO e)
    (intensity e) (window e).
Definition set_timerID (v : option nat) (e : AudioEngine) : AudioEngine :=
  mkEngine (ctx e) (isPlaying e) (nextNoteTime e) (current16thNote e)
    (globalBar e) v (onStepCallback e) (masterGain e) (filterNode e)
    (delayNode e) (delayFeedback e) (reverbNode e) (reverbGain e)
    (distortionNode e) (compressorNode e) (params e) (currentGestures e)
    (lookahead e) (scheduleAheadTime e) (filterCutoff e) (resonance e)
    (scale e) (form e) (sections e) (activeSectionIdx e)
    (currentChordSequence e) (melodyPattern e) (bassPattern e) (flowLFO e)
    (intensity e) (window e).
Definition set_onStepCallback (v : bool) (e : AudioEngine) : AudioEngine :=
  mkEngine (ctx e) (isPlaying e) (nextNoteTime e) (current16thNote e)
    (globalBar e) (timerID e) v (masterGain e) (filterNode e) (delayNode e)
    (delayFeedback e) (reverbNode e) (reverbGain e) (distortionNode e)
    (compressorNode e) (params e) (currentGestures e) (lookahead e)
    (scheduleAheadTime e) (filterCutoff e) (resonance e) (scale e) (form e)
    (sections e) (activeSectionIdx e) (currentChordSequence e)
    (melodyPattern e) (bassPattern e) (flowLFO e) (intensity e) (window e).
Definition set_masterGain (v : option GainNode) (e : AudioEngine) : AudioEngine :=
  mkEngine (ctx e) (isPlaying e) (nextNoteTime e) (current16thNote e)
    (globalBar e) (timerID e) (onStepCallback e) v (filterNode e)
    (delayNode e) (delayFeedback e) (reverbNode e) (reverbGain e)
    (distortionNode e) (compressorNode e) (params e) (currentGestures e)
    (lookahead e) (scheduleAheadTime e) (filterCutoff e) (resonance e)
    (scale e) (form e) (sections e) (activeSectionIdx e)
    (currentChordSequence e) (melodyPattern e) (bassPattern e) (flowLFO e)
    (intensity e) (window e).
Definition set_filterNode (v : option BiquadFilterNode) (e : AudioEngine) : AudioEngine :=
  mkEngine (ctx e) (isPlaying e) (nextNoteTime e) (current16thNote e)
    (globalBar e) (timerID e) (onStepCallback e) (masterGain e) v
    (delayNode e) (delayFeedback e) (reverbNode e) (reverbGain e)
    (distortionNode e) (compressorNode e) (params e) (currentGestures e)
    (lookahead e) (scheduleAheadTime e) (filterCutoff e) (resonance e)
    (scale e) (form e) (sections e) (activeSectionIdx e)
    (currentChordSequence e) (melodyPattern e) (bassPattern e) (flowLFO e)
    (intensity e) (window e).
Definition set_delayNode (v : option DelayNode) (e : AudioEngine) : AudioEngine :=
  mkEngine (ctx e) (isPlaying e) (nextNoteTime e) (current16thNote e)
    (globalBar e) (timerID e) (onStepCallback e) (masterGain e)
    (filterNode e) v (delayFeedback e) (reverbNode e) (reverbGain e)
    (distortionNode e) (compressorNode e) (params e) (currentGestures e)
    (lookahead e) (scheduleAheadTime e) (filterCutoff e) (resonance e)
    (scale e) (form e) (sections e) (activeSectionIdx e)
    (currentChordSequence e) (melodyPattern e) (bassPattern e) (flowLFO e)
    (intensity e) (window e).
Definition set_delayFeedback (v : option GainNode) (e : AudioEngine) : AudioEngine :=
  mkEngine (ctx e) (isPlaying e) (nextNoteTime e) (current16thNote e)
    (globalBar e) (timerID e) (onStepCallback e) (masterGain e)
    (filterNode e) (delayNode e) v (reverbNode e) (reverbGain e)
    (distortionNode e) (compressorNode e) (params e) (currentGestures e)
    (lookahead e) (scheduleAheadTime e) (filterCutoff e) (resonance e)
    (scale e) (form e) (sections e) (activeSectionIdx e)
    (currentChordSequence e) (melodyPattern e) (bassPattern e) (flowLFO e)
    (intensity e) (window e).
Definition set_reverbNode (v : option ConvolverNode) (e : AudioEngine) : AudioEngine :=
  mkEngine (ctx e) (isPlaying e) (nextNoteTime e) (current16thNote e)
    (globalBar e) (timerID e) (onStepCallback e) (masterGain e)
    (filterNode e) (delayNode e) (delayFeedback e) v (reverbGain e)
    (distortionNode e) (compressorNode e) (params e) (currentGestures e)
    (lookahead e) (scheduleAheadTime e) (filterCutoff e) (resonance e)
    (scale e) (form e) (sections e) (activeSectionIdx e)
    (currentChordSequence e) (melodyPattern e) (bassPattern e) (flowLFO e)
    (intensity e) (window e).
Definition set_reverbGain (v : option GainNode) (e : AudioEngine) : AudioEngine :=
  mkEngine (ctx e) (isPlaying e) (nextNoteTime e) (current16thNote e)
    (globalBar e) (timerID e) (onStepCallback e) (masterGain e)
    (filterNode e) (delayNode e) (delayFeedback e) (reverbNode e) v
    (distortionNode e) (compressorNode e) (params e) (currentGestures e)
    (lookahead e) (scheduleAheadTime e) (filterCutoff e) (resonance e)
    (scale e) (form e) (sections e) (activeSectionIdx e)
    (currentChordSequence e) (melodyPattern e) (bassPattern e) (flowLFO e)
    (intensity e) (window e).
Definition set_distortionNode (v : option WaveShaperNode) (e : AudioEngine) : AudioEngine :=
  mkEngine (ctx e) (isPlaying e) (nextNoteTime e) (current16thNote e)
    (globalBar e) (timerID e) (onStepCallback e) (masterGain e)
    (filterNode e) (delayNode e) (delayFeedback e) (reverbNode e)
    (reverbGain e) v (compressorNode e) (params e) (currentGestures e)
    (lookahead e) (scheduleAheadTime e) (filterCutoff e) (resonance e)
    (scale e) (form e) (sections e) (activeSectionIdx e)
    (currentChordSequence e) (melodyPattern e) (bassPattern e) (flowLFO e)
    (intensity e) (window e).
Definition set_compressorNode (v : option DynamicsCompressorNode) (e : AudioEngine) : AudioEngine :=
  mkEngine (ctx e) (isPlaying e) (nextNoteTime e) (current16thNote e)
    (globalBar e) (timerID e) (onStepCallback e) (masterGain e)
    (filterNode e) (delayNode e) (delayFeedback e) (reverbNode e)
    (reverbGain e) (distortionNode e) v (params e) (currentGestures e)
    (lookahead e) (scheduleAheadTime e) (filterCutoff e) (resonance e)
    (scale e) (form e) (sections e) (activeSectionIdx e)
    (currentChordSequence e) (melodyPattern e) (bassPattern e) (flowLFO e)
    (intensity e) (window e).
Definition set_currentGestures (v : HandGestures) (e : AudioEngine) : AudioEngine :=
  mkEngine (ctx e) (isPlaying e) (nextNoteTime e) (current16thNote e)
    (globalBar e) (timerID e) (onStepCallback e) (masterGain e)
    (filterNode e) (delayNode e) (delayFeedback e) (reverbNode e)
    (reverbGain e) (distortionNode e) (compressorNode e) (params e) v
    (lookahead e) (scheduleAheadTime e) (filterCutoff e) (resonance e)
    (scale e) (form e) (sections e) (activeSectionIdx e)
    (currentChordSequence e) (melodyPattern e) (bassPattern e) (flowLFO e)
    (intensity e) (window e).
Definition set_scale (v : list Z) (e : AudioEngine) : AudioEngine :=
  mkEngine (ctx e) (isPlaying e) (nextNoteTime e) (current16thNote e)
    (globalBar e) (timerID e) (onStepCallback e) (masterGain e)
    (filterNode e) (delayNode e) (delayFeedback e) (reverbNode e)
    (reverbGain e) (distortionNode e) (compressorNode e) (params e)
    (currentGestures e) (lookahead e) (scheduleAheadTime e) (filterCutoff e)
    (resonance e) v (form e) (sections e) (activeSectionIdx e)
    (currentChordSequence e) (melodyPattern e) (bassPattern e) (flowLFO e)
    (intensity e) (window e).
Definition set_form (v : list Z) (e : AudioEngine) : AudioEngine :=
  mkEngine (ctx e) (isPlaying e) (nextNoteTime e) (current16thNote e)
    (globalBar e) (timerID e) (onStepCallback e) (masterGain e)
    (filterNode e) (delayNode e) (delayFeedback e) (reverbNode e)
    (reverbGain e) (distortionNode e) (compressorNode e) (params e)
    (currentGestures e) (lookahead e) (scheduleAheadTime e) (filterCutoff e)
    (resonance e) (scale e) v (sections e) (activeSectionIdx e)
    (currentChordSequence e) (melodyPattern e) (bassPattern e) (flowLFO e)
    (intensity e) (window e).
Definition set_sections (v : list (option (list Z))) (e : AudioEngine) : AudioEngine :=
  mkEngine (ctx e) (isPlaying e) (nextNoteTime e) (current16thNote e)
    (globalBar e) (timerID e) (onStepCallback e) (masterGain e)
    (filterNode e) (delayNode e) (delayFeedback e) (reverbNode e)
    (reverbGain e) (distortionNode e) (compressorNode e) (params e)
    (currentGestures e) (lookahead e) (scheduleAheadTime e) (filterCutoff e)
    (resonance e) (scale e) (form e) v (activeSectionIdx e)
    (currentChordSequence e) (melodyPattern e) (bassPattern e) (flowLFO e)
    (intensity e) (window e).
Definition set_activeSectionIdx (v : option Z) (e : AudioEngine) : AudioEngine :=
  mkEngine (ctx e) (isPlaying e) (nextNoteTime e) (current16thNote e)
    (globalBar e) (timerID e) (onStepCallback e) (masterGain e)
    (filterNode e) (delayNode e) (delayFeedback e) (reverbNode e)
    (reverbGain e) (distortionNode e) (compressorNode e) (params e)
    (currentGestures e) (lookahead e) (scheduleAheadTime e) (filterCutoff e)
    (resonance e) (scale e) (form e) (sections e) v (currentChordSequence e)
    (melodyPattern e) (bassPattern e) (flowLFO e) (intensity e) (window e).
Definition set_currentChordSequence (v : option (list Z)) (e : AudioEngine) : AudioEngine :=
  mkEngine (ctx e) (isPlaying e) (nextNoteTime e) (current16thNote e)
    (globalBar e) (timerID e) (onStepCallback e) (masterGain e)
    (filterNode e) (delayNode e) (delayFeedback e) (reverbNode e)
    (reverbGain e) (distortionNode e) (compressorNode e) (params e)
    (currentGestures e) (lookahead e) (scheduleAheadTime e) (filterCutoff e)
    (resonance e) (scale e) (form e) (sections e) (activeSectionIdx e) v
    (melodyPattern e) (bassPattern e) (flowLFO e) (intensity e) (window e).
Definition set_melodyPattern (v : list (option Z)) (e : AudioEngine) : AudioEngine :=
  mkEngine (ctx e) (isPlaying e) (nextNoteTime e) (current16thNote e)
    (globalBar e) (timerID e) (onStepCallback e) (masterGain e)
    (filterNode e) (delayNode e) (delayFeedback e) (reverbNode e)
    (reverbGain e) (distortionNode e) (compressorNode e) (params e)
    (currentGestures e) (lookahead e) (scheduleAheadTime e) (filterCutoff e)
    (resonance e) (scale e) (form e) (sections e) (activeSectionIdx e)
    (currentChordSequence e) v (bassPattern e) (flowLFO e) (intensity e)
    (window e).
Definition set_bassPattern (v : list (option Z)) (e : AudioEngine) : AudioEngine :=
  mkEngine (ctx e) (isPlaying e) (nextNoteTime e) (current16thNote e)
    (globalBar e) (timerID e) (onStepCallback e) (masterGain e)
    (filterNode e) (delayNode e) (delayFeedback e) (reverbNode e)
    (reverbGain e) (distortionNode e) (compressorNode e) (params e)
    (currentGestures e) (lookahead e) (scheduleAheadTime e) (filterCutoff e)
    (resonance e) (scale e) (form e) (sections e) (activeSectionIdx e)
    (currentChordSequence e) (melodyPattern e) v (flowLFO e) (intensity e)
    (window e).
Definition set_intensity (v : Q) (e : AudioEngine) : AudioEngine :=
  mkEngine (ctx e) (isPlaying e) (nextNoteTime e) (current16thNote e)
    (globalBar e) (timerID e) (onStepCallback e) (masterGain e)
    (filterNode e) (delayNode e) (delayFeedback e) (reverbNode e)
    (reverbGain e) (distortionNode e) (compressorNode e) (params e)
    (currentGestures e) (lookahead e) (scheduleAheadTime e) (filterCutoff e)
    (resonance e) (scale e) (form e) (sections e) (activeSectionIdx e)
    (currentChordSequence e) (melodyPattern e) (bassPattern e) (flowLFO e) v
    (window e).
Definition set_window (v : Window) (e : AudioEngine) : AudioEngine :=
  mkEngine (ctx e) (isPlaying e) (nextNoteTime e) (current16thNote e)
    (globalBar e) (timerID e) (onStepCallback e) (masterGain e)
    (filterNode e) (delayNode e) (delayFeedback e) (reverbNode e)
    (reverbGain e) (distortionNode e) (compressorNode e) (params e)
    (currentGestures e) (lookahead e) (scheduleAheadTime e) (filterCutoff e)
    (resonance e) (scale e) (form e) (sections e) (activeSectionIdx e)
    (currentChordSequence e) (melodyPattern e) (bassPattern e) (flowLFO e)
    (intensity e) v.

(** The outcome of a method call: it returns, leaving the engine in [e]; it
    throws a [TypeError], leaving the engine as it was at the throw; or, for
    the scheduler's [while] loop run on fuel, the fuel ran out. *)
Inductive Outcome : Type :=
| Done (e : AudioEngine)
| Threw (e : AudioEngine)
| Spin.

(** ** The composition generator *)

(** Step 1: the scale of a style. *)
Definition selectScale (s : MusicStyle) : list Z :=
  match s with
  | house => SCALES.dorian
  | techno => SCALES.phrygian
  | easy_listening => SCALES.major
  | symphony => SCALES.harmonic_minor
  | ambient => SCALES.lydian
  | _ => SCALES.minor
  end.

(** Step 2: the song form of a complexity. *)
Definition selectForm (cplx : Q) : list Z :=
  let isComplex := Qltb (lit 6 10) cplx in
  let isRepetitive := Qltb cplx (lit 3 10) in
  if isRepetitive then [0; 0; 0; 0]
  else if isComplex then [0; 0; 1; 0; 0; 1; 1; 0]
  else [0; 0; 1; 0].

(** Step 3: [arr[Math.floor (Math.random () * arr.length)]]. *)
Definition pickProg (arr : list (list Z)) (r : Rng) : option (list Z) * Rng :=
  let (u, r') := random r in
  (js_index arr (Qfloor (u * inject_Z (Z.of_nat (length arr)))), r').

(** Step 4: the loop over the melody slots; [todo] slots remain from index
    [i]. *)
Fixpoint melodyLoop (p : SonicParameters) (todo : nat) (i : Z)
    (pat : list (option Z)) (r : Rng) : list (option Z) * Rng :=
  match todo with
  | O => (pat, r)
  | S k =>
      let isStrongBeat := Z.rem i 4 =? 0 in
      let chance := (complexity p * lit 4 10)%Q in
      let chance := if isStrongBeat then (chance + lit 3 10)%Q else chance in
      let (u, r1) := random r in
      if Qltb u chance then
        let range := if style_eqb (style p) techno then 5 else 12 in
        let (v, r2) := random r1 in
        let degree := Z.rem (Qfloor (v * inject_Z range)) 7 in
        melodyLoop p k (i + 1) (array_set pat (Z.to_nat i) (Some degree)) r2
      else melodyLoop p k (i + 1) pat r1
  end.

(** Step 5: the loop over the bass slots.  The random draw is the last
    alternative and is made only when neither fixed placement applies. *)
Fixpoint bassLoop (p : SonicParameters) (todo : nat) (i : Z)
    (pat : list (option Z)) (r : Rng) : list (option Z) * Rng :=
  match todo with
  | O => (pat, r)
  | S k =>
      if style_eqb (style p) techno && negb (Z.rem i 2 =? 0) then
        bassLoop p k (i + 1) (array_set pat (Z.to_nat i) (Some 0)) r
      else if style_eqb (style p) house
              && ((i =? 0) || (i =? 10) || (i =? 14)) then
        bassLoop p k (i + 1) (array_set pat (Z.to_nat i) (Some 0)) r
      else
        let (u, r1) := random r in
        if Qltb u (lit 25 100) then
          bassLoop p k (i + 1) (array_set pat (Z.to_nat i) (Some 0)) r1
        else bassLoop p k (i + 1) pat r1
  end.

(** [this.sections[idx]], where [idx] may itself be undefined. *)
Definition sectionAt (secs : list (option (list Z))) (idx : option Z)
    : option (list Z) :=
  match idx with
  | None => None
  | Some i => match js_index secs i with Some s => s | None => None end
  end.

(** [generateComposition ()], with the state of [Math.random] before and
    after. *)
Definition generateComposition (e : AudioEngine) (r : Rng) : AudioEngine * Rng :=
  let p := params e in
  let pool := CHORD_POOLS (style p) in
  let e := set_scale (selectScale (style p)) e in
  let e := set_form (selectForm (complexity p)) e in
  let (progA, r) := pickProg (poolA pool) r in
  let (progB, r) := pickProg (poolB pool) r in
  let e := set_sections [progA; progB] e in
  let e := set_currentChordSequence (sectionAt (sections e) (Some 0)) e in
  let (melody, r) := melodyLoop p 16 0 (repeat None 16) r in
  let e := set_melodyPattern melody e in
  let (bass, r) := bassLoop p 16 0 (repeat None 16) r in
  let e := set_bassPattern bass e in
  let e := if style_eqb (style p) ambient then e
           else set_bassPattern (array_set (bassPattern e) 0 (Some 0)) e in
  (e, r).

(** The initial gesture snapshot: centred, palm open, not visible. *)
Definition neutralGestures : HandGestures :=
  {| x := lit 5 10; y := lit 5 10; isPinching := false; isFist := false;
     isPalmOpen := true; isVisible := false |}.

(** The field initialisers of the class, in the host [w]. *)
Definition fieldInitialisers (w : Window) (initialParams : SonicParameters)
    : AudioEngine :=
  {| ctx := None;
     isPlaying := false;
     nextNoteTime := 0;
     current16thNote := 0;
     globalBar := 0;
     timerID := None;
     onStepCallback := false;
     masterGain := None;
     filterNode := None;
     delayNode := None;
     delayFeedback := None;
     reverbNode := None;
     reverbGain := None;
     distortionNode := None;
     compressorNode := None;
     params := initialParams;
     currentGestures := neutralGestures;
     lookahead := 25;
     scheduleAheadTime := lit 1 10;
     filterCutoff := 1000;
     resonance := 0;
     scale := SCALES.minor;
     form := [];
     sections := [];
     activeSectionIdx := Some 0;
     currentChordSequence := Some [0; 0; 0; 0];
     melodyPattern := [];
     bassPattern := [];
     flowLFO := 0;
     intensity := 0;
     window := w |}.

(** [new AudioEngine (initialParams)]: the field initialisers, then
    [generateComposition].  [w] is the host the engine lives in and [r] the
    state of [Math.random] at the call. *)
Definition newAudioEngine (w : Window) (initialParams : SonicParameters)
    (r : Rng) : AudioEngine :=
  fst (generateComposition (fieldInitialisers w initialParams) r).

(** [setOnStepCallback (callback)]. *)
Definition setOnStepCallback (e : AudioEngine) : AudioEngine :=
  set_onStepCallback true e.

(** ** Building the signal graph *)

(** [buildImpulseResponse (duration)]: the noise samples are not recorded,
    only the length of the response. *)
Definition buildImpulseResponse (duration : Q) (e : AudioEngine) : AudioEngine :=
  match ctx e, reverbNode e with
  | Some _, Some _ => set_reverbNode (Some (mkConvolver (Some duration))) e
  | _, _ => e
  end.

(** The amount of distortion [init] asks for. *)
Definition distAmount (p : SonicParameters) : Q :=
  let amount := (darkness p * 400)%Q in
  let amount := if style_eqb (style p) industrial then (amount * 2)%Q else amount in
  match style p with
  | ambient | easy_listening | symphony => 0%Q
  | _ => amount
  end.

(** The length in seconds of the reverb [init] builds. *)
Definition reverbSize (s : MusicStyle) : Q :=
  let size := 3%Q in
  let size := if style_eqb s symphony then 5%Q else size in
  let size := if style_eqb s ambient then 8%Q else size in
  if style_eqb s techno then 2%Q else size.

(** [init ()].  A tempo of 0 (a division by zero) is outside the model. *)
Definition init (e : AudioEngine) : Outcome :=
  match ctx e with
  | Some _ => Done e
  | None =>
      match AudioContextClass (window e) with
      | None => Threw e
      | Some st =>
          let p := params e in
          let e := set_ctx (Some (mkCtx 0 st 0 [])) e in
          let e := set_masterGain (Some (mkGain (mkParam (lit 8 10) []))) e in
          let e := set_compressorNode
                     (Some (mkCompressor (-12) 12 (lit 3 1000))) e in
          let e := set_filterNode
                     (Some (mkBiquad (mkParam (filterCutoff e) [])
                                     (mkParam (resonance e) []))) e in
          let e := set_distortionNode (Some (mkShaper (distAmount p))) e in
          let beatTime := (60 / bpm p)%Q in
          let delay := (beatTime * lit 75 100)%Q in
          let delay := if style_eqb (style p) symphony then (beatTime / 2)%Q
                       else delay in
          let e := set_delayNode (Some (mkDelay delay)) e in
          let e := set_delayFeedback (Some (mkGain (mkParam (lit 3 10) []))) e in
          let e := set_reverbNode (Some (mkConvolver None)) e in
          let e := set_reverbGain (Some (mkGain (mkParam (lit 4 10) []))) e in
          Done (buildImpulseResponse (reverbSize (style p)) e)
      end
  end.

(** ** The gesture modulator *)

(** [node?.gain.setTargetAtTime (...)] on an optional gain node. *)
Definition gainTarget (target : R) (startTime timeConstant : Q)
    (n : option GainNode) : option GainNode :=
  match n with
  | Some g => Some (mkGain (setTargetAtTime target startTime timeConstant (gain g)))
  | None => None
  end.

(** The gesture modes of [updateControlParams]: the three gains move to the
    fist preset or back to normal.  [this.masterGain!] throws on null. *)
Definition gestureModes (fist : bool) (now : Q) (e : AudioEngine) : Outcome :=
  let level (a b : Q) := Q2R (if fist then a else b) in
  match masterGain e with
  | None => Threw e
  | Some _ =>
      let e := set_masterGain
                 (gainTarget (level (lit 5 10) (lit 8 10)) now (lit 5 10)
                    (masterGain e)) e in
      let e := set_reverbGain
                 (gainTarget (level (lit 8 10) (lit 4 10)) now (lit 5 10)
                    (reverbGain e)) e in
      Done (set_delayFeedback
              (gainTarget (level (lit 8 10) (lit 3 10)) now (lit 5 10)
                 (delayFeedback e)) e)
  end.

(** [updateControlParams (gestures)]. *)
Definition updateControlParams (gestures : HandGestures) (e : AudioEngine)
    : Outcome :=
  match ctx e, filterNode e, distortionNode e with
  | Some c, Some f, Some _ =>
      let e := set_currentGestures gestures e in
      if negb (isVisible gestures) then Done e
      else
        let now := currentTime c in
        let minFreq := 100%R in
        let maxFreq := 12000%R in
        let lfoMod :=
          (sin (Q2R now * Q2R (lit 5 10)) * 200 * Q2R (space (params e)))%R in
        let freq :=
          Rmax minFreq
               (minFreq * Rpower (maxFreq / minFreq) (Q2R (x gestures)) + lfoMod)%R in
        let f := mkBiquad (setTargetAtTime freq now (lit 1 10) (frequency f))
                          (Qfactor f) in
        let f := mkBiquad (frequency f)
                          (setTargetAtTime (Q2R (y gestures * 15)) now (lit 1 10)
                                           (Qfactor f)) in
        let e := set_filterNode (Some f) e in
        match gestureModes (isFist gestures) now e with
        | Done e =>
            if isPinching gestures then
              match filterNode e with
              | Some f =>
                  Done (set_filterNode
                          (Some (mkBiquad
                                   (setTargetAtTime (freq * Q2R (lit 15 10))%R now
                                      (lit 5 100) (frequency f))
                                   (Qfactor f))) e)
              | None => Done e
              end
            else Done e
        | other => other
        end
  | _, _, _ => Done e
  end.

(** ** The transport *)

(** [stop ()]. *)
Definition stop (e : AudioEngine) : AudioEngine :=
  let e := set_isPlaying false e in
  set_window (clearTimeout (timerID e) (window e)) e.

(** [this.form[Math.floor (bar / 4) % this.form.length]]: the section of
    the form that bar [bar] falls in, changing every 4 bars. *)
Definition activeSectionAt (frm : list Z) (bar : Z) : option Z :=
  let formLength := Z.of_nat (length frm) in
  let sectionIndex := Z.rem (bar / 4) formLength in
  js_index frm sectionIndex.

(** [Math.min (1.0, bar / 64)]: full intensity after 64 bars. *)
Definition intensityAt (bar : Z) : Q := Qmin 1 (inject_Z bar / 64).

(** [nextNote ()]. *)
Definition nextNote (e : AudioEngine) : AudioEngine :=
  let secondsPerBeat := (60 / bpm (params e))%Q in
  let e := set_nextNoteTime (nextNoteTime e + lit 25 100 * secondsPerBeat)%Q e in
  let e := set_current16thNote (current16thNote e + 1) e in
  if current16thNote e =? 16 then
    let e := set_current16thNote 0 e in
    let e := set_globalBar (globalBar e + 1) e in
    let e := set_activeSectionIdx (activeSectionAt (form e) (globalBar e)) e in
    let e := set_currentChordSequence
               (sectionAt (sections e) (activeSectionIdx e)) e in
    set_intensity (intensityAt (globalBar e)) e
  else e.

(** ** Frequency resolution *)

(** [Math.log2]. *)
Definition log2 (a : R) : R := (ln a / ln 2)%R.

(** The conversion at the end of [getFreq]: from a semitone offset to Hz,
    through the MIDI number of the base frequency.  Of the non-positive
    base frequencies, 0 gives the frequency 0 ([Math.log2 (0)] is
    [-Infinity]) and a negative one gives [NaN], which is [None]. *)
Definition semitonesToFreq (base : Q) (semitones : Z) : option R :=
  if Qltb 0 base then
    let baseMidi := (69 + 12 * log2 (Q2R base / 440))%R in
    let targetMidi := (baseMidi + IZR semitones)%R in
    Some (440 * Rpower 2 ((targetMidi - 69) / 12))%R
  else if Qeq_bool base 0 then Some 0%R
  else None.

(** The index into the scale that [getFreq] computes. *)
Definition normDegree (scaleLen scaleDegree : Z) : Z :=
  Z.rem (Z.rem scaleDegree scaleLen + scaleLen) scaleLen.

(** [getFreq (scaleDegree, octaveOffset)]; [None] is [NaN]. *)
Definition getFreq (e : AudioEngine) (scaleDegree octaveOffset : Z) : option R :=
  let scaleLen := Z.of_nat (length (scale e)) in
  let octaveShift := scaleDegree / scaleLen in
  match js_index (scale e) (normDegree scaleLen scaleDegree) with
  | None => None
  | Some s =>
      let semitones := s + octaveShift * 12 + octaveOffset * 12 in
      semitonesToFreq (baseNoteFrequency (params e)) semitones
  end.

(** [getFreq] at a degree that may be [undefined] or [NaN]. *)
Definition getFreqOf (e : AudioEngine) (degree : option Z) (octaveOffset : Z)
    : option R :=
  match degree with
  | Some d => getFreq e d octaveOffset
  | None => None
  end.

(** ** Note realization

    [scheduleNote] and the play methods assign no field of the engine: they
    read it, start voices on the graph and set one timeout.  They are
    written in a writer monad over these effects; a [TypeError] ends the
    call and keeps the effects made before it. *)

Inductive Effect : Type :=
| Start (v : Voice)
| SetTimeout (cb : TimerCallback) (d : Q).

(** The effects made, in order, and the value returned; [None] when the
    call threw. *)
Record Fx (A : Type) : Type := mkFx { emitted : list Effect; returned : option A }.
Arguments mkFx {A} _ _.
Arguments emitted {A} _.
Arguments returned {A} _.

(** Return, throw, one effect, and sequencing. *)
Definition ret {A : Type} (a : A) : Fx A := mkFx [] (Some a).
Definition throw {A : Type} : Fx A := mkFx [] None.
Definition emit (f : Effect) : Fx unit := mkFx [f] (Some tt).
Definition bind {A B : Type} (m : Fx A) (k : A -> Fx B) : Fx B :=
  match returned m with
  | None => mkFx (emitted m) None
  | Some a => mkFx (emitted m ++ emitted (k a)) (returned (k a))
  end.
Definition skip : Fx unit := ret tt.

Declare Scope fx_scope.
Delimit Scope fx_scope with fx.
Notation "m ;; k" := (bind m (fun _ => k))
  (at level 61, right associativity) : fx_scope.
Notation "'when' c 'then' m" := (if c then m else skip)
  (at level 60, c at level 9, m at level 60) : fx_scope.

#[local] Open Scope fx_scope.

(** A play method whose oscillator frequency is [freq]:
    [osc.frequency.setValueAtTime (NaN, time)] throws a [TypeError] before
    the voice is started. *)
Definition withFreq (freq : option R) (voice : R -> Voice) : Fx unit :=
  match freq with
  | Some f => emit (Start (voice f))
  | None => throw
  end.

(** The play methods record the voice they start.  The host refuses a
    negative start, ramp or stop time with a [RangeError]; that check is
    left out here, see [voiceInRange]. *)
Definition playKick (time vol decay : Q) : Fx unit := emit (Start (Kick time vol decay)).
Definition playTimpani (time vol : Q) : Fx unit := emit (Start (Timpani time vol)).
Definition playHiHat (time vol decay : Q) : Fx unit := emit (Start (HiHat time vol decay)).
Definition playNoiseSnare (time vol : Q) : Fx unit := playHiHat time vol (lit 15 100).
Definition playShaker (time vol : Q) : Fx unit :=
  playHiHat time (vol * lit 5 10)%Q (lit 5 100).
Definition playBass (time : Q) (freq : option R) : Fx unit :=
  withFreq freq (fun f => Bass time f).
Definition playSynth (time : Q) (freq : option R) (duration : Q) (type : SynthType)
    : Fx unit :=
  withFreq freq (fun f => Synth time f duration type).

(** [this.currentChordSequence[this.globalBar % 4]]: reading an index of
    [undefined] throws; an index past the end reads [undefined]. *)
Definition chordRoot (e : AudioEngine) : Fx (option Z) :=
  match currentChordSequence e with
  | None => throw
  | Some sequence => ret (js_index sequence (Z.rem (globalBar e) 4))
  end.

(** [notes.forEach ((degree, i) => ...)] of [playChord], from index [i]. *)
Fixpoint chordVoices (e : AudioEngine) (time duration : Q) (octaveShift : Z)
    (type : SynthType) (i : Z) (notes : list (option Z)) : Fx unit :=
  match notes with
  | [] => skip
  | degree :: rest =>
      let octave := (if i =? 0 then 0 else 1) + octaveShift in
      playSynth time (getFreqOf e degree octave) duration type ;;
      chordVoices e time duration octaveShift type (i + 1) rest
  end.

(** [playChord (time, isBuilding, octaveShift)]: root, third and fifth of
    the current chord, and the seventh in the more complex pieces. *)
Definition playChord (e : AudioEngine) (time : Q) (isBuilding : bool)
    (octaveShift : Z) : Fx unit :=
  bind (chordRoot e) (fun rootDegree =>
    let plus k := option_map (fun d => d + k) rootDegree in
    let notes := [rootDegree; plus 2; plus 4] in
    let notes := if Qltb (lit 7 10) (complexity (params e))
                 then notes ++ [plus 6] else notes in
    let duration := (60 / bpm (params e) * 4)%Q in
    let type := pad in
    let type := if style_eqb (style (params e)) symphony then strings else type in
    let type := if style_eqb (style (params e)) easy_listening then epiano else type in
    chordVoices e time duration octaveShift type 0 notes).

(** The kick, the snare or clap, and the hi-hat of a step. *)
Definition rhythmSection (e : AudioEngine) (beat : Z) (time : Q)
    (fist pinching isBreakdown : bool) : Fx unit :=
  let sty := style (params e) in
  let isKickStep := Z.rem beat 4 =? 0 in
  (when (isKickStep && negb fist && negb isBreakdown) then
     if style_eqb sty easy_listening || style_eqb sty ambient then
       playKick time (lit 6 10) (lit 3 10)
     else if style_eqb sty symphony then
       when (beat =? 0) then playTimpani time (lit 8 10)
     else playKick time 1 (lit 5 10)) ;;
  (when (((beat =? 4) || (beat =? 12)) && negb fist && negb isBreakdown) then
     if style_eqb sty techno || style_eqb sty industrial then
       playNoiseSnare time (lit 5 10)
     else when (style_eqb sty easy_listening) then playShaker time (lit 2 10)) ;;
  let is16th := negb (Z.rem beat 2 =? 0) in
  let shouldPlayHat := negb is16th || Qltb (lit 5 10) (intensity e) || pinching in
  when (shouldPlayHat && negb fist) then
    when (negb (style_eqb sty symphony)) then
      let vol := if pinching then lit 6 10
                 else if is16th then lit 15 100 else lit 3 10 in
      playHiHat time vol (if pinching then lit 2 100 else lit 5 100).

(** The bass of a step.  A slot read past the pattern is [undefined], which
    is not [null] and not 0. *)
Definition bassline (e : AudioEngine) (beat : Z) (time : Q)
    (fist isBreakdown : bool) : Fx unit :=
  when (negb fist && negb isBreakdown) then
    match js_index (bassPattern e) beat with
    | Some None => skip
    | slot =>
        let bassNote := match slot with Some n => n | None => None end in
        bind (chordRoot e) (fun currentChordRoot =>
          let bassNote := match bassNote with
                          | Some 0 => currentChordRoot
                          | other => other
                          end in
          playBass time (getFreqOf e bassNote 0))
    end.

(** The lead of a step: the arpeggio, or the melody pattern. *)
Definition leadOrArp (e : AudioEngine) (beat : Z) (time : Q)
    (fist pinching : bool) : Fx unit :=
  let sty := style (params e) in
  let shouldArp := (style_eqb sty techno || style_eqb sty symphony)
                   && Qltb (lit 3 10) (intensity e) in
  if shouldArp && (Z.rem beat 2 =? 0) then
    bind (chordRoot e) (fun root =>
      let arpIntervals := [0; 2; 4; 6] in
      let arpIdx := Z.rem (beat / 2 + globalBar e) 4 in
      let degree := match root, js_index arpIntervals arpIdx with
                    | Some d, Some k => Some (d + k)
                    | _, _ => None
                    end in
      let freq := getFreqOf e degree 2 in
      let type := if style_eqb sty symphony then strings else pluck in
      when (negb fist) then playSynth time freq (lit 1 10) type)
  else
    match js_index (melodyPattern e) beat with
    | Some None => skip
    | slot =>
        let melodyNote := match slot with Some n => n | None => None end in
        let octave := if pinching then 2 else 1 in
        let freq := getFreqOf e melodyNote octave in
        let type := lead in
        let type := if style_eqb sty symphony then woodwind else type in
        let type := if style_eqb sty easy_listening then pluck else type in
        let type := if style_eqb sty ambient then pluck else type in
        playSynth time freq (lit 2 10) type
    end.

(** Section B is a breakdown in the more complex pieces:
    [this.activeSectionIdx === 1 && this.params.complexity > 0.5]. *)
Definition isBreakdown (e : AudioEngine) : bool :=
  match activeSectionIdx e with Some 1 => true | _ => false end
  && Qltb (lit 5 10) (complexity (params e)).

(** The UI sync of [scheduleNote]: a timeout for the step callback when the
    note is not already late. *)
Definition uiSync (now : Q) (beat : Z) (time : Q) : Fx unit :=
  let timeUntilNote := ((time - now) * 1000)%Q in
  when (Qle_bool 0 timeUntilNote) then
    emit (SetTimeout (StepCallback beat) timeUntilNote).

(** The body of [scheduleNote] once the context is known to exist, with
    the audio clock reading [now]. *)
Definition noteEffects (e : AudioEngine) (now : Q) (beat : Z) (time : Q) : Fx unit :=
  uiSync now beat time ;;
  let fist := isFist (currentGestures e) in
  let pinching := isPinching (currentGestures e) in
  let isBreakdown := isBreakdown e in
  rhythmSection e beat time fist pinching isBreakdown ;;
  (when (beat =? 0) then
     let octaveShift :=
       match activeSectionIdx e with Some 1 => 1 | _ => 0 end in
     playChord e time fist octaveShift) ;;
  bassline e beat time fist isBreakdown ;;
  leadOrArp e beat time fist pinching.

(** The effects of a call reach the engine's context and host: a voice is
    appended to the context, a timeout is registered with the window. *)
Definition applyEffect (e : AudioEngine) (f : Effect) : AudioEngine :=
  match f with
  | Start v =>
      match ctx e with
      | Some c =>
          set_ctx (Some (mkCtx (currentTime c) (state c) (resumeCalls c)
                               (voices c ++ [v]))) e
      | None => e
      end
  | SetTimeout cb d => set_window (snd (setTimeout cb d (window e))) e
  end.

Definition applyEffects (e : AudioEngine) (fs : list Effect) : AudioEngine :=
  fold_left applyEffect fs e.

(** [scheduleNote (beat, time)]. *)
Definition scheduleNote (e : AudioEngine) (beat : Z) (time : Q) : Outcome :=
  match ctx e with
  | None => Done e
  | Some c =>
      let r := noteEffects e (currentTime c) beat time in
      match returned r with
      | Some _ => Done (applyEffects e (emitted r))
      | None => Threw (applyEffects e (emitted r))
      end
  end.

(** The [while] loop of [scheduler], on [fuel] iterations.  The audio clock
    is read once: it does not advance within one call. *)
Fixpoint schedulerLoop (fuel : nat) (now : Q) (e : AudioEngine) : Outcome :=
  if Qltb (nextNoteTime e) (now + scheduleAheadTime e)%Q then
    match fuel with
    | O => Spin
    | S k =>
        match scheduleNote e (current16thNote e) (nextNoteTime e) with
        | Done e => schedulerLoop k now (nextNote e)
        | other => other
        end
    end
  else Done e.

(** [scheduler ()]: the loop, then the timeout for the next poll. *)
Definition scheduler (fuel : nat) (e : AudioEngine) : Outcome :=
  match ctx e with
  | None => Done e
  | Some c =>
      if negb (isPlaying e) then Done e
      else
        match schedulerLoop fuel (currentTime c) e with
        | Done e =>
            let (id, w) := setTimeout SchedulerTick (lookahead e) (window e) in
            Done (set_timerID (Some id) (set_window w e))
        | other => other
        end
  end.

(** [this.ctx.resume ()] when the context is suspended. *)
Definition resumeIfSuspended (e : AudioEngine) : AudioEngine :=
  match ctx e with
  | Some c =>
      match state c with
      | suspended =>
          set_ctx (Some (mkCtx (currentTime c) (state c) (S (resumeCalls c))
                               (voices c))) e
      | _ => e
      end
  | None => e
  end.

(** [start ()]. *)
Definition start (fuel : nat) (e : AudioEngine) : Outcome :=
  match init e with
  | Done e =>
      let e := resumeIfSuspended e in
      let e := set_isPlaying true e in
      let e := set_current16thNote 0 e in
      let e := set_globalBar 0 e in
      match ctx e with
      | None => Threw e
      | Some c =>
          let e := set_nextNoteTime (currentTime c + lit 1 10)%Q e in
          scheduler fuel e
      end
  | other => other
  end.

(** ** The environment between calls *)

(** The audio clock advances by [dt] seconds. *)
Definition clockAdvances (dt : Q) (e : AudioEngine) : AudioEngine :=
  match ctx e with
  | Some c =>
      set_ctx (Some (mkCtx (currentTime c + dt)%Q (state c) (resumeCalls c)
                           (voices c))) e
  | None => e
  end.

(** The pending scheduler timeout [id] fires. *)
Definition timeoutFires (fuel : nat) (id : nat) (e : AudioEngine) : Outcome :=
  if existsb (fun t => Nat.eqb (timeoutId t) id
                       && match callback t with SchedulerTick => true | _ => false end)
             (timeouts (window e))
  then scheduler fuel (set_window (clearTimeout (Some id) (window e)) e)
  else Done e.

(** Running [n] calls of [nextNote] in a row. *)
Fixpoint nextNotes (n : nat) (e : AudioEngine) : AudioEngine :=
  match n with
  | O => e
  | S k => nextNotes k (nextNote e)
  end.

(** ** Sessions *)

(** The public calls and host events that drive an engine. *)
Inductive Event : Type :=
| CallSetOnStepCallback
| CallInit
| CallStart
| CallStop
| CallUpdateControlParams (gestures : HandGestures)
| ClockAdvances (dt : Q)
| TimeoutFires (id : nat).

(** What an event does to the engine. *)
Definition perform (fuel : nat) (ev : Event) (e : AudioEngine) : Outcome :=
  match ev with
  | CallSetOnStepCallback => Done (setOnStepCallback e)
  | CallInit => init e
  | CallStart => start fuel e
  | CallStop => Done (stop e)
  | CallUpdateControlParams g => updateControlParams g e
  | ClockAdvances dt => Done (clockAdvances dt e)
  | TimeoutFires id => timeoutFires fuel id e
  end.

(** A session: the events in order.  A call that throws leaves the engine
    as it was at the throw, and the session goes on from there. *)
Fixpoint session (fuel : nat) (evs : list Event) (e : AudioEngine) : Outcome :=
  match evs with
  | [] => Done e
  | ev :: rest =>
      match perform fuel ev e with
      | Done e | Threw e => session fuel rest e
      | Spin => Spin
      end
  end.

(** The event is a call of [start]. *)
Definition isStart (ev : Event) : bool :=
  match ev with CallStart => true | _ => false end.

(** ** The distortion curve

    [makeDistortionCurve (amount)] fills a [Float32Array] of 44100
    samples; sample [i] is given here as a real number, and the rounding to
    32-bit floats is not modelled.  [amount] is always a number, so the
    fallback of 50 is never taken. *)

Definition n_samples : Z := 44100.

(** The input [x] that sample [i] stands for, from -1 at sample 0. *)
Definition curveInput (i : Z) : R := (IZR i * 2 / IZR n_samples - 1)%R.

(** The value that the loop of [makeDistortionCurve (amount)] writes at
    index [i]; the loop runs over the indices from 0 to [n_samples - 1]. *)
Definition makeDistortionCurve (amount : R) (i : Z) : R :=
  let k := amount in
  let deg := (PI / 180)%R in
  let x := curveInput i in
  ((3 + k) * x * 20 * deg / (PI + k * Rabs x))%R.

(** The curve of a wave shaper, from the amount it was built with. *)
Definition curveOf (node : WaveShaperNode) (i : Z) : R :=
  makeDistortionCurve (Q2R (curve node)) i.

(** ** The hand tracker (components/HandTracker.tsx)

    What [predictWebcam] sends to [onGesturesDetected] for one video
    frame.  A landmark has its normalized image coordinates; distances are
    real numbers and the thresholds are compared exactly: the rounding of
    doubles, which can flip a flag for a hand that sits on a threshold, is
    not modelled.  A detected hand has its 21 landmarks, read by index. *)

Record Landmark : Type := mkLandmark { lx : Q; ly : Q }.

(** [Math.hypot (a, b)]. *)
Definition hypot (a b : R) : R := sqrt (a * a + b * b).

(** [a < b] on real numbers. *)
Definition Rltb (a b : R) : bool := if Rlt_dec a b then true else false.

(** The gestures of a detected hand. *)
Definition gesturesOfHand (landmarks : Z -> Landmark) : HandGestures :=
  let wrist := landmarks 0 in
  let middleMCP := landmarks 9 in
  let indexTip := landmarks 8 in
  let thumbTip := landmarks 4 in
  let handScale :=
    hypot (Q2R (lx middleMCP - lx wrist)) (Q2R (ly middleMCP - ly wrist)) in
  let pinchDist :=
    hypot (Q2R (lx indexTip - lx thumbTip)) (Q2R (ly indexTip - ly thumbTip)) in
  let isPinching := Rltb pinchDist (5 / 100 * (handScale / (15 / 100))) in
  let tips := [8; 12; 16; 20] in
  let totalTipToWristDist :=
    fold_left
      (fun total idx =>
         (total + hypot (Q2R (lx (landmarks idx) - lx wrist))
                        (Q2R (ly (landmarks idx) - ly wrist)))%R)
      tips 0%R in
  let avgTipDist := (totalTipToWristDist / 4)%R in
  let isFist := Rltb avgTipDist (handScale * (12 / 10)) in
  let isPalmOpen := Rltb (handScale * (17 / 10)) avgTipDist in
  {| x := 1 - lx indexTip;          (* mirror X *)
     y := 1 - ly indexTip;          (* invert Y *)
     isPinching := isPinching;
     isFist := isFist;
     isPalmOpen := isPalmOpen;
     isVisible := true |}.

(** The gestures of a frame: of the first hand detected, or the neutral
    ones when there is none. *)
Definition detectGestures (hands : list (Z -> Landmark)) : HandGestures :=
  match hands with
  | landmarks :: _ => gesturesOfHand landmarks
  | [] =>
      {| x := lit 5 10; y := lit 5 10; isPinching := false; isFist := false;
         isPalmOpen := true; isVisible := false |}
  end.

(** ** The step callback and the playback zone (App.tsx)

    The closure that [scheduleNote] hands to [setTimeout] for the UI sync,
    run when its timeout fires and the engine is in [e]: the step index it
    passes to the callback, [None] when it does not call it. *)
Definition stepCallbackFires (e : AudioEngine) (beat : Z) : option Z :=
  if isPlaying e && onStepCallback e
  then Some (beat + Z.rem (globalBar e) 4 * 16)
  else None.

(** [getPlaybackZone ()] of the analysis HUD, for the step the callback
    stored and the time [Date.now ()]: the left and the top edge of the
    zone, in percent of the image; its width and height are 21. *)
Definition getPlaybackZone (currentStep : Z) (dateNow : R) : R * R :=
  let col := Z.rem currentStep 4 in
  let row := currentStep / 4 in
  let jitterX := (sin (dateNow / 100) * 2)%R in
  let jitterY := (cos (dateNow / 100) * 2)%R in
  ((IZR col * 25 + 2 + jitterX)%R, (IZR row * 25 + 2 + jitterY)%R).

(** * Vocabulary of the properties *)

(** ** Outcomes and invariants *)

(** The outcome [o] leaves the engine in [e]: the call returned or threw. *)
Definition endsIn (o : Outcome) (e : AudioEngine) : Prop := o = Done e \/ o = Threw e.

(** The engine an outcome leaves, [dflt] when the fuel ran out. *)
Definition outcomeEngine (o : Outcome) (dflt : AudioEngine) : AudioEngine :=
  match o with Done e | Threw e => e | Spin => dflt end.

(** The bar counter, the intensity and the running flag are as they were. *)
Definition keepsBars (e e' : AudioEngine) : Prop :=
  globalBar e' = globalBar e /\ intensity e' = intensity e
  /\ isPlaying e' = isPlaying e.

(** The length of a 16th note in seconds. *)
Definition sixteenth (e : AudioEngine) : Q :=
  (lit 25 100 * (60 / bpm (params e)))%Q.

(** The next note time, the parameters and the look-ahead window are as
    they were. *)
Definition keepsClock (e e' : AudioEngine) : Prop :=
  nextNoteTime e' = nextNoteTime e /\ params e' = params e
  /\ scheduleAheadTime e' = scheduleAheadTime e.

(** Intensity follows the bar counter. *)
Definition intensityTracksBar (e : AudioEngine) : Prop :=
  (intensity e == intensityAt (globalBar e))%Q.

(** Before the first start: stopped, at bar 0, with no intensity. *)
Definition notStarted (e : AudioEngine) : Prop :=
  isPlaying e = false /\ globalBar e = 0 /\ (intensity e == 0)%Q.

(** Sessions without a call of [start]. *)
Definition noStart (evs : list Event) : bool :=
  forallb (fun ev => negb (isStart ev)) evs.

(** What [generateComposition] derives from the parameters, and the
    parameters themselves. *)
Definition composition (e : AudioEngine)
    : SonicParameters * list Z * list Z * list (option (list Z))
      * list (option Z) * list (option Z) :=
  (params e, scale e, form e, sections e, melodyPattern e, bassPattern e).

(** A bass slot is empty or holds the degree 0. *)
Definition rootOrEmpty (slot : option Z) : Prop := slot = None \/ slot = Some 0.

(** The 8-step form of the complex pieces. *)
Definition form8 : list Z := [0; 0; 1; 0; 0; 1; 1; 0].

(** The graph is built as far as [updateControlParams] asks. *)
Definition graphBuilt (e : AudioEngine) : bool :=
  isSome (ctx e) && isSome (filterNode e) && isSome (distortionNode e).

(** ** Voices of a call *)

(** The voices among the effects of a call. *)
Definition startedVoices (fs : list Effect) : list Voice :=
  flat_map (fun f => match f with Start v => [v] | SetTimeout _ _ => [] end) fs.

(** Every voice the call starts satisfies [P]. *)
Definition emits {A : Type} (P : Voice -> Prop) (m : Fx A) : Prop :=
  Forall P (startedVoices (emitted m)).

(** The call returns: it does not throw. *)
Definition returns {A : Type} (m : Fx A) : Prop := returned m <> None.

(** Any voice but a bass. *)
Definition notBass (v : Voice) : Prop :=
  match v with Bass _ _ => False | _ => True end.

(** The bass voice at [time] that sounds the root of the current chord. *)
Definition rootBass (e : AudioEngine) (time : Q) (v : Voice) : Prop :=
  exists sequence f,
    currentChordSequence e = Some sequence
    /\ getFreqOf e (js_index sequence (Z.rem (globalBar e) 4)) 0 = Some f
    /\ v = Bass time f.

(** The voice is a kick. *)
Definition isKick (v : Voice) : bool :=
  match v with Kick _ _ _ => true | _ => false end.

(** The voices started on the context of an engine. *)
Definition voicesOf (e : AudioEngine) : list Voice :=
  match ctx e with Some c => voices c | None => [] end.

(** The kicks that [scheduleNote] at step [beat] and [time] adds to the
    voices of [e]. *)
Definition kicksOfStep (e : AudioEngine) (beat : Z) (time : Q) : nat :=
  length (filter isKick
            (voicesOf (outcomeEngine (scheduleNote e beat time) e)))
  - length (filter isKick (voicesOf e)).

(** ** Sample engines *)

(** The fallback parameters of the image analysis, at complexity [c]. *)
Definition paramsOfComplexity (c : Q) : SonicParameters :=
  {| bpm := 128; complexity := c; darkness := lit 5 10; space := lit 5 10;
     synthType := sawtooth; baseNoteFrequency := 55; style := techno |}.

(** The fallback parameters of the image analysis. *)
Definition fallbackParams : SonicParameters := paramsOfComplexity (lit 5 10).

(** Parameters of a house piece. *)
Definition houseParams : SonicParameters :=
  {| bpm := 124; complexity := lit 5 10; darkness := lit 5 10;
     space := lit 5 10; synthType := sine; baseNoteFrequency := 55;
     style := house |}.

(** A host with audio, whose contexts start running. *)
Definition sampleWindow : Window := mkWindow [] 0 (Some running).

(** A generator that always draws 0. *)
Definition zeroRng : Rng := mkRng (fun _ => 0%Q) 0.

(** The sample engine, as constructed. *)
Definition sampleEngine : AudioEngine :=
  newAudioEngine sampleWindow fallbackParams zeroRng.

(** The sample engine after [start ()]. *)
Definition startedEngine : AudioEngine :=
  outcomeEngine (start 100 sampleEngine) sampleEngine.

(** The sample engine started, two seconds of audio clock later, when the
    scheduler timeout has fired: it is in step 2 of bar 1. *)
Definition runningSession : list Event :=
  [CallStart; ClockAdvances 2; TimeoutFires 0%nat].

(** The sample engine at the end of that session. *)
Definition runningEngine : AudioEngine :=
  outcomeEngine (session 100 runningSession sampleEngine) sampleEngine.

(** The running sample engine, stopped and started again. *)
Definition restartedEngine : AudioEngine :=
  outcomeEngine (session 100 [CallStop; CallStart] runningEngine) runningEngine.

(** A gesture update that is not visible and still reports a fist. *)
Definition hiddenFist : HandGestures :=
  {| x := lit 5 10; y := lit 5 10; isPinching := false; isFist := true;
     isPalmOpen := false; isVisible := false |}.

(** The engine after [bar] bars of [nextNote] calls. *)
Definition atBar (bar : nat) (e : AudioEngine) : AudioEngine :=
  nextNotes (16 * bar) e.

(** A started engine of complexity 0.8. *)
Definition complexEngine : AudioEngine :=
  let e := newAudioEngine sampleWindow (paramsOfComplexity (lit 8 10)) zeroRng in
  outcomeEngine (start 100 e) e.

(** The engine of complexity 0.8 at the last step of bar 7. *)
Definition endOfBar7 : AudioEngine := nextNotes 127 complexEngine.

(** A house engine in bar 1, where the chord root is the degree 3. *)
Definition houseEngine : AudioEngine :=
  let e := newAudioEngine sampleWindow houseParams zeroRng in
  atBar 1 (outcomeEngine (start 100 e) e).

(** ** Invariants of a session *)

(** The transport of an engine: what [nextNote] and [start] write. *)
Definition transport (e : AudioEngine)
    : Z * Z * Q * option Z * option (list Z) * Q :=
  (globalBar e, current16thNote e, nextNoteTime e, activeSectionIdx e,
   currentChordSequence e, intensity e).

(** A composition that can be played: a scale, two progressions of four
    degrees, a form over them, and two patterns of 16 slots. *)
Definition playableComposition (e : AudioEngine) : Prop :=
  scale e <> []
  /\ (0 <= baseNoteFrequency (params e))%Q
  /\ (exists progA progB,
        sections e = [Some progA; Some progB]
        /\ length progA = 4%nat /\ length progB = 4%nat)
  /\ form e <> [] /\ Forall (fun i => i = 0 \/ i = 1) (form e)
  /\ length (melodyPattern e) = 16%nat
  /\ length (bassPattern e) = 16%nat
  /\ Forall rootOrEmpty (bassPattern e).

(** The counters are in range and a chord progression is current. *)
Definition transportInRange (e : AudioEngine) : Prop :=
  0 <= globalBar e /\ 0 <= current16thNote e < 16
  /\ exists sequence,
       currentChordSequence e = Some sequence /\ length sequence = 4%nat.

(** Once there is a context, the nodes are all there. *)
Definition graphComplete (e : AudioEngine) : Prop :=
  ctx e <> None ->
  masterGain e <> None /\ filterNode e <> None /\ delayNode e <> None
  /\ delayFeedback e <> None /\ reverbNode e <> None /\ reverbGain e <> None
  /\ distortionNode e <> None /\ compressorNode e <> None.

(** The invariant of the sessions of an engine built from draws in
    [0, 1) and a base frequency that is not negative. *)
Definition playable (e : AudioEngine) : Prop :=
  playableComposition e /\ transportInRange e /\ graphComplete e.

(** The eight nodes of the graph. *)
Definition nodes (e : AudioEngine)
    : option GainNode * option BiquadFilterNode * option DelayNode
      * option GainNode * option ConvolverNode * option GainNode
      * option WaveShaperNode * option DynamicsCompressorNode :=
  (masterGain e, filterNode e, delayNode e, delayFeedback e, reverbNode e,
   reverbGain e, distortionNode e, compressorNode e).

(** The counters of the transport are in range. *)
Definition countersInRange (e : AudioEngine) : Prop :=
  0 <= globalBar e /\ 0 <= current16thNote e < 16.

(** A host without an audio context class. *)
Definition silentWindow : Window := mkWindow [] 0 None.

(** The nodes that only [init] sets. *)
Definition fixedNodes (e : AudioEngine)
    : option DelayNode * option ConvolverNode * option WaveShaperNode
      * option DynamicsCompressorNode :=
  (delayNode e, reverbNode e, distortionNode e, compressorNode e).

(** A visible fist in the middle of the frame. *)
Definition visibleFist : HandGestures :=
  {| x := lit 5 10; y := lit 5 10; isPinching := false; isFist := true;
     isPalmOpen := false; isVisible := true |}.

(** The started sample engine receives a fist, and a poll follows two
    seconds later. *)
Definition gestureSession : list Event :=
  [CallUpdateControlParams visibleFist; ClockAdvances 2; TimeoutFires 0%nat].

(** The sample engine at the end of that session. *)
Definition gesturedEngine : AudioEngine :=
  outcomeEngine (session 100 gestureSession startedEngine) startedEngine.

(** The time a voice is scheduled at. *)
Definition voiceTime (v : Voice) : Q :=
  match v with
  | Kick time _ _ | Timpani time _ | HiHat time _ _ | Bass time _
  | Synth time _ _ _ => time
  end.

(** The started sample engine, two seconds of audio clock later. *)
Definition lateEngine : AudioEngine := clockAdvances 2 startedEngine.

(** The context of that engine. *)
Definition lateContext : AudioContext := mkCtx (0 + 2) running 0 [].

(** That engine after a poll of the scheduler. *)
Definition polledEngine : AudioEngine :=
  outcomeEngine (scheduler 100 lateEngine) lateEngine.

(** What the host sends a stopped engine: time passes, a poll fires, a
    gesture comes in. *)
Definition idleSession : list Event :=
  [ClockAdvances 5; TimeoutFires 0%nat; CallUpdateControlParams visibleFist].

(** The running sample engine, stopped, at the end of that session. *)
Definition idleEngine : AudioEngine :=
  outcomeEngine (session 100 idleSession (stop runningEngine)) runningEngine.

(** A synth voice: lead, arpeggio or chord. *)
Definition synthVoice (v : Voice) : Prop :=
  match v with Synth _ _ _ _ => True | _ => False end.

(** What is left in a breakdown: synth voices and the hi-hat, with its
    decay of 0.05, or 0.02 under a pinch. *)
Definition breakdownVoice (v : Voice) : Prop :=
  match v with
  | Synth _ _ _ _ => True
  | HiHat _ _ decay => decay = lit 5 100 \/ decay = lit 2 100
  | _ => False
  end.

(** The voices of a symphony at step [beat]: no kick and no hi-hat, and the
    timpani on the first step of the bar only. *)
Definition symphonyVoice (beat : Z) (v : Voice) : Prop :=
  match v with
  | Kick _ _ _ | HiHat _ _ _ => False
  | Timpani _ vol => beat = 0 /\ vol = lit 8 10
  | Bass _ _ => True
  | Synth _ _ _ type => type = strings \/ type = woodwind
  end.

(** The first step of a bar, scheduled at second 3 on the engine that holds
    a fist. *)
Definition fistStep : AudioEngine :=
  outcomeEngine (scheduleNote gesturedEngine 0 3) gesturedEngine.

(** The engine of complexity 0.8 in bar 8, where section B begins, and the
    first step of that bar. *)
Definition breakdownEngine : AudioEngine := atBar 8 complexEngine.
Definition breakdownStep : AudioEngine :=
  outcomeEngine (scheduleNote breakdownEngine 0 3) breakdownEngine.

(** Parameters of a symphony, the engine started, and the first step of
    its first bar. *)
Definition symphonyParams : SonicParameters :=
  {| bpm := 110; complexity := lit 5 10; darkness := lit 5 10;
     space := lit 5 10; synthType := sawtooth; baseNoteFrequency := 55;
     style := symphony |}.
Definition symphonyEngine : AudioEngine :=
  let e := newAudioEngine sampleWindow symphonyParams zeroRng in
  outcomeEngine (start 100 e) e.
Definition symphonyStep : AudioEngine :=
  outcomeEngine (scheduleNote symphonyEngine 0 3) symphonyEngine.

(** A melody slot is empty or holds a degree of the range the style draws
    from: below 5 for techno, below 7 otherwise. *)
Definition melodyDegree (p : SonicParameters) (slot : option Z) : Prop :=
  match slot with
  | None => True
  | Some d => 0 <= d < (if style_eqb (style p) techno then 5 else 7)
  end.

(** The bass slots that [generateComposition] fills without a draw. *)
Definition forcedBass (s : MusicStyle) (i : Z) : bool :=
  (style_eqb s techno && negb (Z.rem i 2 =? 0))
  || (style_eqb s house && ((i =? 0) || (i =? 10) || (i =? 14)))
  || (negb (style_eqb s ambient) && (i =? 0)).

(** A generator that always draws 0.5: no bass slot is filled by a draw. *)
Definition halfRng : Rng := mkRng (fun _ => lit 1 2) 0.

(** The target of an automation call. *)
Definition targetOf (ev : ParamEvent) : R :=
  match ev with SetTargetAtTime target _ _ => target end.

(** The level [.value] of an optional gain node is [v]. *)
Definition levelOf (n : option GainNode) (v : Q) : Prop :=
  match n with Some g => value (gain g) = v | None => True end.

(** The three gains are at the levels [init] gives them. *)
Definition initLevels (e : AudioEngine) : Prop :=
  levelOf (masterGain e) (lit 8 10) /\ levelOf (reverbGain e) (lit 4 10)
  /\ levelOf (delayFeedback e) (lit 3 10).

(** A visible open hand, and a visible pinch at the right edge. *)
Definition openHand : HandGestures :=
  {| x := lit 5 10; y := lit 5 10; isPinching := false; isFist := false;
     isPalmOpen := true; isVisible := true |}.
Definition pinchRight : HandGestures :=
  {| x := 1; y := lit 5 10; isPinching := true; isFist := false;
     isPalmOpen := false; isVisible := true |}.

(** The cutoff that [updateControlParams] computes for the gesture [g] at
    the clock [now]. *)
Definition cutoffTarget (g : HandGestures) (now : Q) (p : SonicParameters) : R :=
  Rmax 100 (100 * Rpower (12000 / 100) (Q2R (x g))
            + sin (Q2R now * Q2R (lit 5 10)) * 200 * Q2R (space p)).

(** The cutoff targets a visible gesture pushes: one, and a second one
    under a pinch when the gains are there. *)
Definition cutoffPushes (g : HandGestures) (now : Q) (e : AudioEngine)
    : list ParamEvent :=
  SetTargetAtTime (cutoffTarget g now (params e)) now (lit 1 10)
  :: if isPinching g && isSome (masterGain e)
     then [SetTargetAtTime (cutoffTarget g now (params e) * Q2R (lit 15 10))
                           now (lit 5 100)]
     else [].

(** The started sample engine after a pinch at the right edge. *)
Definition pinchedEngine : AudioEngine :=
  outcomeEngine (updateControlParams pinchRight startedEngine) startedEngine.

(** The started sample engine after a fist and an open hand. *)
Definition releaseSession : list Event :=
  [CallStart; CallUpdateControlParams visibleFist].
Definition clenchedEngine : AudioEngine :=
  outcomeEngine (session 100 releaseSession sampleEngine) sampleEngine.
Definition releasedEngine : AudioEngine :=
  outcomeEngine (updateControlParams openHand clenchedEngine) clenchedEngine.

(** The hand [landmarks] seen [s] times as large and shifted by
    [(tx, ty)] in the frame. *)
Definition moved (s tx ty : Q) (landmarks : Z -> Landmark) : Z -> Landmark :=
  fun i => mkLandmark (s * lx (landmarks i) + tx) (s * ly (landmarks i) + ty).

(** A hand whose landmarks lie on a line. *)
Definition sampleHand : Z -> Landmark :=
  fun i => mkLandmark (inject_Z i / 40) (inject_Z i / 80).

(** The running sample engine gets a step callback, and time passes. *)
Definition callbackSession : list Event := [CallSetOnStepCallback; ClockAdvances 1].
Definition callbackEngine : AudioEngine :=
  outcomeEngine (session 100 callbackSession runningEngine) runningEngine.

(** Any voice but a hi-hat (or the snare and the shaker made of it). *)
Definition notHiHat (v : Voice) : Prop :=
  match v with HiHat _ _ _ => False | _ => True end.

(** Any voice but a kick. *)
Definition notKick (v : Voice) : Prop :=
  match v with Kick _ _ _ => False | _ => True end.

(** The kick of a style: softer for easy listening and ambient. *)
Definition kickOf (s : MusicStyle) (time : Q) : Voice :=
  match s with
  | easy_listening | ambient => Kick time (lit 6 10) (lit 3 10)
  | _ => Kick time 1 (lit 5 10)
  end.

(** The second quarter of a bar, scheduled at second 3 on the started
    sample engine. *)
Definition kickStep : AudioEngine :=
  outcomeEngine (scheduleNote startedEngine 4 3) startedEngine.

(** The sample engine started, stopped in bar 1 and started again. *)
Definition replaySession : list Event := runningSession ++ [CallStop; CallStart].
Definition replayedEngine : AudioEngine :=
  outcomeEngine (session 100 replaySession sampleEngine) sampleEngine.

(** The second step of a bar, scheduled at second 3 on the engine [e]. *)
Definition offbeatStep (e : AudioEngine) : AudioEngine :=
  outcomeEngine (scheduleNote e 1 3) e.

(** Parameters with a negative tempo, which the image analysis does not
    rule out, and the engine built from them, started, one second later. *)
Definition backwardsParams : SonicParameters :=
  {| bpm := -120; complexity := lit 5 10; darkness := lit 5 10;
     space := lit 5 10; synthType := sawtooth; baseNoteFrequency := 55;
     style := techno |}.
Definition backwardsEngine : AudioEngine :=
  let e := newAudioEngine sampleWindow backwardsParams zeroRng in
  clockAdvances 1 (outcomeEngine (start 100 e) e).

(** ** Hosts, times and timeouts *)

(** The sample engine on the host without audio. *)
Definition silentEngine : AudioEngine :=
  newAudioEngine silentWindow fallbackParams zeroRng.

(** A gesture inside the frame, as the data model has it. *)
Definition inFrame (g : HandGestures) : Prop :=
  (0 <= x g <= 1)%Q /\ (0 <= y g <= 1)%Q.

(** An event as a host sends it: gestures inside the frame, and an audio
    clock that does not run backwards. *)
Definition hostEvent (ev : Event) : Prop :=
  match ev with
  | CallUpdateControlParams g => inFrame g
  | ClockAdvances dt => (0 <= dt)%Q
  | _ => True
  end.

(** A voice whose times the host accepts: it starts at 0 or later and its
    decay (a kick, a hi-hat, whose noise buffer has that length) or its
    duration (a synth voice) is positive, so that every ramp and stop time
    is later than the start.  The timpani and the bass stop after a fixed
    time. *)
Definition voiceInRange (v : Voice) : Prop :=
  (0 <= voiceTime v)%Q
  /\ match v with
     | Kick _ _ decay | HiHat _ _ decay => (0 < decay)%Q
     | Synth _ _ duration _ => (0 < duration)%Q
     | Timpani _ _ | Bass _ _ => True
     end.

(** The clock, the time of the next note and the voices started so far are
    in the range the host accepts. *)
Definition timesInRange (e : AudioEngine) : Prop :=
  (0 <= nextNoteTime e)%Q
  /\ match ctx e with
     | Some c => (0 <= currentTime c)%Q /\ Forall voiceInRange (voices c)
     | None => True
     end.

(** The target of the exponential ramp that [playBass] puts on its filter,
    800 + darkness * 500, is positive; the host refuses the target 0. *)
Definition bassRampInRange (e : AudioEngine) : Prop :=
  (0 < 800 + darkness (params e) * 500)%Q.





(** The synth of the chords of a style. *)
Definition chordType (s : MusicStyle) : SynthType :=
  match s with
  | symphony => strings
  | easy_listening => epiano
  | _ => pad
  end.

(** [curve[i]] read from the table that [makeDistortionCurve (amount)]
    returns: the table has the samples 0 to [n_samples - 1], and a read
    outside it is [undefined]. *)
Definition curveSample (amount : R) (i : Z) : option R :=
  if (0 <=? i) && (i <? n_samples) then Some (makeDistortionCurve amount i)
  else None.

(** A generator whose draws run through 0, 0.1, ..., 0.9 and over again. *)
Definition cycleRng : Rng :=
  mkRng (fun n => lit (Z.of_nat (n mod 10)) 10) 0.

(** * Properties *)

(** ** Comparisons and arrays *)

Lemma Qltb_lt (a b : Q) : Qltb a b = true <-> (a < b)%Q.
Proof.
  unfold Qltb. rewrite negb_true_iff, <- not_true_iff_false, Qle_bool_iff.
  split; [apply Qnot_le_lt | apply Qlt_not_le].
Qed.

Lemma Qltb_ge (a b : Q) : Qltb a b = false <-> (b <= a)%Q.
Proof.
  unfold Qltb. rewrite negb_false_iff. apply Qle_bool_iff.
Qed.

Lemma array_set_length {A : Type} (arr : list A) (i : nat) (v : A) :
  length (array_set arr i v) = length arr.
Proof.
  revert i. induction arr as [|a rest IH]; intros [|j]; simpl; auto.
Qed.

Lemma array_set_Forall {A : Type} (P : A -> Prop) (arr : list A) (i : nat) (v : A) :
  Forall P arr -> P v -> Forall P (array_set arr i v).
Proof.
  intros Harr Hv. revert i.
  induction Harr as [|a rest Ha Hrest IH]; intros [|j]; simpl; auto.
Qed.

Lemma js_index_Some {A : Type} (arr : list A) (i : Z) :
  0 <= i < Z.of_nat (length arr) -> exists a, js_index arr i = Some a.
Proof.
  intros [Hlo Hhi]. unfold js_index.
  destruct (Z.ltb_spec i 0) as [Hneg|_]; [lia|].
  destruct (nth_error arr (Z.to_nat i)) as [a|] eqn:Hnth; [now exists a|].
  apply nth_error_None in Hnth. lia.
Qed.

Lemma js_index_In {A : Type} (arr : list A) (i : Z) (a : A) :
  js_index arr i = Some a -> In a arr.
Proof.
  unfold js_index. destruct (i <? 0); [discriminate|]. apply nth_error_In.
Qed.

(** ** The composition generator *)

Section Composition.

Variable p : SonicParameters.

Lemma melodyLoop_length (todo : nat) :
  forall i pat r, length (fst (melodyLoop p todo i pat r)) = length pat.
Proof.
  induction todo as [|k IH]; intros i pat r; simpl; [reflexivity|].
  destruct (Qltb _ _); rewrite IH; [apply array_set_length | reflexivity].
Qed.

Lemma bassLoop_length (todo : nat) :
  forall i pat r, length (fst (bassLoop p todo i pat r)) = length pat.
Proof.
  induction todo as [|k IH]; intros i pat r; simpl; [reflexivity|].
  repeat match goal with
         | |- context [if ?c then _ else _] => destruct c
         end; rewrite IH; auto using array_set_length.
Qed.

Lemma bassLoop_rootOrEmpty (todo : nat) :
  forall i pat r,
    Forall rootOrEmpty pat -> Forall rootOrEmpty (fst (bassLoop p todo i pat r)).
Proof.
  induction todo as [|k IH]; intros i pat r Hpat; simpl; [assumption|].
  repeat match goal with
         | |- context [if ?c then _ else _] => destruct c
         end; apply IH; auto; apply array_set_Forall; auto; now right.
Qed.

End Composition.

(** The fields that [generateComposition] leaves, in terms of its steps. *)
Lemma generateComposition_scale (e : AudioEngine) (r : Rng) :
  scale (fst (generateComposition e r)) = selectScale (style (params e)).
Proof.
  unfold generateComposition.
  repeat match goal with
         | |- context [let (_, _) := ?m in _] => destruct m
         end.
  destruct (style_eqb _ _); reflexivity.
Qed.

Lemma generateComposition_form (e : AudioEngine) (r : Rng) :
  form (fst (generateComposition e r)) = selectForm (complexity (params e)).
Proof.
  unfold generateComposition.
  repeat match goal with
         | |- context [let (_, _) := ?m in _] => destruct m
         end.
  destruct (style_eqb _ _); reflexivity.
Qed.

Lemma generateComposition_sections (e : AudioEngine) (r : Rng) :
  exists progA progB, sections (fst (generateComposition e r)) = [progA; progB].
Proof.
  unfold generateComposition.
  repeat match goal with
         | |- context [let (_, _) := ?m in _] => destruct m
         end.
  destruct (style_eqb _ _); simpl; eauto.
Qed.

Lemma generateComposition_melodyPattern (e : AudioEngine) (r : Rng) :
  length (melodyPattern (fst (generateComposition e r))) = 16%nat.
Proof.
  unfold generateComposition.
  destruct (pickProg _ r) as [progA r1]. destruct (pickProg _ r1) as [progB r2].
  pose proof (melodyLoop_length (params e) 16 0 (repeat None 16) r2) as Hlen.
  destruct (melodyLoop _ _ _ _ r2) as [melody r3].
  destruct (bassLoop _ _ _ _ r3) as [bass r4].
  destruct (style_eqb _ _); simpl in *; exact Hlen.
Qed.

Lemma generateComposition_bassPattern (e : AudioEngine) (r : Rng) :
  length (bassPattern (fst (generateComposition e r))) = 16%nat
  /\ Forall rootOrEmpty (bassPattern (fst (generateComposition e r))).
Proof.
  unfold generateComposition.
  destruct (pickProg _ r) as [progA r1]. destruct (pickProg _ r1) as [progB r2].
  destruct (melodyLoop _ _ _ _ r2) as [melody r3].
  pose proof (bassLoop_length (params e) 16 0 (repeat None 16) r3) as Hlen.
  assert (Forall rootOrEmpty (fst (bassLoop (params e) 16 0 (repeat None 16) r3)))
    as Hslots.
  { apply bassLoop_rootOrEmpty. apply Forall_forall. intros s Hs.
    apply repeat_spec in Hs. now left. }
  destruct (bassLoop _ _ _ _ r3) as [bass r4].
  destruct (style_eqb _ _); simpl in *.
  - now split.
  - split; [now rewrite array_set_length|].
    apply array_set_Forall; [assumption | now right].
Qed.

(** A draw in [0, 1) picks one of the progressions on offer. *)
Lemma pickProg_In (arr : list (list Z)) (r : Rng) :
  arr <> [] -> (0 <= tape r (cursor r))%Q /\ (tape r (cursor r) < 1)%Q ->
  exists prog, fst (pickProg arr r) = Some prog /\ In prog arr.
Proof.
  intros Harr [Hlo Hhi]. unfold pickProg, random. simpl.
  set (u := tape r (cursor r)) in *.
  set (n := Z.of_nat (length arr)).
  assert (0 < n) as Hn by (unfold n; destruct arr; [congruence | simpl; lia]).
  destruct (js_index_Some arr (Qfloor (u * inject_Z n))) as [prog Hprog].
  - split.
    + change 0 with (Qfloor 0). apply Qfloor_resp_le.
      apply Qmult_le_0_compat; [exact Hlo|].
      change 0%Q with (inject_Z 0). rewrite <- Zle_Qle. lia.
    + fold n. rewrite Zlt_Qlt. apply Qle_lt_trans with (u * inject_Z n)%Q;
        [apply Qfloor_le|].
      rewrite <- (Qmult_1_l (inject_Z n)) at 2.
      apply Qmult_lt_compat_r; [|exact Hhi].
      change 0%Q with (inject_Z 0). rewrite <- Zlt_Qlt. exact Hn.
  - exists prog. split; [exact Hprog|]. eapply js_index_In. exact Hprog.
Qed.

Lemma pool_progressions (s : MusicStyle) :
  poolA (CHORD_POOLS s) <> [] /\ poolB (CHORD_POOLS s) <> []
  /\ Forall (fun prog => length prog = 4%nat)
            (poolA (CHORD_POOLS s) ++ poolB (CHORD_POOLS s)).
Proof. destruct s; simpl; repeat split; try discriminate; repeat constructor. Qed.

(** With draws in [0, 1), as [Math.random] gives them, both sections are
    progressions of four degrees from the pool of the style, and the engine
    begins on the first. *)
Lemma sections_are_progressions (w : Window) (p : SonicParameters) (r : Rng) :
  unit_draws r ->
  exists progA progB,
    sections (newAudioEngine w p r) = [Some progA; Some progB]
    /\ currentChordSequence (newAudioEngine w p r) = Some progA
    /\ In progA (poolA (CHORD_POOLS (style p)))
    /\ In progB (poolB (CHORD_POOLS (style p)))
    /\ length progA = 4%nat /\ length progB = 4%nat.
Proof.
  intros Hdraws.
  destruct (pool_progressions (style p)) as (HA & HB & Hlen).
  rewrite Forall_app, !Forall_forall in Hlen. destruct Hlen as [HlenA HlenB].
  destruct (pickProg_In (poolA (CHORD_POOLS (style p))) r HA (Hdraws _))
    as (progA & HpickA & HinA).
  destruct (pickProg_In (poolB (CHORD_POOLS (style p)))
              (snd (pickProg (poolA (CHORD_POOLS (style p))) r)) HB (Hdraws _))
    as (progB & HpickB & HinB).
  exists progA, progB.
  unfold newAudioEngine, generateComposition. simpl params.
  destruct (pickProg (poolA _) r) as [a r1]. cbn [fst snd] in HpickA, HpickB.
  destruct (pickProg (poolB _) r1) as [b r2]. cbn [fst] in HpickB. subst a b.
  destruct (melodyLoop _ _ _ _ r2) as [melody r3].
  destruct (bassLoop _ _ _ _ r3) as [bass r4].
  destruct (style_eqb _ _); simpl; repeat split; auto.
Qed.

(** ** The transport *)

Lemma keepsBars_refl (e : AudioEngine) : keepsBars e e.
Proof. repeat split. Qed.

Lemma keepsBars_trans (e1 e2 e3 : AudioEngine) :
  keepsBars e1 e2 -> keepsBars e2 e3 -> keepsBars e1 e3.
Proof. unfold keepsBars. intros (?&?&?) (?&?&?). repeat split; congruence. Qed.

Ltac ends H :=
  let H' := fresh in
  destruct H as [H'|H']; try discriminate H';
  try (injection H' as H'; subst).

Lemma init_keepsBars (e e' : AudioEngine) : endsIn (init e) e' -> keepsBars e e'.
Proof.
  unfold init, buildImpulseResponse. intros H.
  destruct (ctx e); [|destruct (AudioContextClass (window e))];
    ends H; repeat split.
Qed.

Lemma gestureModes_keepsBars (fist : bool) (now : Q) (e e' : AudioEngine) :
  endsIn (gestureModes fist now e) e' -> keepsBars e e'.
Proof.
  unfold gestureModes. intros H. destruct (masterGain e); ends H; repeat split.
Qed.

Lemma updateControlParams_keepsBars (g : HandGestures) (e e' : AudioEngine) :
  endsIn (updateControlParams g e) e' -> keepsBars e e'.
Proof.
  unfold updateControlParams. intros H.
  destruct (ctx e) as [c|]; [|ends H; repeat split].
  destruct (filterNode e) as [f|]; [|ends H; repeat split].
  destruct (distortionNode e) as [d|]; [|ends H; repeat split].
  destruct (negb (isVisible g)); [ends H; repeat split|].
  match type of H with
  | endsIn (match gestureModes ?a ?b ?c with _ => _ end) _ =>
      pose proof (gestureModes_keepsBars a b c) as Hmodes;
      destruct (gestureModes a b c) as [e1| e1|]
  end.
  - assert (keepsBars e e1) as Hk.
    { eapply keepsBars_trans; [|apply Hmodes; now left]. repeat split. }
    destruct (isPinching g); [destruct (filterNode e1)|]; ends H; exact Hk.
  - ends H. eapply keepsBars_trans; [|apply Hmodes; now right]. repeat split.
  - ends H.
Qed.

Lemma applyEffects_keepsBars (fs : list Effect) :
  forall e, keepsBars e (applyEffects e fs).
Proof.
  unfold applyEffects.
  induction fs as [|f rest IH]; intros e; simpl; [apply keepsBars_refl|].
  eapply keepsBars_trans; [|apply IH].
  destruct f; simpl; [destruct (ctx e)|]; repeat split.
Qed.

Lemma scheduleNote_keepsBars (e e' : AudioEngine) (beat : Z) (time : Q) :
  endsIn (scheduleNote e beat time) e' -> keepsBars e e'.
Proof.
  unfold scheduleNote. intros H.
  destruct (ctx e) as [c|]; [|ends H; apply keepsBars_refl].
  destruct (returned _); ends H; apply applyEffects_keepsBars.
Qed.

Lemma nextNote_intensityTracksBar (e : AudioEngine) :
  intensityTracksBar e -> intensityTracksBar (nextNote e).
Proof.
  unfold intensityTracksBar, nextNote. simpl.
  destruct (current16thNote e + 1 =? 16); simpl; [reflexivity | trivial].
Qed.

Lemma nextNote_isPlaying (e : AudioEngine) : isPlaying (nextNote e) = isPlaying e.
Proof.
  unfold nextNote. simpl. destruct (current16thNote e + 1 =? 16); reflexivity.
Qed.

Lemma keepsBars_intensityTracksBar (e e' : AudioEngine) :
  keepsBars e e' -> intensityTracksBar e -> intensityTracksBar e'.
Proof.
  unfold keepsBars, intensityTracksBar. intros (Hb & Hi & _) H.
  now rewrite Hb, Hi.
Qed.

Lemma schedulerLoop_intensityTracksBar (fuel : nat) (now : Q) :
  forall e e',
    endsIn (schedulerLoop fuel now e) e' ->
    intensityTracksBar e -> intensityTracksBar e' /\ isPlaying e' = isPlaying e.
Proof.
  induction fuel as [|k IH]; intros e e' H Htracks; simpl in H;
    destruct (Qltb _ _); try (ends H; now split).
  destruct (scheduleNote e (current16thNote e) (nextNoteTime e))
    as [e1|e1|] eqn:Hnote.
  - assert (keepsBars e e1) as Hk
      by (eapply scheduleNote_keepsBars; left; exact Hnote).
    apply IH in H.
    + destruct H as [H1 H2]. split; [exact H1|].
      rewrite H2, nextNote_isPlaying. apply Hk.
    + apply nextNote_intensityTracksBar.
      eapply keepsBars_intensityTracksBar; eauto.
  - ends H.
    assert (keepsBars e e') as Hk
      by (eapply scheduleNote_keepsBars; right; exact Hnote).
    split; [eapply keepsBars_intensityTracksBar; eauto | apply Hk].
  - ends H.
Qed.

Lemma scheduler_intensityTracksBar (fuel : nat) (e e' : AudioEngine) :
  endsIn (scheduler fuel e) e' ->
  intensityTracksBar e -> intensityTracksBar e' /\ isPlaying e' = isPlaying e.
Proof.
  unfold scheduler. intros H Htracks.
  destruct (ctx e) as [c|]; [|ends H; now split].
  destruct (negb (isPlaying e)); [ends H; now split|].
  destruct (schedulerLoop fuel (currentTime c) e) as [e1|e1|] eqn:Hloop.
  - ends H.
    eapply schedulerLoop_intensityTracksBar in Htracks; [|left; exact Hloop].
    exact Htracks.
  - ends H.
    eapply schedulerLoop_intensityTracksBar in Htracks; [|right; exact Hloop].
    exact Htracks.
  - ends H.
Qed.

(** While stopped, the scheduler does nothing. *)
Lemma scheduler_stopped (fuel : nat) (e : AudioEngine) :
  isPlaying e = false -> scheduler fuel e = Done e.
Proof.
  unfold scheduler. intros ->. now destruct (ctx e).
Qed.

(** *** The scheduler loop ends *)

Lemma applyEffects_keepsClock (fs : list Effect) :
  forall e, keepsClock e (applyEffects e fs).
Proof.
  unfold applyEffects, keepsClock.
  induction fs as [|f rest IH]; intros e; simpl; [repeat split|].
  destruct (IH (applyEffect e f)) as (-> & -> & ->).
  destruct f; simpl; [destruct (ctx e)|]; repeat split.
Qed.

Lemma scheduleNote_keepsClock (e e' : AudioEngine) (beat : Z) (time : Q) :
  endsIn (scheduleNote e beat time) e' -> keepsClock e e'.
Proof.
  unfold scheduleNote. intros H.
  destruct (ctx e) as [c|]; [|ends H; repeat split].
  destruct (returned _); ends H; apply applyEffects_keepsClock.
Qed.

Lemma scheduleNote_no_Spin (e : AudioEngine) (beat : Z) (time : Q) :
  scheduleNote e beat time <> Spin.
Proof.
  unfold scheduleNote. destruct (ctx e); [destruct (returned _)|]; discriminate.
Qed.

Lemma sixteenth_pos (e : AudioEngine) : (0 < bpm (params e))%Q -> (0 < sixteenth e)%Q.
Proof.
  intros Hbpm. unfold sixteenth.
  apply Qmult_lt_0_compat; [reflexivity|].
  apply Qlt_shift_div_l; [exact Hbpm|]. rewrite Qmult_0_l. reflexivity.
Qed.

Lemma nextNote_clock (e : AudioEngine) :
  nextNoteTime (nextNote e) = (nextNoteTime e + sixteenth e)%Q
  /\ params (nextNote e) = params e
  /\ scheduleAheadTime (nextNote e) = scheduleAheadTime e.
Proof.
  unfold nextNote. simpl. destruct (current16thNote e + 1 =? 16); repeat split.
Qed.

Lemma schedulerLoop_enough_fuel (now : Q) (n : nat) :
  forall e fuel,
    (0 < bpm (params e))%Q ->
    (now + scheduleAheadTime e - nextNoteTime e
     <= inject_Z (Z.of_nat n) * sixteenth e)%Q ->
    (n <= fuel)%nat ->
    schedulerLoop fuel now e <> Spin.
Proof.
  induction n as [|m IH]; intros e fuel Hbpm Hgap Hfuel.
  - assert (Qltb (nextNoteTime e) (now + scheduleAheadTime e) = false) as Hstop.
    { apply Qltb_ge. change (inject_Z (Z.of_nat 0)) with 0%Q in Hgap.
      rewrite Qmult_0_l in Hgap. Lqa.lra. }
    destruct fuel; simpl; rewrite Hstop; discriminate.
  - destruct fuel as [|k]; [lia|]. simpl.
    destruct (Qltb _ _); [|discriminate].
    destruct (scheduleNote e (current16thNote e) (nextNoteTime e))
      as [e1|e1|] eqn:Hnote; [|discriminate|].
    + destruct (scheduleNote_keepsClock e e1 _ _ (or_introl Hnote))
        as (Ht & Hp & Ha).
      destruct (nextNote_clock e1) as (Ht' & Hp' & Ha').
      apply IH; [now rewrite Hp', Hp | | lia].
      rewrite Ht', Ha'. unfold sixteenth in *. rewrite Hp', Ht, Hp, Ha.
      rewrite Nat2Z.inj_succ, <- Z.add_1_r, inject_Z_plus in Hgap.
      rewrite Qmult_plus_distr_l in Hgap.
      change (inject_Z 1) with 1%Q in Hgap. rewrite Qmult_1_l in Hgap.
      set (delta := (lit 25 100 * (60 / bpm (params e)))%Q) in *.
      set (sofar := (inject_Z (Z.of_nat m) * delta)%Q) in *.
      Lqa.lra.
    + now apply scheduleNote_no_Spin in Hnote.
Qed.

(** With a positive tempo the loop of the scheduler ends: some amount of
    fuel is enough, and so is every larger one. *)
Lemma scheduler_enough_fuel (e : AudioEngine) :
  (0 < bpm (params e))%Q ->
  exists n, forall fuel, (n <= fuel)%nat -> scheduler fuel e <> Spin.
Proof.
  intros Hbpm. unfold scheduler.
  destruct (ctx e) as [c|]; [|exists 0%nat; discriminate].
  destruct (negb (isPlaying e)); [exists 0%nat; discriminate|].
  pose proof (sixteenth_pos e Hbpm) as Hpos.
  set (gap := (currentTime c + scheduleAheadTime e - nextNoteTime e)%Q).
  exists (Z.to_nat (Qceiling (gap / sixteenth e))). intros fuel Hfuel.
  pose proof (schedulerLoop_enough_fuel (currentTime c)
                (Z.to_nat (Qceiling (gap / sixteenth e))) e fuel Hbpm) as Hloop.
  destruct (schedulerLoop fuel (currentTime c) e); try discriminate.
  exfalso. apply Hloop; [|exact Hfuel|reflexivity].
  fold gap.
  assert (gap == gap / sixteenth e * sixteenth e)%Q as Hgap.
  { rewrite Qmult_comm. symmetry. apply Qmult_div_r. intros Hz.
    rewrite Hz in Hpos. now apply Qlt_irrefl in Hpos. }
  rewrite Hgap at 1. apply Qmult_le_compat_r; [|now apply Qlt_le_weak].
  apply Qle_trans with (inject_Z (Qceiling (gap / sixteenth e)));
    [apply Qle_ceiling|].
  rewrite <- Zle_Qle. lia.
Qed.

Lemma intensityAt_0 : (intensityAt 0 == 0)%Q.
Proof. reflexivity. Qed.

Lemma intensityAt_mono (b1 b2 : Z) :
  b1 <= b2 -> (intensityAt b1 <= intensityAt b2)%Q.
Proof.
  intros Hle. unfold intensityAt.
  apply Q.min_le_compat_l.
  apply Qmult_le_compat_r; [|discriminate].
  now rewrite <- Zle_Qle.
Qed.

Lemma intensityAt_saturates (b : Z) : 64 <= b -> (intensityAt b == 1)%Q.
Proof.
  intros Hb. unfold intensityAt. apply Q.min_l.
  apply Qle_shift_div_l; [reflexivity|].
  rewrite Qmult_1_l. change 64%Q with (inject_Z 64). now rewrite <- Zle_Qle.
Qed.

Lemma notStarted_intensityTracksBar (e : AudioEngine) :
  notStarted e -> intensityTracksBar e.
Proof.
  unfold notStarted, intensityTracksBar. intros (_ & -> & ->). reflexivity.
Qed.

Lemma keepsBars_notStarted (e e' : AudioEngine) :
  keepsBars e e' -> notStarted e -> notStarted e'.
Proof.
  unfold keepsBars, notStarted. intros (-> & -> & ->). trivial.
Qed.

Lemma generateComposition_keepsBars (e : AudioEngine) (r : Rng) :
  keepsBars e (fst (generateComposition e r)).
Proof.
  unfold generateComposition.
  repeat match goal with
         | |- context [let (_, _) := ?m in _] => destruct m
         end.
  destruct (style_eqb _ _); repeat split.
Qed.

Lemma newAudioEngine_notStarted (w : Window) (p : SonicParameters) (r : Rng) :
  notStarted (newAudioEngine w p r).
Proof.
  unfold newAudioEngine.
  eapply keepsBars_notStarted; [apply generateComposition_keepsBars|].
  repeat split.
Qed.

Lemma clockAdvances_keepsBars (dt : Q) (e : AudioEngine) :
  keepsBars e (clockAdvances dt e).
Proof. unfold clockAdvances. destruct (ctx e); repeat split. Qed.

Lemma timeoutFires_intensityTracksBar (fuel id : nat) (e e' : AudioEngine) :
  endsIn (timeoutFires fuel id e) e' ->
  intensityTracksBar e -> intensityTracksBar e' /\ isPlaying e' = isPlaying e.
Proof.
  unfold timeoutFires. intros H Htracks.
  destruct (existsb _ _); [|ends H; now split].
  apply scheduler_intensityTracksBar in H; [exact H | exact Htracks].
Qed.

Lemma timeoutFires_notStarted (fuel id : nat) (e e' : AudioEngine) :
  endsIn (timeoutFires fuel id e) e' -> notStarted e -> notStarted e'.
Proof.
  unfold timeoutFires. intros H Hns.
  destruct (existsb _ _); [|ends H; exact Hns].
  rewrite scheduler_stopped in H by apply Hns.
  ends H. exact Hns.
Qed.

Lemma start_intensityTracksBar (fuel : nat) (e e' : AudioEngine) :
  endsIn (start fuel e) e' -> notStarted e -> intensityTracksBar e'.
Proof.
  unfold start. intros H Hns.
  destruct (init e) as [e1|e1|] eqn:Hinit.
  - assert (notStarted e1) as (_ & Hbar & Hint).
    { eapply keepsBars_notStarted; [|exact Hns].
      eapply init_keepsBars. left. exact Hinit. }
    unfold resumeIfSuspended in H.
    assert (forall e2, globalBar e2 = 0 -> intensity e2 = intensity e1 ->
                       intensityTracksBar e2) as Hzero.
    { intros e2 Hb Hi. unfold intensityTracksBar. now rewrite Hb, Hi, Hint. }
    destruct (ctx e1) as [c|] eqn:Hctx; [destruct (state c)|];
      simpl in H; rewrite ?Hctx in H;
      try (apply scheduler_intensityTracksBar in H;
           [exact (proj1 H) | apply Hzero; reflexivity]).
    ends H. apply Hzero; reflexivity.
  - ends H. apply notStarted_intensityTracksBar.
    eapply keepsBars_notStarted; [|exact Hns].
    eapply init_keepsBars. right. exact Hinit.
  - ends H.
Qed.

Lemma perform_notStarted (fuel : nat) (ev : Event) (e e' : AudioEngine) :
  isStart ev = false -> endsIn (perform fuel ev e) e' ->
  notStarted e -> notStarted e'.
Proof.
  intros Hev H Hns. destruct ev; simpl in *; try discriminate.
  - ends H. exact Hns.
  - eapply keepsBars_notStarted; [eapply init_keepsBars|]; eauto.
  - ends H. destruct Hns as (? & ? & ?). repeat split; assumption.
  - eapply keepsBars_notStarted; [eapply updateControlParams_keepsBars|]; eauto.
  - ends H. eapply keepsBars_notStarted; [apply clockAdvances_keepsBars|]; eauto.
  - eapply timeoutFires_notStarted; eauto.
Qed.

Lemma perform_intensityTracksBar (fuel : nat) (ev : Event) (e e' : AudioEngine) :
  isStart ev = false -> endsIn (perform fuel ev e) e' ->
  intensityTracksBar e -> intensityTracksBar e'.
Proof.
  intros Hev H Htracks. destruct ev; simpl in *; try discriminate.
  - ends H. exact Htracks.
  - eapply keepsBars_intensityTracksBar; [eapply init_keepsBars|]; eauto.
  - ends H. exact Htracks.
  - eapply keepsBars_intensityTracksBar;
      [eapply updateControlParams_keepsBars|]; eauto.
  - ends H.
    eapply keepsBars_intensityTracksBar; [apply clockAdvances_keepsBars|]; eauto.
  - eapply timeoutFires_intensityTracksBar; eauto.
Qed.

Lemma session_noStart (fuel : nat) (P : AudioEngine -> Prop) :
  (forall ev e e', isStart ev = false -> endsIn (perform fuel ev e) e' ->
                   P e -> P e') ->
  forall evs e e',
    noStart evs = true -> endsIn (session fuel evs e) e' -> P e -> P e'.
Proof.
  intros Hstep. induction evs as [|ev rest IH]; intros e e' Hevs H HP; simpl in *.
  - ends H. exact HP.
  - apply andb_true_iff in Hevs as [Hev Hrest]. apply negb_true_iff in Hev.
    destruct (perform fuel ev e) as [e1|e1|] eqn:Hperf.
    + eapply IH; eauto. eapply Hstep; eauto. left. exact Hperf.
    + eapply IH; eauto. eapply Hstep; eauto. right. exact Hperf.
    + ends H.
Qed.

Lemma session_app (fuel : nat) (evs1 evs2 : list Event) :
  forall e,
    session fuel (evs1 ++ evs2) e =
    match session fuel evs1 e with
    | Done e1 => session fuel evs2 e1
    | other => other
    end.
Proof.
  induction evs1 as [|ev rest IH]; intros e; simpl; [reflexivity|].
  destruct (perform fuel ev e); auto.
Qed.

(** In the first run of an engine the intensity follows the bar counter. *)
Lemma first_run_intensityTracksBar (fuel : nat) (before after : list Event)
    (e e' : AudioEngine) :
  notStarted e -> noStart before = true -> noStart after = true ->
  endsIn (session fuel (before ++ CallStart :: after) e) e' ->
  intensityTracksBar e'.
Proof.
  intros Hns Hbefore Hafter H. rewrite session_app in H.
  pose proof (session_noStart fuel notStarted (perform_notStarted fuel)
                before e) as Hpre_ns.
  pose proof (session_noStart fuel intensityTracksBar
                (perform_intensityTracksBar fuel) after) as Hpost.
  destruct (session fuel before e) as [e1|e1|] eqn:Hpre.
  - assert (notStarted e1) as Hns1 by (apply Hpre_ns; auto; now left).
    simpl in H. destruct (start fuel e1) as [e2|e2|] eqn:Hstart.
    + apply (Hpost e2 e' Hafter H).
      eapply start_intensityTracksBar; [left; exact Hstart | exact Hns1].
    + apply (Hpost e2 e' Hafter H).
      eapply start_intensityTracksBar; [right; exact Hstart | exact Hns1].
    + ends H.
  - ends H. apply notStarted_intensityTracksBar.
    apply Hpre_ns; auto; now right.
  - ends H.
Qed.

(** ** [start] *)

Lemma init_Done (e : AudioEngine) :
  ctx e <> None \/ AudioContextClass (window e) <> None ->
  exists e1 c,
    init e = Done e1 /\ ctx e1 = Some c
    /\ scheduleAheadTime e1 = scheduleAheadTime e.
Proof.
  intros Havail. unfold init, buildImpulseResponse.
  destruct (ctx e) as [c|] eqn:Hctx; [now exists e, c|].
  destruct (AudioContextClass (window e)) as [st|];
    [|destruct Havail; congruence].
  simpl. eexists _, _. repeat split.
Qed.

Lemma schedulerLoop_idle (fuel : nat) (now : Q) (e : AudioEngine) :
  (now + scheduleAheadTime e <= nextNoteTime e)%Q ->
  schedulerLoop fuel now e = Done e.
Proof.
  intros Hle. apply Qltb_ge in Hle. destruct fuel; simpl; now rewrite Hle.
Qed.

Lemma start_Done (fuel : nat) (e : AudioEngine) :
  ctx e <> None \/ AudioContextClass (window e) <> None ->
  (scheduleAheadTime e <= lit 1 10)%Q ->
  exists e',
    start fuel e = Done e' /\ isPlaying e' = true
    /\ current16thNote e' = 0 /\ globalBar e' = 0
    /\ intensity e' = intensity e
    /\ exists c, ctx e' = Some c
                 /\ nextNoteTime e' = (currentTime c + lit 1 10)%Q.
Proof.
  intros Havail Hahead.
  destruct (init_Done e Havail) as (e1 & c & Hinit & Hctx & Hsched).
  assert (intensity e1 = intensity e) as Hint
    by (eapply init_keepsBars; left; exact Hinit).
  unfold start. rewrite Hinit. unfold resumeIfSuspended. rewrite Hctx.
  assert (forall c1 e2,
            ctx e2 = Some c1 -> isPlaying e2 = true ->
            nextNoteTime e2 = (currentTime c1 + lit 1 10)%Q ->
            scheduleAheadTime e2 = scheduleAheadTime e ->
            exists id w,
              scheduler fuel e2 = Done (set_timerID (Some id) (set_window w e2)))
    as Hsch.
  { intros c1 e2 Hc Hp Hn Hs. unfold scheduler. rewrite Hc, Hp. simpl.
    rewrite schedulerLoop_idle.
    - unfold setTimeout. eexists _, _. reflexivity.
    - rewrite Hn, Hs. now apply Qplus_le_r. }
  destruct (state c); simpl; rewrite ?Hctx;
    match goal with
    | |- exists _, scheduler _ ?eng = _ /\ _ =>
        edestruct Hsch with (e2 := eng) as (id & w & ->);
          [first [exact Hctx | reflexivity] | reflexivity | reflexivity
          | exact Hsched | ]
    end;
    eexists; (split; [reflexivity|]); simpl; repeat split; try exact Hint;
    eexists; (split; [first [exact Hctx | reflexivity] | reflexivity]).
Qed.

(** ** Frequency resolution *)

Lemma rem_vs_mod (d len : Z) :
  0 < len -> Z.rem d len = d mod len \/ Z.rem d len = d mod len - len.
Proof.
  intros Hlen.
  pose proof (Z.quot_rem' d len) as Hq.
  pose proof (Z.div_mod d len ltac:(lia)) as Hd.
  pose proof (Z.mod_pos_bound d len Hlen) as Hm.
  pose proof (Z.rem_bound_abs d len ltac:(lia)) as Hr.
  assert (Z.rem d len - d mod len = len * (d / len - d ÷ len)) as Hdiff by lia.
  assert (-1 <= d / len - d ÷ len <= 0) as Hk by nia.
  assert (d / len - d ÷ len = -1 \/ d / len - d ÷ len = 0) as [Hc|Hc] by lia;
    rewrite Hc in Hdiff; lia.
Qed.

(** [((d % len) + len) % len] is the mathematical [d mod len]. *)
Lemma normDegree_mod (len d : Z) : 0 < len -> normDegree len d = d mod len.
Proof.
  intros Hlen. unfold normDegree.
  pose proof (Z.mod_pos_bound d len Hlen) as Hm.
  destruct (rem_vs_mod d len Hlen) as [-> | ->].
  - rewrite Z.rem_mod_nonneg by lia.
    replace (d mod len + len) with (d mod len + 1 * len) by lia.
    rewrite Z.mod_add by lia. apply Z.mod_mod; lia.
  - replace (d mod len - len + len) with (d mod len) by lia.
    apply Z.rem_small; lia.
Qed.

Lemma normDegree_bounds (len d : Z) : 0 < len -> 0 <= normDegree len d < len.
Proof.
  intros Hlen. rewrite normDegree_mod by assumption.
  now apply Z.mod_pos_bound.
Qed.

Lemma ln2_pos : (0 < ln 2)%R.
Proof. pose proof ln_lt_2. lra. Qed.

Lemma Rpower_2_log2 (a : R) : (0 < a)%R -> Rpower 2 (log2 a) = a.
Proof.
  intros Ha. unfold Rpower, log2.
  replace (ln a / ln 2 * ln 2)%R with (ln a)
    by (field; pose proof ln2_pos; lra).
  now apply exp_ln.
Qed.

(** Going through the MIDI number of the base frequency and back is a
    multiplication of the base frequency by [2 ^ (semitones / 12)]. *)
Lemma equal_tempered (b : R) (s : Z) :
  (0 < b)%R ->
  (440 * Rpower 2 ((69 + 12 * log2 (b / 440) + IZR s - 69) / 12)
   = b * Rpower 2 (IZR s / 12))%R.
Proof.
  intros Hb.
  replace ((69 + 12 * log2 (b / 440) + IZR s - 69) / 12)%R
    with (log2 (b / 440) + IZR s / 12)%R by field.
  rewrite Rpower_plus, Rpower_2_log2 by lra. field.
Qed.

Lemma semitonesToFreq_positive (base : Q) (s : Z) :
  (0 < base)%Q ->
  semitonesToFreq base s = Some (Q2R base * Rpower 2 (IZR s / 12))%R.
Proof.
  intros Hbase. unfold semitonesToFreq.
  apply Qltb_lt in Hbase as Hb. rewrite Hb. f_equal.
  apply equal_tempered. apply Qlt_Rlt in Hbase.
  now rewrite RMicromega.Q2R_0 in Hbase.
Qed.

Lemma semitonesToFreq_defined (base : Q) (s : Z) :
  (0 <= base)%Q -> exists f, semitonesToFreq base s = Some f.
Proof.
  intros Hbase. unfold semitonesToFreq.
  destruct (Qltb 0 base) eqn:Hlt; [eauto|].
  apply Qltb_ge in Hlt.
  assert (base == 0)%Q as Hz by now apply Qle_antisym.
  apply Qeq_bool_iff in Hz. rewrite Hz. eauto.
Qed.

(** With a scale and a base frequency that is not negative, every degree
    has a frequency. *)
Lemma getFreq_defined (e : AudioEngine) (d oct : Z) :
  scale e <> [] -> (0 <= baseNoteFrequency (params e))%Q ->
  exists f, getFreq e d oct = Some f.
Proof.
  intros Hscale Hbase. unfold getFreq.
  destruct (js_index_Some (scale e) (normDegree (Z.of_nat (length (scale e))) d))
    as [s ->].
  - apply normDegree_bounds. destruct (scale e); [congruence | simpl; lia].
  - now apply semitonesToFreq_defined.
Qed.

(** ** Note realization: what a call emits *)

Lemma startedVoices_app (fs gs : list Effect) :
  startedVoices (fs ++ gs) = startedVoices fs ++ startedVoices gs.
Proof. unfold startedVoices. apply flat_map_app. Qed.

Section Emits.

Context {A B : Type}.
Variable P : Voice -> Prop.

Lemma emits_ret (a : A) : emits P (ret a).
Proof. constructor. Qed.

Lemma emits_throw : emits P (@throw A).
Proof. constructor. Qed.

Lemma emits_timeout (cb : TimerCallback) (d : Q) : emits P (emit (SetTimeout cb d)).
Proof. constructor. Qed.

Lemma emits_start (v : Voice) : P v -> emits P (emit (Start v)).
Proof. intros Hv. repeat constructor. exact Hv. Qed.

Lemma emits_bind (m : Fx A) (k : A -> Fx B) :
  emits P m -> (forall a, emits P (k a)) -> emits P (bind m k).
Proof.
  unfold emits, bind. intros Hm Hk.
  destruct (returned m) as [a|]; simpl; [|exact Hm].
  rewrite startedVoices_app. apply Forall_app. split; [exact Hm | apply Hk].
Qed.

Lemma emits_weaken (Q' : Voice -> Prop) (m : Fx A) :
  (forall v, P v -> Q' v) -> emits P m -> emits Q' m.
Proof. unfold emits. intros HPQ. apply Forall_impl, HPQ. Qed.

Lemma returns_ret (a : A) : returns (ret a).
Proof. discriminate. Qed.

Lemma returns_bind (m : Fx A) (k : A -> Fx B) :
  returns m -> (forall a, returns (k a)) -> returns (bind m k).
Proof.
  unfold returns, bind. intros Hm Hk.
  destruct (returned m) as [a|]; simpl; [apply Hk | now destruct Hm].
Qed.

Lemma emitted_bind (m : Fx A) (k : A -> Fx B) (a : A) :
  returned m = Some a -> emitted (bind m k) = emitted m ++ emitted (k a).
Proof. unfold bind. now intros ->. Qed.

End Emits.

Lemma emits_withFreq (P : Voice -> Prop) (freq : option R) (voice : R -> Voice) :
  (forall f, P (voice f)) -> emits P (withFreq freq voice).
Proof.
  intros Hv. destruct freq; [apply emits_start, Hv | apply emits_throw].
Qed.

Lemma returns_emit (f : Effect) : returns (emit f).
Proof. discriminate. Qed.

Lemma returns_unit (m : Fx unit) : returns m -> returned m = Some tt.
Proof. unfold returns. now destruct (returned m) as [[]|]. Qed.

Lemma emitted_seq {B : Type} (m : Fx unit) (k : Fx B) :
  returns m -> emitted (bind m (fun _ => k)) = emitted m ++ emitted k.
Proof. intros Hm. apply emitted_bind with (a := tt). now apply returns_unit. Qed.

Create HintDb fx.
#[local] Hint Resolve emits_ret emits_throw emits_timeout emits_start emits_withFreq
  returns_ret returns_emit : fx.
#[local] Hint Extern 1 (notBass _) => exact I : fx.

(** One step through the code of a call: split a sequence, or decide a
    condition. *)
Ltac fx_step :=
  match goal with
  | |- emits _ (bind _ _) => apply emits_bind; [|intros ?]
  | |- returns (bind _ _) => apply returns_bind; [|intros ?]
  | |- emits _ (if ?c then _ else _) => destruct c
  | |- returns (if ?c then _ else _) => destruct c
  | |- emits _ (match ?o with Some _ => _ | None => _ end) => destruct o
  | |- returns (match ?o with Some _ => _ | None => _ end) => destruct o
  end.

Ltac fx_auto := repeat fx_step; auto with fx.

Lemma uiSync_emits (P : Voice -> Prop) (now : Q) (beat : Z) (time : Q) :
  emits P (uiSync now beat time).
Proof. unfold uiSync, skip. fx_auto. Qed.

Lemma uiSync_returns (now : Q) (beat : Z) (time : Q) : returns (uiSync now beat time).
Proof. unfold uiSync, skip. fx_auto. Qed.

Lemma rhythmSection_notBass (e : AudioEngine) (beat : Z) (time : Q)
    (fist pinching breakdown : bool) :
  emits notBass (rhythmSection e beat time fist pinching breakdown).
Proof.
  unfold rhythmSection, playKick, playTimpani, playNoiseSnare, playShaker,
    playHiHat, skip.
  fx_auto.
Qed.

Lemma rhythmSection_returns (e : AudioEngine) (beat : Z) (time : Q)
    (fist pinching breakdown : bool) :
  returns (rhythmSection e beat time fist pinching breakdown).
Proof.
  unfold rhythmSection, playKick, playTimpani, playNoiseSnare, playShaker,
    playHiHat, skip.
  fx_auto.
Qed.

Lemma chordRoot_emits (P : Voice -> Prop) (e : AudioEngine) : emits P (chordRoot e).
Proof. unfold chordRoot. fx_auto. Qed.

Lemma chordVoices_notBass (e : AudioEngine) (time duration : Q) (octaveShift : Z)
    (type : SynthType) (notes : list (option Z)) :
  forall i, emits notBass (chordVoices e time duration octaveShift type i notes).
Proof.
  induction notes as [|degree rest IH]; intros i; simpl; unfold skip, playSynth;
    fx_auto.
Qed.

Lemma playChord_notBass (e : AudioEngine) (time : Q) (isBuilding : bool)
    (octaveShift : Z) :
  emits notBass (playChord e time isBuilding octaveShift).
Proof.
  unfold playChord. apply emits_bind; [apply chordRoot_emits|].
  intros root. apply chordVoices_notBass.
Qed.

Lemma leadOrArp_notBass (e : AudioEngine) (beat : Z) (time : Q)
    (fist pinching : bool) :
  emits notBass (leadOrArp e beat time fist pinching).
Proof.
  unfold leadOrArp, playSynth, skip.
  destruct (_ && (Z.rem beat 2 =? 0)).
  - apply emits_bind; [apply chordRoot_emits|]. intros root. fx_auto.
  - destruct (js_index (melodyPattern e) beat) as [[n|]|]; fx_auto.
Qed.

(** When the bass slot of a step is empty or holds 0, the bass voice of the
    step, if there is one, sounds the root of the current chord. *)
Lemma bassline_rootBass (e : AudioEngine) (beat : Z) (time : Q)
    (fist breakdown : bool) :
  (forall slot, js_index (bassPattern e) beat = Some slot -> rootOrEmpty slot) ->
  emits (rootBass e time) (bassline e beat time fist breakdown).
Proof.
  intros Hslots. unfold bassline, skip.
  destruct (negb fist && negb breakdown); [|apply emits_ret].
  destruct (js_index (bassPattern e) beat) as [slot|] eqn:Hslot.
  - destruct (Hslots slot eq_refl) as [-> | ->].
    + apply emits_ret.
    + unfold chordRoot.
      destruct (currentChordSequence e) as [sequence|] eqn:Hseq;
        [|apply emits_throw].
      unfold bind, playBass, emits; simpl.
      destruct (getFreqOf e (js_index sequence (Z.rem (globalBar e) 4)) 0)
        as [f|] eqn:Hf; simpl; constructor; [|constructor].
      exists sequence, f. auto.
  - apply emits_bind; [apply chordRoot_emits|]. intros root.
    simpl. apply emits_throw.
Qed.

Lemma noteEffects_voices (e : AudioEngine) (now : Q) (beat : Z) (time : Q) :
  (forall slot, js_index (bassPattern e) beat = Some slot -> rootOrEmpty slot) ->
  emits (fun v => notBass v \/ rootBass e time v) (noteEffects e now beat time).
Proof.
  intros Hslots. unfold noteEffects.
  assert (forall A (m : Fx A), emits notBass m ->
            emits (fun v => notBass v \/ rootBass e time v) m) as Hleft
    by (intros A m; apply emits_weaken; auto).
  apply emits_bind; [apply uiSync_emits | intros _].
  apply emits_bind; [apply Hleft, rhythmSection_notBass | intros _].
  apply emits_bind; [|intros _].
  { destruct (beat =? 0); [apply Hleft, playChord_notBass | apply emits_ret]. }
  apply emits_bind; [|intros _; apply Hleft, leadOrArp_notBass].
  eapply emits_weaken; [|apply bassline_rootBass, Hslots]. auto.
Qed.

(** The voices of a call are appended to those of the context. *)
Lemma applyEffects_ctx (fs : list Effect) :
  forall e c,
    ctx e = Some c ->
    ctx (applyEffects e fs)
    = Some (mkCtx (currentTime c) (state c) (resumeCalls c)
                  (voices c ++ startedVoices fs)).
Proof.
  unfold applyEffects.
  induction fs as [|f rest IH]; intros e c Hctx; simpl.
  - rewrite app_nil_r, Hctx. now destruct c.
  - destruct f as [v|cb d]; simpl.
    + rewrite Hctx. erewrite IH by reflexivity. simpl.
      now rewrite <- app_assoc.
    + erewrite IH by exact Hctx. reflexivity.
Qed.

Lemma scheduleNote_voices (e : AudioEngine) (c : AudioContext) (beat : Z) (time : Q) :
  ctx e = Some c ->
  exists e',
    endsIn (scheduleNote e beat time) e'
    /\ ctx e' = Some (mkCtx (currentTime c) (state c) (resumeCalls c)
                            (voices c
                             ++ startedVoices
                                  (emitted (noteEffects e (currentTime c) beat time)))).
Proof.
  intros Hctx. unfold scheduleNote. rewrite Hctx.
  destruct (returned _); eexists;
    (split; [first [left; reflexivity | right; reflexivity]
            | apply applyEffects_ctx; exact Hctx]).
Qed.

(** A chord can be voiced when its root is known, the scale is not empty
    and the base frequency is not negative. *)
Lemma chordVoices_returns (e : AudioEngine) (time duration : Q) (octaveShift : Z)
    (type : SynthType) (notes : list (option Z)) :
  scale e <> [] -> (0 <= baseNoteFrequency (params e))%Q ->
  Forall (fun degree => degree <> None) notes ->
  forall i, returns (chordVoices e time duration octaveShift type i notes).
Proof.
  intros Hscale Hbase Hnotes.
  induction Hnotes as [|degree rest Hdegree Hrest IH]; intros i; simpl.
  - apply returns_ret.
  - apply returns_bind; [|intros _; apply IH].
    destruct degree as [d|]; [|congruence]. unfold playSynth. simpl.
    destruct (getFreq_defined e d ((if i =? 0 then 0 else 1) + octaveShift)
                Hscale Hbase) as [f ->].
    apply returns_emit.
Qed.

Lemma playChord_returns (e : AudioEngine) (time : Q) (isBuilding : bool)
    (octaveShift : Z) (sequence : list Z) (root : Z) :
  scale e <> [] -> (0 <= baseNoteFrequency (params e))%Q ->
  currentChordSequence e = Some sequence ->
  js_index sequence (Z.rem (globalBar e) 4) = Some root ->
  returns (playChord e time isBuilding octaveShift).
Proof.
  intros Hscale Hbase Hseq Hroot. unfold playChord, chordRoot.
  rewrite Hseq, Hroot. unfold bind at 1. simpl.
  apply chordVoices_returns; auto.
  destruct (Qltb _ _); repeat constructor; discriminate.
Qed.

Lemma In_emitted_first {A B : Type} (m : Fx A) (k : A -> Fx B) (f : Effect) :
  In f (emitted m) -> In f (emitted (bind m k)).
Proof.
  unfold bind. intros Hin.
  destruct (returned m); simpl; [apply in_or_app; now left | exact Hin].
Qed.

Lemma In_emitted_then {B : Type} (m : Fx unit) (k : Fx B) (f : Effect) :
  returns m -> In f (emitted k) -> In f (emitted (bind m (fun _ => k))).
Proof.
  intros Hm Hin. rewrite emitted_seq by exact Hm. apply in_or_app. now right.
Qed.

Lemma In_startedVoices (v : Voice) (fs : list Effect) :
  In v (startedVoices fs) <-> In (Start v) fs.
Proof.
  unfold startedVoices. rewrite in_flat_map. split.
  - intros ([w|cb d] & Hin & Hv); simpl in Hv; [|contradiction].
    destruct Hv as [->|[]]. exact Hin.
  - intros Hin. exists (Start v). split; [exact Hin | now left].
Qed.

(** The bass of a step whose slot holds 0, outside a fist and a breakdown:
    one voice, at the frequency of the chord root. *)
Lemma bassline_root_slot (e : AudioEngine) (beat : Z) (time : Q)
    (sequence : list Z) (root : Z) (f : R) :
  js_index (bassPattern e) beat = Some (Some 0) ->
  isFist (currentGestures e) = false -> isBreakdown e = false ->
  currentChordSequence e = Some sequence ->
  js_index sequence (Z.rem (globalBar e) 4) = Some root ->
  getFreq e root 0 = Some f ->
  emitted (bassline e beat time (isFist (currentGestures e)) (isBreakdown e))
  = [Start (Bass time f)].
Proof.
  intros Hslot -> -> Hseq Hroot Hf. unfold bassline, chordRoot.
  rewrite Hslot, Hseq. unfold bind. simpl. rewrite Hroot. simpl.
  now rewrite Hf.
Qed.

Lemma noteEffects_root_slot (e : AudioEngine) (now : Q) (beat : Z) (time : Q)
    (sequence : list Z) (root : Z) :
  js_index (bassPattern e) beat = Some (Some 0) ->
  isFist (currentGestures e) = false -> isBreakdown e = false ->
  currentChordSequence e = Some sequence ->
  js_index sequence (Z.rem (globalBar e) 4) = Some root ->
  scale e <> [] -> (0 < baseNoteFrequency (params e))%Q ->
  exists f,
    getFreq e root 0 = Some f
    /\ In (Bass time f) (startedVoices (emitted (noteEffects e now beat time))).
Proof.
  intros Hslot Hfist Hbreak Hseq Hroot Hscale Hbase.
  assert (0 <= baseNoteFrequency (params e))%Q as Hbase' by now apply Qlt_le_weak.
  destruct (getFreq_defined e root 0 Hscale Hbase') as [f Hf].
  pose proof (bassline_root_slot e beat time sequence root f
                Hslot Hfist Hbreak Hseq Hroot Hf) as Hbass.
  exists f. split; [exact Hf|]. unfold noteEffects.
  apply In_startedVoices.
  apply In_emitted_then; [apply uiSync_returns|].
  apply In_emitted_then; [apply rhythmSection_returns|].
  apply In_emitted_then.
  { destruct (beat =? 0); [eapply playChord_returns; eauto | apply returns_ret]. }
  apply In_emitted_first. rewrite Hbass. now left.
Qed.

(** The bass voices that [scheduleNote] starts at a step whose slot is
    empty or holds 0. *)
Lemma scheduleNote_bass_voices (e : AudioEngine) (c : AudioContext)
    (beat : Z) (time : Q) :
  ctx e = Some c ->
  (forall slot, js_index (bassPattern e) beat = Some slot -> rootOrEmpty slot) ->
  exists e',
    endsIn (scheduleNote e beat time) e'
    /\ ctx e' = Some (mkCtx (currentTime c) (state c) (resumeCalls c)
                            (voices c
                             ++ startedVoices
                                  (emitted (noteEffects e (currentTime c) beat time))))
    /\ forall t f,
         In (Bass t f)
            (startedVoices (emitted (noteEffects e (currentTime c) beat time))) ->
         t = time
         /\ exists sequence,
              currentChordSequence e = Some sequence
              /\ getFreqOf e (js_index sequence (Z.rem (globalBar e) 4)) 0
                 = Some f.
Proof.
  intros Hctx Hslots.
  destruct (scheduleNote_voices e c beat time Hctx) as (e' & Hnote & Hctx').
  exists e'. split; [exact Hnote|]. split; [exact Hctx'|].
  intros t f Hin.
  pose proof (noteEffects_voices e (currentTime c) beat time Hslots) as Hall.
  unfold emits in Hall. rewrite Forall_forall in Hall.
  destruct (Hall _ Hin) as [Hnot | (sequence & f' & Hseq & Hf & Heq)];
    [destruct Hnot|].
  injection Heq as -> ->. split; [reflexivity|]. now exists sequence.
Qed.

(** ** The composition is fixed at construction *)

Lemma init_composition (e e' : AudioEngine) :
  endsIn (init e) e' -> composition e' = composition e.
Proof.
  unfold init, buildImpulseResponse. intros H.
  destruct (ctx e); [|destruct (AudioContextClass (window e))];
    ends H; reflexivity.
Qed.

Lemma updateControlParams_composition (g : HandGestures) (e e' : AudioEngine) :
  endsIn (updateControlParams g e) e' -> composition e' = composition e.
Proof.
  unfold updateControlParams, gestureModes. intros H.
  destruct (ctx e) as [c|]; [|ends H; reflexivity].
  destruct (filterNode e) as [f|]; [|ends H; reflexivity].
  destruct (distortionNode e) as [d|]; [|ends H; reflexivity].
  destruct (negb (isVisible g)); [ends H; reflexivity|].
  simpl in H.
  destruct (masterGain e); [destruct (isPinching g)|]; ends H; reflexivity.
Qed.

Lemma applyEffects_composition (fs : list Effect) :
  forall e, composition (applyEffects e fs) = composition e.
Proof.
  unfold applyEffects.
  induction fs as [|f rest IH]; intros e; simpl; [reflexivity|].
  rewrite IH. destruct f; simpl; [destruct (ctx e)|]; reflexivity.
Qed.

Lemma scheduleNote_composition (e e' : AudioEngine) (beat : Z) (time : Q) :
  endsIn (scheduleNote e beat time) e' -> composition e' = composition e.
Proof.
  unfold scheduleNote. intros H.
  destruct (ctx e) as [c|]; [|ends H; reflexivity].
  destruct (returned _); ends H; apply applyEffects_composition.
Qed.

Lemma nextNote_composition (e : AudioEngine) :
  composition (nextNote e) = composition e.
Proof.
  unfold nextNote. simpl. destruct (current16thNote e + 1 =? 16); reflexivity.
Qed.

Lemma schedulerLoop_composition (fuel : nat) (now : Q) :
  forall e e',
    endsIn (schedulerLoop fuel now e) e' -> composition e' = composition e.
Proof.
  induction fuel as [|k IH]; intros e e' H; simpl in H;
    destruct (Qltb _ _); try (ends H; reflexivity).
  destruct (scheduleNote e (current16thNote e) (nextNoteTime e))
    as [e1|e1|] eqn:Hnote.
  - apply IH in H. rewrite H, nextNote_composition.
    eapply scheduleNote_composition. left. exact Hnote.
  - ends H. eapply scheduleNote_composition. right. exact Hnote.
  - ends H.
Qed.

Lemma scheduler_composition (fuel : nat) (e e' : AudioEngine) :
  endsIn (scheduler fuel e) e' -> composition e' = composition e.
Proof.
  unfold scheduler. intros H.
  destruct (ctx e) as [c|]; [|ends H; reflexivity].
  destruct (negb (isPlaying e)); [ends H; reflexivity|].
  destruct (schedulerLoop fuel (currentTime c) e) as [e1|e1|] eqn:Hloop.
  - ends H. change (composition e1 = composition e).
    eapply schedulerLoop_composition. left. exact Hloop.
  - ends H. eapply schedulerLoop_composition. right. exact Hloop.
  - ends H.
Qed.

Lemma start_composition (fuel : nat) (e e' : AudioEngine) :
  endsIn (start fuel e) e' -> composition e' = composition e.
Proof.
  unfold start. intros H.
  destruct (init e) as [e1|e1|] eqn:Hinit.
  - assert (composition e1 = composition e) as <-
      by (eapply init_composition; left; exact Hinit).
    unfold resumeIfSuspended in H.
    destruct (ctx e1) as [c|] eqn:Hctx; [destruct (state c)|];
      simpl in H; rewrite ?Hctx in H;
      try (apply scheduler_composition in H; exact H).
    ends H. reflexivity.
  - ends H. eapply init_composition. right. exact Hinit.
  - ends H.
Qed.

Lemma perform_composition (fuel : nat) (ev : Event) (e e' : AudioEngine) :
  endsIn (perform fuel ev e) e' -> composition e' = composition e.
Proof.
  intros H. destruct ev; simpl in H.
  - ends H. reflexivity.
  - now apply init_composition.
  - eapply start_composition; eauto.
  - ends H. reflexivity.
  - eapply updateControlParams_composition; eauto.
  - ends H. unfold clockAdvances. destruct (ctx e); reflexivity.
  - unfold timeoutFires in H. destruct (existsb _ _); [|ends H; reflexivity].
    apply scheduler_composition in H. exact H.
Qed.

Lemma session_composition (fuel : nat) (evs : list Event) :
  forall e e', endsIn (session fuel evs e) e' -> composition e' = composition e.
Proof.
  induction evs as [|ev rest IH]; intros e e' H; simpl in H.
  - ends H. reflexivity.
  - destruct (perform fuel ev e) as [e1|e1|] eqn:Hperf.
    + apply IH in H. rewrite H. eapply perform_composition. left. exact Hperf.
    + apply IH in H. rewrite H. eapply perform_composition. right. exact Hperf.
    + ends H.
Qed.

Lemma session_bassPattern (fuel : nat) (evs : list Event) (e e' : AudioEngine) :
  endsIn (session fuel evs e) e' -> bassPattern e' = bassPattern e.
Proof.
  intros H. apply session_composition in H. unfold composition in H.
  congruence.
Qed.

(** ** Sample sessions *)

Lemma Done_outcomeEngine (o : Outcome) (dflt : AudioEngine) :
  match o with Done _ => true | _ => false end = true ->
  o = Done (outcomeEngine o dflt).
Proof. now destruct o. Qed.

(** * The claims *)

(** ** C1: start while running *)

(** C1, as amended.  [start ()] does not consult the running flag: for every
    engine, stopped or already running, whose audio context exists or can
    be made, it returns with the engine running and with the 16th-note step
    counter and the global bar counter at zero. *)
Theorem start_resets_transport (fuel : nat) (e : AudioEngine) :
  ctx e <> None \/ AudioContextClass (window e) <> None ->
  (scheduleAheadTime e <= lit 1 10)%Q ->
  exists e',
    start fuel e = Done e' /\ isPlaying e' = true
    /\ current16thNote e' = 0 /\ globalBar e' = 0.
Proof.
  intros Havail Hahead.
  destruct (start_Done fuel e Havail Hahead) as (e' & H1 & H2 & H3 & H4 & _).
  now exists e'.
Qed.

Lemma runningEngine_ctx : ctx runningEngine <> None.
Proof.
  intros H. apply (f_equal isSome) in H. vm_compute in H. discriminate H.
Defined.

Lemma start_resets_transport_witness :
  exists e',
    start 100 runningEngine = Done e' /\ isPlaying e' = true
    /\ current16thNote e' = 0 /\ globalBar e' = 0.
Proof.
  apply (start_resets_transport 100 runningEngine).
  - left. exact runningEngine_ctx.
  - apply Qle_refl.
Defined.

(** C1, the claim as stated, fails.  The sample engine is running, in step
    2 of bar 1; a second [start ()] returns with both counters back at
    zero. *)
Lemma start_while_running_resets_counters :
  isPlaying runningEngine = true
  /\ current16thNote runningEngine = 2 /\ globalBar runningEngine = 1
  /\ exists e',
       start 100 runningEngine = Done e'
       /\ current16thNote e' <> current16thNote runningEngine
       /\ globalBar e' <> globalBar runningEngine.
Proof.
  assert (current16thNote runningEngine = 2) as Hstep by reflexivity.
  assert (globalBar runningEngine = 1) as Hbar by reflexivity.
  repeat split; try reflexivity.
  destruct (start_Done 100 runningEngine) as (e' & H1 & _ & H3 & H4 & _).
  - left. exact runningEngine_ctx.
  - apply Qle_refl.
  - exists e'. split; [exact H1|]. split; congruence.
Qed.

(** ** C2: gesture updates that are not visible *)

Lemma updateControlParams_hidden (g : HandGestures) (e : AudioEngine) :
  isVisible g = false ->
  updateControlParams g e
  = Done (if graphBuilt e then set_currentGestures g e else e).
Proof.
  intros Hvis. unfold updateControlParams, graphBuilt. rewrite Hvis.
  destruct (ctx e), (filterNode e), (distortionNode e); reflexivity.
Qed.

(** C2, as amended.  A gesture update whose visible flag is false never
    throws and pushes no parameter: the context and every node of the
    graph, the filter with its cutoff and resonance among them, are as
    before.  Once the graph is built the update is stored as the gesture
    snapshot as it was given, with its own fist and pinch flags; before
    that the snapshot is kept too. *)
Theorem hidden_gesture_pushes_nothing (g : HandGestures) (e : AudioEngine) :
  isVisible g = false ->
  exists e',
    updateControlParams g e = Done e'
    /\ ctx e' = ctx e /\ filterNode e' = filterNode e
    /\ masterGain e' = masterGain e /\ reverbGain e' = reverbGain e
    /\ delayFeedback e' = delayFeedback e /\ delayNode e' = delayNode e
    /\ distortionNode e' = distortionNode e
    /\ currentGestures e' = (if graphBuilt e then g else currentGestures e).
Proof.
  intros Hvis. rewrite (updateControlParams_hidden g e Hvis).
  eexists. split; [reflexivity|].
  destruct (graphBuilt e); repeat split.
Qed.

Lemma hidden_gesture_pushes_nothing_witness :
  exists e',
    updateControlParams hiddenFist startedEngine = Done e'
    /\ ctx e' = ctx startedEngine /\ filterNode e' = filterNode startedEngine
    /\ masterGain e' = masterGain startedEngine
    /\ reverbGain e' = reverbGain startedEngine
    /\ delayFeedback e' = delayFeedback startedEngine
    /\ delayNode e' = delayNode startedEngine
    /\ distortionNode e' = distortionNode startedEngine
    /\ currentGestures e'
       = (if graphBuilt startedEngine then hiddenFist
          else currentGestures startedEngine).
Proof.
  apply (hidden_gesture_pushes_nothing hiddenFist startedEngine).
  reflexivity.
Defined.

(** C2, the claim as stated, fails.  On the started sample engine the
    update [hiddenFist] is not visible, yet it becomes the stored snapshot
    with its fist flag set, and the next note decision changes: step 0
    starts a kick before the update and none after it. *)
Lemma hidden_fist_silences_kick :
  isVisible hiddenFist = false
  /\ exists e',
       updateControlParams hiddenFist startedEngine = Done e'
       /\ isFist (currentGestures startedEngine) = false
       /\ isFist (currentGestures e') = true
       /\ kicksOfStep startedEngine 0 (lit 1 10) = 1%nat
       /\ kicksOfStep e' 0 (lit 1 10) = 0%nat.
Proof.
  split; [reflexivity|].
  exists (set_currentGestures hiddenFist startedEngine).
  split; [|repeat split; vm_compute; reflexivity].
  rewrite updateControlParams_hidden by reflexivity.
  assert (graphBuilt startedEngine = true) as -> by (vm_compute; reflexivity).
  reflexivity.
Qed.

(** ** C3: the composition is well formed *)

(** C3.  For all parameters, every host and every random source, the
    constructor (a total function: nothing in [generateComposition] can
    throw) leaves two sections, a form whose entries are all indices into
    the sections, a melody and a bass pattern of 16 slots each, and a scale
    of between 5 and 7 entries. *)
Theorem composition_well_formed (w : Window) (p : SonicParameters) (r : Rng) :
  let e := newAudioEngine w p r in
  length (sections e) = 2%nat
  /\ Forall (fun i => 0 <= i < Z.of_nat (length (sections e))) (form e)
  /\ length (melodyPattern e) = 16%nat
  /\ length (bassPattern e) = 16%nat
  /\ (5 <= length (scale e) <= 7)%nat.
Proof.
  unfold newAudioEngine. set (e0 := fieldInitialisers w p).
  destruct (generateComposition_sections e0 r) as (progA & progB & Hsec).
  simpl. rewrite Hsec. split; [reflexivity|]. split; [|split; [|split]].
  - rewrite generateComposition_form. unfold selectForm. simpl.
    destruct (Qltb _ _); [|destruct (Qltb _ _)];
      repeat constructor; lia.
  - apply generateComposition_melodyPattern.
  - apply generateComposition_bassPattern.
  - rewrite generateComposition_scale. simpl.
    destruct (style p); simpl; lia.
Qed.

(** ** C4: intensity *)

(** Where the intensity does follow the bar.  In the first run of an
    engine, from its construction through the first [start ()] and on until
    [start ()] is called again, intensity equals min(1, bar/64) of the
    global bar counter in every state.  Every call of [nextNote] that crosses a bar boundary recomputes
    it so from the new bar count.  As a function of the bar count this is
    non-decreasing, 0 at bar 0, and exactly 1 from bar 64 on, at bar 128 for
    one. *)
Theorem intensity_follows_bar_in_first_run :
  (forall fuel w p r before after e',
      noStart before = true -> noStart after = true ->
      session fuel (before ++ CallStart :: after) (newAudioEngine w p r)
      = Done e' ->
      (intensity e' == Qmin 1 (inject_Z (globalBar e') / 64))%Q)
  /\ (forall e,
        current16thNote e = 15 ->
        globalBar (nextNote e) = globalBar e + 1
        /\ intensity (nextNote e) = Qmin 1 (inject_Z (globalBar e + 1) / 64))
  /\ (forall b1 b2, b1 <= b2 -> (intensityAt b1 <= intensityAt b2)%Q)
  /\ (intensityAt 0 == 0)%Q
  /\ (forall b, 64 <= b -> (intensityAt b == 1)%Q)
  /\ (intensityAt 128 == 1)%Q.
Proof.
  split; [|split; [|split; [|split; [|split]]]].
  - intros fuel w p r before after e' Hbefore Hafter Hends.
    exact (first_run_intensityTracksBar fuel before after
             (newAudioEngine w p r) e' (newAudioEngine_notStarted w p r)
             Hbefore Hafter (or_introl Hends)).
  - intros e Hstep. unfold nextNote. simpl. rewrite Hstep. simpl. now split.
  - apply intensityAt_mono.
  - apply intensityAt_0.
  - apply intensityAt_saturates.
  - reflexivity.
Qed.

Lemma intensity_follows_bar_in_first_run_witness :
  (intensity runningEngine
   == Qmin 1 (inject_Z (globalBar runningEngine) / 64))%Q.
Proof.
  apply (proj1 intensity_follows_bar_in_first_run
           100%nat sampleWindow fallbackParams zeroRng
           [] [ClockAdvances 2; TimeoutFires 0%nat] runningEngine).
  - reflexivity.
  - reflexivity.
  - apply Done_outcomeEngine. vm_compute. reflexivity.
Defined.

(** C4.  The code misses the claim at a restart.  The constructor leaves
    bar 0 with intensity 0 and [nextNote] recomputes the intensity from
    the bar at every bar boundary, but [start ()] resets the bar counter
    and leaves the intensity: the sample engine, stopped in bar 1 and
    started again, is running at bar 0 with the intensity 1/64 of bar 1,
    where the claim has min(1, 0/64) = 0. *)
Lemma intensity_stale_after_restart :
  isPlaying restartedEngine = true
  /\ globalBar restartedEngine = 0
  /\ ~ (intensity restartedEngine
        == Qmin 1 (inject_Z (globalBar restartedEngine) / 64))%Q
  /\ ~ (intensity restartedEngine == 0)%Q.
Proof.
  assert (intensity restartedEngine = lit 1 64) as Hint by reflexivity.
  assert (globalBar restartedEngine = 0) as Hbar by reflexivity.
  split; [reflexivity|]. split; [exact Hbar|].
  rewrite Hint, Hbar. split; intros H; vm_compute in H; discriminate H.
Qed.

(** ** C5: the active section *)

(** The section of bar [bar] under the 8-step form is the entry for the
    4-bar segment that [bar mod 32] falls in. *)
Lemma activeSectionAt_form8_segment (bar : Z) :
  0 <= bar ->
  exists s,
    0 <= s < 8 /\ activeSectionAt form8 bar = js_index form8 s
    /\ 4 * s <= bar mod 32 < 4 * s + 4.
Proof.
  intros Hbar. exists ((bar / 4) mod 8).
  unfold activeSectionAt. change (Z.of_nat (length form8)) with 8.
  rewrite Z.rem_mod_nonneg by (try apply Z.div_pos; lia).
  repeat split; try reflexivity; Z.div_mod_to_equations; lia.
Qed.

Lemma activeSectionAt_form8 (bar : Z) :
  0 <= bar ->
  (activeSectionAt form8 bar = Some 1
   <-> 8 <= bar mod 32 < 12 \/ 20 <= bar mod 32 < 28)
  /\ (activeSectionAt form8 bar = Some 0
      <-> ~ (8 <= bar mod 32 < 12 \/ 20 <= bar mod 32 < 28)).
Proof.
  intros Hbar.
  destruct (activeSectionAt_form8_segment bar Hbar) as (s & Hs & -> & Hseg).
  assert (s = 0 \/ s = 1 \/ s = 2 \/ s = 3 \/ s = 4 \/ s = 5 \/ s = 6 \/ s = 7)
    as Hcases by lia.
  repeat (destruct Hcases as [-> | Hcases]); try subst s;
    simpl; (split; split; intros H; try discriminate H; try lia;
            try reflexivity).
Qed.

(** C5, as amended.  On every bar boundary, and only there, [nextNote]
    recomputes the active-section index as form[floor(bar/4) mod
    form.length] of the new bar count.  A complexity above 0.6, such as
    0.8, gives the 8-entry form [0,0,1,0,0,1,1,0]; under it section B is
    active during bars 8-11 and 20-27 of each 32-bar cycle, and the active
    section changes from A to B exactly at the boundaries into bars 8 and
    20: the B segment that begins at bar 24 continues the B of bars
    20-23. *)
Theorem active_section_follows_form :
  (forall e,
      current16thNote e = 15 ->
      globalBar (nextNote e) = globalBar e + 1
      /\ activeSectionIdx (nextNote e)
         = js_index (form e)
             (Z.rem ((globalBar e + 1) / 4) (Z.of_nat (length (form e)))))
  /\ (forall e,
        current16thNote e <> 15 ->
        globalBar (nextNote e) = globalBar e
        /\ activeSectionIdx (nextNote e) = activeSectionIdx e)
  /\ (forall w p r,
        (lit 6 10 < complexity p)%Q -> form (newAudioEngine w p r) = form8)
  /\ (forall e,
        form e = form8 -> current16thNote e = 15 -> 0 <= globalBar e ->
        activeSectionIdx e = activeSectionAt (form e) (globalBar e) ->
        let bar := globalBar (nextNote e) in
        (activeSectionIdx (nextNote e) = Some 1
         <-> 8 <= bar mod 32 < 12 \/ 20 <= bar mod 32 < 28)
        /\ (activeSectionIdx e = Some 0 /\ activeSectionIdx (nextNote e) = Some 1
            <-> bar mod 32 = 8 \/ bar mod 32 = 20)).
Proof.
  split; [|split; [|split]].
  - intros e Hstep. unfold nextNote. simpl. rewrite Hstep. simpl. now split.
  - intros e Hstep. unfold nextNote. simpl.
    destruct (Z.eqb_spec (current16thNote e + 1) 16) as [Heq|_]; [lia|].
    now split.
  - intros w p r Hc. unfold newAudioEngine.
    rewrite generateComposition_form. simpl. unfold selectForm.
    apply Qltb_lt in Hc as Hc'. rewrite Hc'.
    destruct (Qltb (complexity p) (lit 3 10)) eqn:Hlow; [|reflexivity].
    apply Qltb_lt in Hlow.
    exfalso. apply (Qlt_irrefl (lit 3 10)).
    apply Qlt_trans with (complexity p); [|exact Hlow].
    apply Qlt_trans with (lit 6 10); [reflexivity | exact Hc].
  - intros e Hform Hstep Hbar Hidx bar.
    assert (bar = globalBar e + 1) as Hnext
      by (unfold bar, nextNote; simpl; rewrite Hstep; reflexivity).
    assert (activeSectionIdx (nextNote e) = activeSectionAt form8 bar) as ->.
    { rewrite Hnext, <- Hform. unfold nextNote. simpl. rewrite Hstep.
      reflexivity. }
    rewrite Hidx, Hform.
    destruct (activeSectionAt_form8 bar ltac:(lia)) as [HB _].
    destruct (activeSectionAt_form8 (globalBar e) Hbar) as [_ HA].
    split; [exact HB|]. rewrite HB, HA.
    replace (globalBar e) with (bar - 1) by lia.
    clear. Z.div_mod_to_equations. lia.
Qed.

Lemma active_section_follows_form_witness :
  let bar := globalBar (nextNote endOfBar7) in
  (activeSectionIdx (nextNote endOfBar7) = Some 1
   <-> 8 <= bar mod 32 < 12 \/ 20 <= bar mod 32 < 28)
  /\ (activeSectionIdx endOfBar7 = Some 0
      /\ activeSectionIdx (nextNote endOfBar7) = Some 1
      <-> bar mod 32 = 8 \/ bar mod 32 = 20).
Proof.
  apply (proj2 (proj2 (proj2 active_section_follows_form)) endOfBar7).
  - lazy. reflexivity.
  - lazy. reflexivity.
  - lazy. discriminate.
  - lazy. reflexivity.
Defined.

(** C5, the claim as stated, fails.  In the first run of the sample engine
    of complexity 0.8 section B is already active in bar 23, so that it
    does not become active at bar 24; and it is active in bar 9, which is
    none of the bars 8, 20 and 24. *)
Lemma section_B_spans_bars :
  form complexEngine = [0; 0; 1; 0; 0; 1; 1; 0]
  /\ (globalBar (atBar 23 complexEngine) = 23
      /\ activeSectionIdx (atBar 23 complexEngine) = Some 1)
  /\ (globalBar (atBar 24 complexEngine) = 24
      /\ activeSectionIdx (atBar 24 complexEngine) = Some 1)
  /\ (globalBar (atBar 9 complexEngine) = 9
      /\ activeSectionIdx (atBar 9 complexEngine) = Some 1).
Proof. lazy. repeat split. Qed.

(** ** C6: the bass follows the chord root *)

(** C6.  At every step whose bass slot holds the value 0, every bass voice
    that [scheduleNote] starts is at the time of the step and has the
    frequency that [getFreq] gives the root of the current chord,
    [currentChordSequence[globalBar % 4]], whatever that degree is.
    Outside a fist and a breakdown, which silence the bass, and with the
    chord, scale and base frequency in place, that voice is started. *)
Theorem bass_follows_chord_root (e : AudioEngine) (c : AudioContext)
    (beat : Z) (time : Q) :
  ctx e = Some c ->
  js_index (bassPattern e) beat = Some (Some 0) ->
  exists e' c' new,
    endsIn (scheduleNote e beat time) e'
    /\ ctx e' = Some c' /\ voices c' = voices c ++ new
    /\ (forall t f,
          In (Bass t f) new ->
          t = time
          /\ exists sequence,
               currentChordSequence e = Some sequence
               /\ getFreqOf e (js_index sequence (Z.rem (globalBar e) 4)) 0
                  = Some f)
    /\ (forall sequence root,
          isFist (currentGestures e) = false -> isBreakdown e = false ->
          currentChordSequence e = Some sequence ->
          js_index sequence (Z.rem (globalBar e) 4) = Some root ->
          scale e <> [] -> (0 < baseNoteFrequency (params e))%Q ->
          exists f, getFreq e root 0 = Some f /\ In (Bass time f) new).
Proof.
  intros Hctx Hslot.
  destruct (scheduleNote_bass_voices e c beat time Hctx)
    as (e' & Hends & Hctx' & Honly).
  { intros slot Hs. rewrite Hslot in Hs. injection Hs as <-. now right. }
  exists e'. eexists. exists (startedVoices
                                (emitted (noteEffects e (currentTime c) beat time))).
  split; [exact Hends|]. split; [exact Hctx'|]. split; [reflexivity|].
  split; [exact Honly|].
  intros sequence root Hfist Hbreak Hseq Hroot Hscale Hbase.
  now apply (noteEffects_root_slot e (currentTime c) beat time sequence root).
Qed.

Lemma houseEngine_ctx : exists c, ctx houseEngine = Some c.
Proof.
  destruct (ctx houseEngine) as [c|] eqn:Hctx; [now exists c|].
  apply (f_equal isSome) in Hctx. vm_compute in Hctx. discriminate Hctx.
Defined.

(** In bar 1 of the house engine the chord root is the degree 3, and the
    bass of step 0 sounds it. *)
Lemma bass_follows_chord_root_witness :
  exists c e' c' new f,
    ctx houseEngine = Some c
    /\ endsIn (scheduleNote houseEngine 0 (lit 2 1)) e'
    /\ ctx e' = Some c' /\ voices c' = voices c ++ new
    /\ getFreq houseEngine 3 0 = Some f /\ In (Bass (lit 2 1) f) new.
Proof.
  destruct houseEngine_ctx as [c Hctx]. exists c.
  destruct (bass_follows_chord_root houseEngine c 0 (lit 2 1))
    as (e' & c' & new & Hends & Hctx' & Hvoices & _ & Hstarted).
  - exact Hctx.
  - vm_compute. reflexivity.
  - destruct (Hstarted [0; 3; 5; 3] 3) as (f & Hf & Hin).
    + vm_compute. reflexivity.
    + vm_compute. reflexivity.
    + vm_compute. reflexivity.
    + vm_compute. reflexivity.
    + vm_compute. discriminate.
    + vm_compute. reflexivity.
    + exists e', c', new, f. repeat split; assumption.
Defined.

(** ** C7: frequency resolution *)

(** C7.  For every integer scale degree, negative or beyond one octave, and
    every scale of 5 to 7 entries, the index [((d % len) + len) % len] that
    [getFreq] computes is the mathematical [d mod len] and lies inside the
    scale; and for a positive base frequency the frequency returned is the
    base frequency times 2 to the power semitones/12, the equal-tempered
    conversion of semitones = scale[d mod len] + 12 floor(d/len), plus 12
    for each octave of the offset. *)
Theorem getFreq_equal_tempered (e : AudioEngine) (d octaveOffset : Z) :
  (5 <= length (scale e) <= 7)%nat ->
  (0 < baseNoteFrequency (params e))%Q ->
  let len := Z.of_nat (length (scale e)) in
  0 <= normDegree len d < len
  /\ normDegree len d = d mod len
  /\ exists s,
       js_index (scale e) (d mod len) = Some s
       /\ getFreq e d octaveOffset
          = Some (Q2R (baseNoteFrequency (params e))
                  * Rpower 2 (IZR (s + 12 * (d / len) + 12 * octaveOffset) / 12))%R.
Proof.
  intros Hlen Hbase len.
  assert (0 < len) as Hpos by (unfold len; lia).
  pose proof (normDegree_bounds len d Hpos) as Hbounds.
  pose proof (normDegree_mod len d Hpos) as Hmod.
  split; [exact Hbounds|]. split; [exact Hmod|].
  destruct (js_index_Some (scale e) (normDegree len d) Hbounds) as [s Hs].
  exists s. split; [now rewrite <- Hmod|].
  unfold getFreq. fold len. rewrite Hs.
  rewrite semitonesToFreq_positive by exact Hbase.
  replace (s + d / len * 12 + octaveOffset * 12)
    with (s + 12 * (d / len) + 12 * octaveOffset) by lia.
  reflexivity.
Qed.

(** The degree -3 of the sample engine: index 4 of the phrygian scale, one
    octave down. *)
Lemma getFreq_equal_tempered_witness :
  0 <= normDegree 7 (-3) < 7
  /\ normDegree 7 (-3) = (-3) mod 7
  /\ exists s,
       js_index (scale sampleEngine) ((-3) mod 7) = Some s
       /\ getFreq sampleEngine (-3) 0
          = Some (Q2R 55 * Rpower 2 (IZR (s + 12 * (-3 / 7) + 12 * 0) / 12))%R.
Proof.
  apply (getFreq_equal_tempered sampleEngine (-3) 0).
  - assert (length (scale sampleEngine) = 7%nat) as -> by reflexivity. lia.
  - reflexivity.
Defined.

(** ** C8: the form of a complexity *)

Lemma selectForm_tiers (c : Q) :
  ((c < lit 3 10)%Q -> selectForm c = [0; 0; 0; 0])
  /\ ((lit 6 10 < c)%Q -> selectForm c = [0; 0; 1; 0; 0; 1; 1; 0])
  /\ ((lit 3 10 <= c)%Q /\ (c <= lit 6 10)%Q -> selectForm c = [0; 0; 1; 0]).
Proof.
  unfold selectForm. repeat split.
  - intros Hlow. apply Qltb_lt in Hlow. now rewrite Hlow.
  - intros Hhigh.
    assert (Qltb c (lit 3 10) = false) as ->.
    { apply Qltb_ge. apply Qlt_le_weak.
      apply Qlt_trans with (lit 6 10); [reflexivity | exact Hhigh]. }
    apply Qltb_lt in Hhigh. now rewrite Hhigh.
  - intros [Hlo Hhi]. apply Qltb_ge in Hlo, Hhi. now rewrite Hlo, Hhi.
Qed.

Lemma selectForm_Qeq (c c' : Q) : (c == c')%Q -> selectForm c = selectForm c'.
Proof.
  intros Heq. unfold selectForm, Qltb.
  assert (forall a, Qle_bool a c = Qle_bool a c') as H1.
  { intros a. apply eq_true_iff_eq. rewrite !Qle_bool_iff. now rewrite Heq. }
  assert (forall a, Qle_bool c a = Qle_bool c' a) as H2.
  { intros a. apply eq_true_iff_eq. rewrite !Qle_bool_iff. now rewrite Heq. }
  now rewrite H1, H2.
Qed.

(** C8.  The form is a function of the complexity alone, with the hard
    thresholds 0.3 and 0.6: a complexity below 0.3 gives [0,0,0,0], one
    above 0.6 gives [0,0,1,0,0,1,1,0], and every other one, 0.3 and 0.6
    themselves among them, gives [0,0,1,0]. *)
Theorem form_by_complexity_tier (w : Window) (p : SonicParameters) (r : Rng) :
  let c := complexity p in
  let frm := form (newAudioEngine w p r) in
  ((c < lit 3 10)%Q -> frm = [0; 0; 0; 0])
  /\ ((lit 6 10 < c)%Q -> frm = [0; 0; 1; 0; 0; 1; 1; 0])
  /\ ((lit 3 10 <= c)%Q /\ (c <= lit 6 10)%Q -> frm = [0; 0; 1; 0])
  /\ forall w' p' r',
       (complexity p' == c)%Q -> form (newAudioEngine w' p' r') = frm.
Proof.
  intros c frm.
  assert (forall w1 p1 r1,
            form (newAudioEngine w1 p1 r1) = selectForm (complexity p1)) as Hform
    by (intros; unfold newAudioEngine; now rewrite generateComposition_form).
  unfold frm. rewrite Hform.
  destruct (selectForm_tiers c) as (H1 & H2 & H3).
  repeat split; auto.
  intros w' p' r' Heq. rewrite Hform. now apply selectForm_Qeq.
Qed.

(** The two thresholds themselves fall into the middle tier. *)
Lemma form_by_complexity_tier_witness :
  form (newAudioEngine sampleWindow (paramsOfComplexity (lit 3 10)) zeroRng)
  = [0; 0; 1; 0]
  /\ form (newAudioEngine sampleWindow (paramsOfComplexity (lit 6 10)) zeroRng)
     = [0; 0; 1; 0].
Proof.
  split.
  - apply (form_by_complexity_tier sampleWindow (paramsOfComplexity (lit 3 10))
             zeroRng).
    split; discriminate.
  - apply (form_by_complexity_tier sampleWindow (paramsOfComplexity (lit 6 10))
             zeroRng).
    split; discriminate.
Defined.

(** ** C9: before the graph is built *)

(** C9.  While the audio context is null, [scheduleNote] and
    [updateControlParams] return without throwing and leave the whole
    engine, the stored gesture snapshot included, as it was. *)
Theorem no_context_no_effect (e : AudioEngine) (g : HandGestures)
    (beat : Z) (time : Q) :
  ctx e = None ->
  scheduleNote e beat time = Done e /\ updateControlParams g e = Done e.
Proof.
  intros Hctx. unfold scheduleNote, updateControlParams. rewrite Hctx.
  now split.
Qed.

Lemma no_context_no_effect_witness :
  scheduleNote sampleEngine 0 (lit 1 10) = Done sampleEngine
  /\ updateControlParams hiddenFist sampleEngine = Done sampleEngine.
Proof.
  apply (no_context_no_effect sampleEngine hiddenFist 0 (lit 1 10)).
  reflexivity.
Defined.

(** ** C10: the bass pattern holds roots only *)

(** C10.  For all parameters and every random source, in every state an
    engine reaches after its construction, each slot of the bass pattern is
    empty or holds the value 0; and so every bass voice that
    [scheduleNote] starts is at the time of its step and sounds the root of
    the current chord. *)
Theorem bass_pattern_holds_roots (fuel : nat) (w : Window) (p : SonicParameters)
    (r : Rng) (evs : list Event) (e : AudioEngine) :
  session fuel evs (newAudioEngine w p r) = Done e ->
  Forall (fun slot => slot = None \/ slot = Some 0) (bassPattern e)
  /\ forall c beat time,
       ctx e = Some c ->
       exists e' c' new,
         endsIn (scheduleNote e beat time) e'
         /\ ctx e' = Some c' /\ voices c' = voices c ++ new
         /\ forall t f,
              In (Bass t f) new ->
              t = time
              /\ exists sequence,
                   currentChordSequence e = Some sequence
                   /\ getFreqOf e (js_index sequence (Z.rem (globalBar e) 4)) 0
                      = Some f.
Proof.
  intros Hends.
  assert (Forall rootOrEmpty (bassPattern e)) as Hslots.
  { rewrite (session_bassPattern _ _ _ _ (or_introl Hends)).
    unfold newAudioEngine.
    apply generateComposition_bassPattern. }
  split; [exact Hslots|]. intros c beat time Hctx.
  destruct (scheduleNote_bass_voices e c beat time Hctx)
    as (e' & Hnote & Hctx' & Honly).
  { intros slot Hslot. apply js_index_In in Hslot.
    rewrite Forall_forall in Hslots. now apply Hslots. }
  exists e'. eexists. exists (startedVoices
                                (emitted (noteEffects e (currentTime c) beat time))).
  split; [exact Hnote|]. split; [exact Hctx'|]. split; [reflexivity|].
  exact Honly.
Qed.

Lemma bass_pattern_holds_roots_witness :
  Forall (fun slot => slot = None \/ slot = Some 0) (bassPattern runningEngine)
  /\ forall c beat time,
       ctx runningEngine = Some c ->
       exists e' c' new,
         endsIn (scheduleNote runningEngine beat time) e'
         /\ ctx e' = Some c' /\ voices c' = voices c ++ new
         /\ forall t f,
              In (Bass t f) new ->
              t = time
              /\ exists sequence,
                   currentChordSequence runningEngine = Some sequence
                   /\ getFreqOf runningEngine
                        (js_index sequence (Z.rem (globalBar runningEngine) 4)) 0
                      = Some f.
Proof.
  apply (bass_pattern_holds_roots 100 sampleWindow fallbackParams zeroRng
           runningSession runningEngine).
  apply Done_outcomeEngine. vm_compute. reflexivity.
Defined.

(** * Further properties *)

(** ** The engine never throws while it plays *)

Lemma playableComposition_composition (e e' : AudioEngine) :
  composition e' = composition e -> playableComposition e -> playableComposition e'.
Proof.
  unfold composition, playableComposition. intros H.
  injection H as -> -> -> -> -> ->. trivial.
Qed.

Lemma selectScale_nonempty (s : MusicStyle) : selectScale s <> [].
Proof. destruct s; discriminate. Qed.

Lemma selectForm_entries (c : Q) :
  selectForm c <> [] /\ Forall (fun i => i = 0 \/ i = 1) (selectForm c).
Proof.
  unfold selectForm.
  destruct (Qltb _ _); [|destruct (Qltb _ _)];
    (split; [discriminate|]);
    repeat (apply Forall_cons; [first [now left | now right]|]);
    apply Forall_nil.
Qed.

Lemma newAudioEngine_params (w : Window) (p : SonicParameters) (r : Rng) :
  params (newAudioEngine w p r) = p.
Proof.
  unfold newAudioEngine, generateComposition.
  repeat match goal with
         | |- context [let (_, _) := ?m in _] => destruct m
         end.
  destruct (style_eqb _ _); reflexivity.
Qed.

Lemma newAudioEngine_playableComposition (w : Window) (p : SonicParameters)
    (r : Rng) :
  unit_draws r -> (0 <= baseNoteFrequency p)%Q ->
  playableComposition (newAudioEngine w p r).
Proof.
  intros Hdraws Hbase.
  destruct (sections_are_progressions w p r Hdraws)
    as (progA & progB & Hsec & _ & _ & _ & HlenA & HlenB).
  unfold playableComposition. rewrite newAudioEngine_params.
  unfold newAudioEngine at 1 3 4 5 6 7.
  rewrite generateComposition_scale, generateComposition_form.
  split; [apply selectScale_nonempty|]. split; [exact Hbase|].
  split; [now exists progA, progB|].
  destruct (selectForm_entries (complexity (params (fieldInitialisers w p))))
    as [Hne Hentries].
  split; [exact Hne|]. split; [exact Hentries|].
  split; [apply generateComposition_melodyPattern|].
  apply generateComposition_bassPattern.
Qed.

Lemma graphComplete_nodes (e e' : AudioEngine) :
  nodes e' = nodes e -> (ctx e' <> None -> ctx e <> None) ->
  graphComplete e -> graphComplete e'.
Proof.
  unfold nodes, graphComplete. intros H Hctx Hg Hc.
  injection H as -> -> -> -> -> -> -> ->. auto.
Qed.

Lemma transportInRange_transport (e e' : AudioEngine) :
  transport e' = transport e -> transportInRange e -> transportInRange e'.
Proof.
  unfold transport, transportInRange. intros H.
  injection H as -> -> _ _ -> _. trivial.
Qed.

Lemma activeSectionAt_entry (frm : list Z) (bar : Z) :
  frm <> [] -> 0 <= bar ->
  exists i, activeSectionAt frm bar = Some i /\ In i frm.
Proof.
  intros Hfrm Hbar. unfold activeSectionAt.
  assert (0 < Z.of_nat (length frm)) as Hlen
    by (destruct frm; [congruence | simpl; lia]).
  destruct (js_index_Some frm (Z.rem (bar / 4) (Z.of_nat (length frm))))
    as [i Hi].
  - apply Z.rem_bound_pos; [apply Z.div_pos; lia | exact Hlen].
  - exists i. split; [exact Hi | eapply js_index_In; exact Hi].
Qed.

Lemma nextNote_transportInRange (e : AudioEngine) :
  playableComposition e -> transportInRange e -> transportInRange (nextNote e).
Proof.
  intros (_ & _ & (progA & progB & Hsec & HlenA & HlenB) & Hform & Hentries & _)
         (Hbar & Hstep & sequence & Hseq & Hlen).
  unfold transportInRange, nextNote. simpl.
  destruct (Z.eqb_spec (current16thNote e + 1) 16) as [Hwrap|Hnowrap]; simpl.
  - split; [lia|]. split; [lia|].
    destruct (activeSectionAt_entry (form e) (globalBar e + 1) Hform ltac:(lia))
      as (i & -> & Hin).
    rewrite Forall_forall in Hentries. rewrite Hsec.
    destruct (Hentries i Hin) as [-> | ->]; simpl; eauto.
  - split; [exact Hbar|]. split; [lia|]. eauto.
Qed.

Lemma init_transport (e e' : AudioEngine) :
  endsIn (init e) e' -> transport e' = transport e.
Proof.
  unfold init, buildImpulseResponse. intros H.
  destruct (ctx e); [|destruct (AudioContextClass (window e))];
    ends H; reflexivity.
Qed.

Lemma init_graphComplete (e e' : AudioEngine) :
  endsIn (init e) e' -> graphComplete e -> graphComplete e'.
Proof.
  unfold init, buildImpulseResponse. intros H Hg.
  destruct (ctx e) eqn:Hctx; [ends H; exact Hg|].
  destruct (AudioContextClass (window e)); ends H.
  - intros _. simpl. repeat split; discriminate.
  - exact Hg.
Qed.

Lemma updateControlParams_transport (g : HandGestures) (e e' : AudioEngine) :
  endsIn (updateControlParams g e) e' -> transport e' = transport e.
Proof.
  unfold updateControlParams, gestureModes. intros H.
  destruct (ctx e) as [c|]; [|ends H; reflexivity].
  destruct (filterNode e) as [f|]; [|ends H; reflexivity].
  destruct (distortionNode e) as [d|]; [|ends H; reflexivity].
  destruct (negb (isVisible g)); [ends H; reflexivity|].
  simpl in H.
  destruct (masterGain e); [destruct (isPinching g)|]; ends H; reflexivity.
Qed.

Lemma gainTarget_present (target : R) (t tc : Q) (n : option GainNode) :
  n <> None -> gainTarget target t tc n <> None.
Proof. destruct n; [discriminate | congruence]. Qed.

Lemma updateControlParams_graphComplete (g : HandGestures) (e e' : AudioEngine) :
  endsIn (updateControlParams g e) e' -> graphComplete e -> graphComplete e'.
Proof.
  unfold updateControlParams, gestureModes. intros H Hg.
  destruct (ctx e) as [c|] eqn:Hctx; [|ends H; exact Hg].
  assert (ctx e <> None) as Hsome by (rewrite Hctx; discriminate).
  destruct (Hg Hsome) as (Hm & Hf & Hd & Hdf & Hr & Hrg & Hdist & Hcomp).
  destruct (filterNode e) as [f|] eqn:Hfn; [|ends H; exact Hg].
  destruct (distortionNode e) as [d|] eqn:Hdn; [|ends H; exact Hg].
  destruct (negb (isVisible g)).
  { ends H. intros _. simpl. repeat split; congruence. }
  simpl in H.
  destruct (masterGain e) as [m|] eqn:Hmaster; [|congruence].
  destruct (isPinching g); ends H; intros _; simpl;
    repeat split; try congruence; try discriminate;
    apply gainTarget_present; congruence.
Qed.

Lemma applyEffects_transport (fs : list Effect) :
  forall e, transport (applyEffects e fs) = transport e.
Proof.
  unfold applyEffects.
  induction fs as [|f rest IH]; intros e; simpl; [reflexivity|].
  rewrite IH. destruct f; simpl; [destruct (ctx e)|]; reflexivity.
Qed.

Lemma applyEffects_nodes (fs : list Effect) :
  forall e,
    nodes (applyEffects e fs) = nodes e
    /\ (ctx (applyEffects e fs) <> None -> ctx e <> None).
Proof.
  unfold applyEffects.
  induction fs as [|f rest IH]; intros e; simpl; [now split|].
  destruct (IH (applyEffect e f)) as [-> Hctx]. split.
  - destruct f; simpl; [destruct (ctx e)|]; reflexivity.
  - intros Hc Hnone. apply Hctx in Hc. apply Hc.
    destruct f; simpl; [rewrite Hnone|]; exact Hnone.
Qed.

Lemma scheduleNote_transport (e e' : AudioEngine) (beat : Z) (time : Q) :
  endsIn (scheduleNote e beat time) e' -> transport e' = transport e.
Proof.
  unfold scheduleNote. intros H.
  destruct (ctx e) as [c|]; [|ends H; reflexivity].
  destruct (returned _); ends H; apply applyEffects_transport.
Qed.

Lemma scheduleNote_graphComplete (e e' : AudioEngine) (beat : Z) (time : Q) :
  endsIn (scheduleNote e beat time) e' -> graphComplete e -> graphComplete e'.
Proof.
  unfold scheduleNote. intros H.
  destruct (ctx e) as [c|]; [|ends H; trivial].
  destruct (returned _); ends H;
    apply graphComplete_nodes; apply applyEffects_nodes.
Qed.

Lemma nextNote_graphComplete (e : AudioEngine) :
  graphComplete e -> graphComplete (nextNote e).
Proof.
  apply graphComplete_nodes; unfold nextNote; simpl;
    destruct (current16thNote e + 1 =? 16); trivial.
Qed.

(** ** Invariants of every session *)

Lemma isSome_not_None {A : Type} (o : option A) : isSome o = true <-> o <> None.
Proof. destruct o; simpl; split; congruence. Qed.

Lemma isSome_frame {A : Type} (o o' : option A) :
  isSome o' = isSome o -> o' <> None -> o <> None.
Proof. destruct o, o'; simpl; congruence. Qed.

Lemma applyEffects_isSome (fs : list Effect) :
  forall e, isSome (ctx (applyEffects e fs)) = isSome (ctx e).
Proof.
  intros e. destruct (ctx e) as [c|] eqn:Hctx.
  - now rewrite (applyEffects_ctx fs e c Hctx).
  - revert e Hctx. unfold applyEffects.
    induction fs as [|f rest IH]; intros e Hctx; simpl; [now rewrite Hctx|].
    apply IH. destruct f; simpl; [rewrite Hctx|]; exact Hctx.
Qed.

Lemma scheduleNote_isSome (e e' : AudioEngine) (beat : Z) (time : Q) :
  endsIn (scheduleNote e beat time) e' -> isSome (ctx e') = isSome (ctx e).
Proof.
  unfold scheduleNote. intros H.
  destruct (ctx e) as [c|] eqn:Hctx; [|ends H; now rewrite Hctx].
  destruct (returned _); ends H;
    rewrite applyEffects_isSome; now rewrite Hctx.
Qed.

Lemma scheduleNote_nodes (e e' : AudioEngine) (beat : Z) (time : Q) :
  endsIn (scheduleNote e beat time) e' -> nodes e' = nodes e.
Proof.
  unfold scheduleNote. intros H.
  destruct (ctx e) as [c|]; [|ends H; reflexivity].
  destruct (returned _); ends H; apply applyEffects_nodes.
Qed.

Lemma applyEffects_hostClass (fs : list Effect) :
  forall e,
    AudioContextClass (window (applyEffects e fs)) = AudioContextClass (window e).
Proof.
  unfold applyEffects.
  induction fs as [|f rest IH]; intros e; simpl; [reflexivity|].
  rewrite IH. destruct f; simpl; [destruct (ctx e)|]; reflexivity.
Qed.

Lemma scheduleNote_hostClass (e e' : AudioEngine) (beat : Z) (time : Q) :
  endsIn (scheduleNote e beat time) e' ->
  AudioContextClass (window e') = AudioContextClass (window e).
Proof.
  unfold scheduleNote. intros H.
  destruct (ctx e) as [c|]; [|ends H; reflexivity].
  destruct (returned _); ends H; apply applyEffects_hostClass.
Qed.

Lemma clearTimeout_hostClass (id : option nat) (w : Window) :
  AudioContextClass (clearTimeout id w) = AudioContextClass w.
Proof. now destruct id. Qed.

Lemma init_Done_ctx (e e1 : AudioEngine) : init e = Done e1 -> ctx e1 <> None.
Proof.
  unfold init, buildImpulseResponse.
  destruct (ctx e) eqn:Hctx; [intros [= <-]; congruence|].
  destruct (AudioContextClass (window e)); [|discriminate].
  intros [= <-]. discriminate.
Qed.

Lemma resumeIfSuspended_isSome (e : AudioEngine) :
  isSome (ctx (resumeIfSuspended e)) = isSome (ctx e).
Proof.
  unfold resumeIfSuspended. destruct (ctx e) as [c|] eqn:Hctx; [|now rewrite Hctx].
  destruct (state c); simpl; now rewrite ?Hctx.
Qed.

Section SessionInvariant.

Variable P : AudioEngine -> Prop.

(** [P] looks at the composition, the transport, the nodes, whether there
    is a context and whether the host has audio, and at nothing else. *)
Hypothesis frame :
  forall e e',
    composition e' = composition e -> transport e' = transport e ->
    nodes e' = nodes e -> isSome (ctx e') = isSome (ctx e) ->
    AudioContextClass (window e') = AudioContextClass (window e) ->
    P e -> P e'.
Hypothesis at_nextNote : forall e, P e -> P (nextNote e).
Hypothesis at_init : forall e e', endsIn (init e) e' -> P e -> P e'.
Hypothesis at_update :
  forall g e e', endsIn (updateControlParams g e) e' -> P e -> P e'.
Hypothesis at_reset :
  forall e t,
    P e -> P (set_nextNoteTime t (set_globalBar 0 (set_current16thNote 0 e))).

Lemma scheduleNote_invariant (e e' : AudioEngine) (beat : Z) (time : Q) :
  endsIn (scheduleNote e beat time) e' -> P e -> P e'.
Proof.
  intros H. apply frame.
  - eapply scheduleNote_composition; exact H.
  - eapply scheduleNote_transport; exact H.
  - eapply scheduleNote_nodes; exact H.
  - eapply scheduleNote_isSome; exact H.
  - eapply scheduleNote_hostClass; exact H.
Qed.

Lemma schedulerLoop_invariant (fuel : nat) (now : Q) :
  forall e e', endsIn (schedulerLoop fuel now e) e' -> P e -> P e'.
Proof.
  induction fuel as [|k IH]; intros e e' H HP; simpl in H;
    destruct (Qltb _ _); try (ends H; exact HP).
  destruct (scheduleNote e (current16thNote e) (nextNoteTime e)) as [e1|e1|] eqn:Hnote.
  - apply (IH (nextNote e1) e' H). apply at_nextNote.
    eapply scheduleNote_invariant; [left; exact Hnote | exact HP].
  - ends H. eapply scheduleNote_invariant; [right; exact Hnote | exact HP].
  - ends H.
Qed.

Lemma scheduler_invariant (fuel : nat) (e e' : AudioEngine) :
  endsIn (scheduler fuel e) e' -> P e -> P e'.
Proof.
  unfold scheduler. intros H HP.
  destruct (ctx e) as [c|]; [|ends H; exact HP].
  destruct (negb (isPlaying e)); [ends H; exact HP|].
  destruct (schedulerLoop fuel (currentTime c) e) as [e1|e1|] eqn:Hloop.
  - simpl in H. ends H.
    assert (P e1) as HP1
      by (apply (schedulerLoop_invariant fuel (currentTime c) e e1);
          [left; exact Hloop | exact HP]).
    revert HP1. apply frame; reflexivity.
  - ends H. apply (schedulerLoop_invariant fuel (currentTime c) e e');
      [right; exact Hloop | exact HP].
  - ends H.
Qed.

Lemma resumeIfSuspended_invariant (e : AudioEngine) :
  P e -> P (resumeIfSuspended e).
Proof.
  unfold resumeIfSuspended.
  destruct (ctx e) as [c|] eqn:Hctx; [|trivial].
  destruct (state c); trivial.
  apply frame; try reflexivity. simpl. now rewrite Hctx.
Qed.

Lemma start_invariant (fuel : nat) (e e' : AudioEngine) :
  endsIn (start fuel e) e' -> P e -> P e'.
Proof.
  unfold start. intros H HP.
  destruct (init e) as [e1|e1|] eqn:Hinit.
  - assert (P e1) as HP1 by (apply (at_init e e1); [left; exact Hinit | exact HP]).
    apply resumeIfSuspended_invariant in HP1.
    set (e2 := resumeIfSuspended e1) in *.
    assert (P (set_isPlaying true e2)) as HP2
      by (revert HP1; apply frame; reflexivity).
    simpl in H.
    destruct (ctx e2) as [c|] eqn:Hctx.
    + apply (scheduler_invariant fuel _ e' H).
      apply (at_reset _ (currentTime c + lit 1 10)%Q) in HP2. exact HP2.
    + apply init_Done_ctx, isSome_not_None in Hinit.
      rewrite <- resumeIfSuspended_isSome in Hinit. fold e2 in Hinit.
      rewrite Hctx in Hinit. discriminate.
  - ends H. apply (at_init e e'); [right; exact Hinit | exact HP].
  - ends H.
Qed.

Lemma stop_invariant (e : AudioEngine) : P e -> P (stop e).
Proof. apply frame; try reflexivity. apply clearTimeout_hostClass. Qed.

Lemma clockAdvances_invariant (dt : Q) (e : AudioEngine) :
  P e -> P (clockAdvances dt e).
Proof.
  unfold clockAdvances. destruct (ctx e) as [c|] eqn:Hctx; [|trivial].
  apply frame; try reflexivity. simpl. now rewrite Hctx.
Qed.

Lemma timeoutFires_invariant (fuel id : nat) (e e' : AudioEngine) :
  endsIn (timeoutFires fuel id e) e' -> P e -> P e'.
Proof.
  unfold timeoutFires. intros H HP.
  destruct (existsb _ _); [|ends H; exact HP].
  apply (scheduler_invariant fuel _ e' H).
  revert HP. apply frame; reflexivity.
Qed.

Lemma perform_invariant (fuel : nat) (ev : Event) (e e' : AudioEngine) :
  endsIn (perform fuel ev e) e' -> P e -> P e'.
Proof.
  destruct ev; simpl; intros H HP.
  - ends H. revert HP. apply frame; reflexivity.
  - apply (at_init e e' H HP).
  - apply (start_invariant fuel e e' H HP).
  - ends H. apply stop_invariant, HP.
  - apply (at_update gestures e e' H HP).
  - ends H. apply clockAdvances_invariant, HP.
  - apply (timeoutFires_invariant fuel id e e' H HP).
Qed.

Lemma session_invariant (fuel : nat) (evs : list Event) :
  forall e e', endsIn (session fuel evs e) e' -> P e -> P e'.
Proof.
  induction evs as [|ev rest IH]; intros e e' H HP; simpl in H.
  - ends H. exact HP.
  - destruct (perform fuel ev e) as [e1|e1|] eqn:Hev.
    + apply (IH e1 e' H). apply (perform_invariant fuel ev e e1); [left; exact Hev | exact HP].
    + apply (IH e1 e' H). apply (perform_invariant fuel ev e e1); [right; exact Hev | exact HP].
    + ends H.
Qed.

End SessionInvariant.

(** ** The counters stay in range *)

Lemma countersInRange_transport (e e' : AudioEngine) :
  transport e' = transport e -> countersInRange e -> countersInRange e'.
Proof.
  unfold transport, countersInRange. intros H.
  injection H as -> -> _ _ _ _. trivial.
Qed.

Lemma nextNote_countersInRange (e : AudioEngine) :
  countersInRange e -> countersInRange (nextNote e).
Proof.
  unfold countersInRange, nextNote. intros [Hbar Hstep]. simpl.
  destruct (Z.eqb_spec (current16thNote e + 1) 16); simpl; lia.
Qed.

Lemma session_countersInRange (fuel : nat) (evs : list Event) (e e' : AudioEngine) :
  endsIn (session fuel evs e) e' -> countersInRange e -> countersInRange e'.
Proof.
  apply session_invariant.
  - intros e1 e2 _ Htransport _ _ _. now apply countersInRange_transport.
  - apply nextNote_countersInRange.
  - intros e1 e2 H. apply countersInRange_transport. now apply init_transport.
  - intros g e1 e2 H. apply countersInRange_transport.
    now apply (updateControlParams_transport g).
  - intros e1 t _. unfold countersInRange. simpl. lia.
Qed.

Lemma generateComposition_counters (e : AudioEngine) (r : Rng) :
  globalBar (fst (generateComposition e r)) = globalBar e
  /\ current16thNote (fst (generateComposition e r)) = current16thNote e.
Proof.
  unfold generateComposition.
  repeat match goal with
         | |- context [let (_, _) := ?m in _] => destruct m
         end.
  destruct (style_eqb _ _); now split.
Qed.

Lemma newAudioEngine_countersInRange (w : Window) (p : SonicParameters) (r : Rng) :
  countersInRange (newAudioEngine w p r).
Proof.
  unfold countersInRange, newAudioEngine.
  destruct (generateComposition_counters (fieldInitialisers w p) r) as [-> ->].
  simpl. lia.
Qed.

(** ** The engine never throws while it plays *)

Lemma playable_frame (e e' : AudioEngine) :
  composition e' = composition e -> transport e' = transport e ->
  nodes e' = nodes e -> isSome (ctx e') = isSome (ctx e) ->
  playable e -> playable e'.
Proof.
  intros Hc Ht Hn Hctx (Hcomp & Htransport & Hgraph). split; [|split].
  - now apply (playableComposition_composition e).
  - now apply (transportInRange_transport e).
  - apply (graphComplete_nodes e); [exact Hn | | exact Hgraph].
    now apply isSome_frame.
Qed.

Lemma nextNote_playable (e : AudioEngine) : playable e -> playable (nextNote e).
Proof.
  intros (Hcomp & Htransport & Hgraph). split; [|split].
  - apply (playableComposition_composition e); [apply nextNote_composition | exact Hcomp].
  - now apply nextNote_transportInRange.
  - now apply nextNote_graphComplete.
Qed.

Lemma init_playable (e e' : AudioEngine) :
  endsIn (init e) e' -> playable e -> playable e'.
Proof.
  intros H (Hcomp & Htransport & Hgraph). split; [|split].
  - apply (playableComposition_composition e); [now apply init_composition | exact Hcomp].
  - apply (transportInRange_transport e); [now apply init_transport | exact Htransport].
  - now apply (init_graphComplete e).
Qed.

Lemma updateControlParams_playable (g : HandGestures) (e e' : AudioEngine) :
  endsIn (updateControlParams g e) e' -> playable e -> playable e'.
Proof.
  intros H (Hcomp & Htransport & Hgraph). split; [|split].
  - apply (playableComposition_composition e);
      [now apply (updateControlParams_composition g) | exact Hcomp].
  - apply (transportInRange_transport e);
      [now apply (updateControlParams_transport g) | exact Htransport].
  - now apply (updateControlParams_graphComplete g e).
Qed.

Lemma reset_playable (e : AudioEngine) (t : Q) :
  playable e ->
  playable (set_nextNoteTime t (set_globalBar 0 (set_current16thNote 0 e))).
Proof.
  intros (Hcomp & (_ & _ & Hseq) & Hgraph). split; [|split].
  - exact Hcomp.
  - unfold transportInRange. simpl. repeat split; try lia. exact Hseq.
  - exact Hgraph.
Qed.

Lemma session_playable (fuel : nat) (evs : list Event) (e e' : AudioEngine) :
  endsIn (session fuel evs e) e' -> playable e -> playable e'.
Proof.
  apply session_invariant.
  - intros e1 e2 Hc Ht Hn Hctx _. now apply playable_frame.
  - apply nextNote_playable.
  - apply init_playable.
  - apply updateControlParams_playable.
  - apply reset_playable.
Qed.

Lemma newAudioEngine_ctx (w : Window) (p : SonicParameters) (r : Rng) :
  ctx (newAudioEngine w p r) = None /\ window (newAudioEngine w p r) = w.
Proof.
  unfold newAudioEngine, generateComposition.
  repeat match goal with
         | |- context [let (_, _) := ?m in _] => destruct m
         end.
  destruct (style_eqb _ _); now split.
Qed.

Lemma newAudioEngine_playable (w : Window) (p : SonicParameters) (r : Rng) :
  unit_draws r -> (0 <= baseNoteFrequency p)%Q -> playable (newAudioEngine w p r).
Proof.
  intros Hdraws Hbase. split; [|split].
  - now apply newAudioEngine_playableComposition.
  - destruct (newAudioEngine_countersInRange w p r) as [Hbar Hstep].
    destruct (sections_are_progressions w p r Hdraws)
      as (progA & progB & _ & Hseq & _ & _ & HlenA & _).
    split; [exact Hbar|]. split; [exact Hstep|]. now exists progA.
  - intros Hctx. now destruct (newAudioEngine_ctx w p r) as [Hnone _].
Qed.

(** The chord root of a bar in range. *)
Lemma chordRoot_in_range (e : AudioEngine) :
  transportInRange e ->
  exists sequence root,
    currentChordSequence e = Some sequence
    /\ js_index sequence (Z.rem (globalBar e) 4) = Some root.
Proof.
  intros (Hbar & _ & sequence & Hseq & Hlen).
  destruct (js_index_Some sequence (Z.rem (globalBar e) 4)) as [root Hroot].
  - rewrite Hlen. apply Z.rem_bound_pos; lia.
  - now exists sequence, root.
Qed.

Lemma playSynth_returns (e : AudioEngine) (time : Q) (d octave : Z)
    (duration : Q) (type : SynthType) :
  scale e <> [] -> (0 <= baseNoteFrequency (params e))%Q ->
  returns (playSynth time (getFreqOf e (Some d) octave) duration type).
Proof.
  intros Hscale Hbase. unfold playSynth. simpl.
  destruct (getFreq_defined e d octave Hscale Hbase) as [f ->].
  apply returns_emit.
Qed.

Lemma bassline_returns (e : AudioEngine) (beat : Z) (time : Q)
    (fist breakdown : bool) :
  playableComposition e -> transportInRange e -> 0 <= beat < 16 ->
  returns (bassline e beat time fist breakdown).
Proof.
  intros (Hscale & Hbase & _ & _ & _ & _ & Hlen & Hslots) Htransport Hbeat.
  unfold bassline.
  destruct (negb fist && negb breakdown); [|apply returns_ret].
  destruct (js_index_Some (bassPattern e) beat) as [slot Hslot];
    [rewrite Hlen; simpl; lia|].
  rewrite Hslot.
  assert (rootOrEmpty slot) as Hroot.
  { rewrite Forall_forall in Hslots. apply Hslots.
    eapply js_index_In; exact Hslot. }
  destruct Hroot as [-> | ->]; [apply returns_ret|].
  destruct (chordRoot_in_range e Htransport) as (sequence & root & Hseq & Hroot).
  unfold chordRoot. rewrite Hseq, Hroot. unfold bind at 1. simpl.
  unfold playBass. simpl.
  destruct (getFreq_defined e root 0 Hscale Hbase) as [f ->].
  apply returns_emit.
Qed.

Lemma leadOrArp_returns (e : AudioEngine) (beat : Z) (time : Q)
    (fist pinching : bool) :
  playableComposition e -> transportInRange e -> 0 <= beat < 16 ->
  returns (leadOrArp e beat time fist pinching).
Proof.
  intros (Hscale & Hbase & _ & _ & _ & Hlen & _) Htransport Hbeat.
  unfold leadOrArp.
  destruct (_ && (Z.rem beat 2 =? 0)).
  - destruct (chordRoot_in_range e Htransport) as (sequence & root & Hseq & Hroot).
    unfold chordRoot. rewrite Hseq, Hroot. unfold bind at 1. simpl.
    destruct fist; simpl; [apply returns_ret|].
    destruct Htransport as (Hbar & _).
    destruct (js_index_Some [0; 2; 4; 6] (Z.rem (beat / 2 + globalBar e) 4))
      as [k Hk].
    { simpl. apply Z.rem_bound_pos; [|lia].
      assert (0 <= beat / 2) by (apply Z.div_pos; lia). lia. }
    rewrite Hk. now apply playSynth_returns.
  - destruct (js_index_Some (melodyPattern e) beat) as [slot Hslot];
      [rewrite Hlen; simpl; lia|].
    rewrite Hslot. destruct slot as [d|]; [|apply returns_ret].
    now apply playSynth_returns.
Qed.

Lemma noteEffects_returns (e : AudioEngine) (now : Q) (beat : Z) (time : Q) :
  playableComposition e -> transportInRange e -> 0 <= beat < 16 ->
  returns (noteEffects e now beat time).
Proof.
  intros Hcomp Htransport Hbeat. unfold noteEffects.
  apply returns_bind; [apply uiSync_returns | intros _].
  apply returns_bind; [apply rhythmSection_returns | intros _].
  apply returns_bind; [|intros _].
  { destruct (beat =? 0); [|apply returns_ret].
    destruct (chordRoot_in_range e Htransport) as (sequence & root & Hseq & Hroot).
    destruct Hcomp as (Hscale & Hbase & _).
    now apply (playChord_returns e time _ _ sequence root). }
  apply returns_bind; [now apply bassline_returns | intros _].
  now apply leadOrArp_returns.
Qed.

Lemma scheduleNote_returns (e e' : AudioEngine) (beat : Z) (time : Q) :
  playableComposition e -> transportInRange e -> 0 <= beat < 16 ->
  scheduleNote e beat time <> Threw e'.
Proof.
  intros Hcomp Htransport Hbeat. unfold scheduleNote.
  destruct (ctx e) as [c|]; [|discriminate].
  pose proof (noteEffects_returns e (currentTime c) beat time Hcomp Htransport Hbeat)
    as Hreturns.
  unfold returns in Hreturns.
  destruct (returned _); [discriminate | congruence].
Qed.

Lemma scheduleNote_playable (e e' : AudioEngine) (beat : Z) (time : Q) :
  endsIn (scheduleNote e beat time) e' -> playable e -> playable e'.
Proof.
  intros H. apply playable_frame.
  - eapply scheduleNote_composition; exact H.
  - eapply scheduleNote_transport; exact H.
  - eapply scheduleNote_nodes; exact H.
  - eapply scheduleNote_isSome; exact H.
Qed.

Lemma schedulerLoop_returns (fuel : nat) (now : Q) :
  forall e e', playable e -> schedulerLoop fuel now e <> Threw e'.
Proof.
  induction fuel as [|k IH]; intros e e' Hplayable; simpl;
    destruct (Qltb _ _); try discriminate.
  destruct (scheduleNote e (current16thNote e) (nextNoteTime e)) as [e1|e1|] eqn:Hnote.
  - apply IH. apply nextNote_playable.
    eapply scheduleNote_playable; [left; exact Hnote | exact Hplayable].
  - exfalso. destruct Hplayable as (Hcomp & Htransport & _).
    apply (scheduleNote_returns e e1 (current16thNote e) (nextNoteTime e));
      [exact Hcomp | exact Htransport | apply Htransport | exact Hnote].
  - discriminate.
Qed.

Lemma scheduler_returns (fuel : nat) (e e' : AudioEngine) :
  playable e -> scheduler fuel e <> Threw e'.
Proof.
  intros Hplayable. unfold scheduler.
  destruct (ctx e) as [c|]; [|discriminate].
  destruct (negb (isPlaying e)); [discriminate|].
  destruct (schedulerLoop fuel (currentTime c) e) as [e1|e1|] eqn:Hloop.
  - simpl. discriminate.
  - exfalso. now apply (schedulerLoop_returns fuel (currentTime c) e e1).
  - discriminate.
Qed.

Lemma updateControlParams_returns (g : HandGestures) (e e' : AudioEngine) :
  graphComplete e -> updateControlParams g e <> Threw e'.
Proof.
  intros Hgraph. unfold updateControlParams, gestureModes.
  destruct (ctx e) as [c|] eqn:Hctx; [|discriminate].
  destruct (filterNode e) as [f|]; [|discriminate].
  destruct (distortionNode e) as [d|]; [|discriminate].
  destruct (negb (isVisible g)); [discriminate|].
  simpl.
  destruct (masterGain e) eqn:Hmaster.
  - destruct (isPinching g); discriminate.
  - exfalso. destruct Hgraph as [Hsome _]; [rewrite Hctx; discriminate|].
    now apply Hsome.
Qed.

Lemma init_Threw (e e' : AudioEngine) :
  init e = Threw e' ->
  e' = e /\ ctx e = None /\ AudioContextClass (window e) = None.
Proof.
  unfold init. destruct (ctx e); [discriminate|].
  destruct (AudioContextClass (window e)); [discriminate|].
  intros [= <-]. now repeat split.
Qed.

Lemma resumeIfSuspended_playable (e : AudioEngine) :
  playable e -> playable (resumeIfSuspended e).
Proof.
  apply playable_frame; try apply resumeIfSuspended_isSome;
    unfold resumeIfSuspended;
    (destruct (ctx e); [destruct (state _)|]); reflexivity.
Qed.

Lemma start_Threw (fuel : nat) (e e' : AudioEngine) :
  playable e -> start fuel e = Threw e' -> init e = Threw e'.
Proof.
  intros Hplayable. unfold start.
  destruct (init e) as [e1|e1|] eqn:Hinit; [|trivial|discriminate].
  assert (playable e1) as Hplayable1
    by (apply (init_playable e e1); [left; exact Hinit | exact Hplayable]).
  simpl.
  destruct (ctx (resumeIfSuspended e1)) as [c|] eqn:Hctx.
  - intros H. exfalso. revert H. apply scheduler_returns.
    apply reset_playable.
    apply (playable_frame (resumeIfSuspended e1)); try reflexivity.
    now apply resumeIfSuspended_playable.
  - apply init_Done_ctx, isSome_not_None in Hinit.
    rewrite <- resumeIfSuspended_isSome, Hctx in Hinit. discriminate.
Qed.

Lemma perform_Threw (fuel : nat) (ev : Event) (e e' : AudioEngine) :
  playable e -> perform fuel ev e = Threw e' ->
  e' = e /\ ctx e = None /\ AudioContextClass (window e) = None
  /\ (ev = CallInit \/ ev = CallStart).
Proof.
  intros Hplayable. destruct ev; simpl; try discriminate.
  - intros H. apply init_Threw in H. intuition.
  - intros H. apply start_Threw, init_Threw in H; [intuition | exact Hplayable].
  - intros H. exfalso. revert H. apply updateControlParams_returns, Hplayable.
  - unfold timeoutFires. destruct (existsb _ _); [|discriminate].
    intros H. exfalso. revert H. apply scheduler_returns.
    revert Hplayable. apply playable_frame; reflexivity.
Qed.

Lemma init_window (e e' : AudioEngine) :
  endsIn (init e) e' -> window e' = window e.
Proof.
  unfold init, buildImpulseResponse. intros H.
  destruct (ctx e); [|destruct (AudioContextClass (window e))];
    ends H; reflexivity.
Qed.

Lemma updateControlParams_window (g : HandGestures) (e e' : AudioEngine) :
  endsIn (updateControlParams g e) e' -> window e' = window e.
Proof.
  unfold updateControlParams, gestureModes. intros H.
  destruct (ctx e) as [c|]; [|ends H; reflexivity].
  destruct (filterNode e) as [f|]; [|ends H; reflexivity].
  destruct (distortionNode e) as [d|]; [|ends H; reflexivity].
  destruct (negb (isVisible g)); [ends H; reflexivity|].
  simpl in H.
  destruct (masterGain e); [destruct (isPinching g)|]; ends H; reflexivity.
Qed.

Lemma nextNote_window (e : AudioEngine) : window (nextNote e) = window e.
Proof.
  unfold nextNote. simpl. destruct (current16thNote e + 1 =? 16); reflexivity.
Qed.

Lemma session_hostClass (fuel : nat) (evs : list Event) (k : option AudioContextState)
    (e e' : AudioEngine) :
  endsIn (session fuel evs e) e' ->
  AudioContextClass (window e) = k -> AudioContextClass (window e') = k.
Proof.
  apply (session_invariant (fun e => AudioContextClass (window e) = k)).
  - intros e1 e2 _ _ _ _ Hclass Hk. congruence.
  - intros e1 Hk. now rewrite nextNote_window.
  - intros e1 e2 H Hk. now rewrite (init_window e1 e2 H).
  - intros g e1 e2 H Hk. now rewrite (updateControlParams_window g e1 e2 H).
  - trivial.
Qed.

(** X2.  In every state of every session of an engine, whatever its
    parameters and the random source, the step counter is one of 0..15 and
    the bar counter is not negative. *)
Theorem counters_stay_in_range (fuel : nat) (w : Window) (p : SonicParameters)
    (r : Rng) (evs : list Event) (e : AudioEngine) :
  endsIn (session fuel evs (newAudioEngine w p r)) e ->
  0 <= current16thNote e < 16 /\ 0 <= globalBar e.
Proof.
  intros Hends.
  destruct (session_countersInRange fuel evs _ e Hends
              (newAudioEngine_countersInRange w p r)) as [Hbar Hstep].
  now split.
Qed.

Lemma counters_stay_in_range_witness :
  0 <= current16thNote runningEngine < 16 /\ 0 <= globalBar runningEngine.
Proof.
  apply (counters_stay_in_range 100 sampleWindow fallbackParams zeroRng
           runningSession runningEngine).
  left. apply Done_outcomeEngine. vm_compute. reflexivity.
Defined.

(** ** The nodes that gestures do not reach *)

Lemma updateControlParams_fixedNodes (g : HandGestures) (e e' : AudioEngine) :
  endsIn (updateControlParams g e) e' ->
  fixedNodes e' = fixedNodes e /\ ctx e' = ctx e.
Proof.
  unfold updateControlParams, gestureModes. intros H.
  destruct (ctx e) as [c|] eqn:Hctx; [|ends H; now split].
  destruct (filterNode e) as [f|]; [|ends H; now split].
  destruct (distortionNode e) as [d|] eqn:Hd; [|ends H; now split].
  destruct (negb (isVisible g)); [ends H; unfold fixedNodes; simpl; now rewrite Hd|].
  simpl in H.
  destruct (masterGain e); [destruct (isPinching g)|]; ends H;
    unfold fixedNodes; simpl; now rewrite Hd.
Qed.

Lemma fixedNodes_nodes (e e' : AudioEngine) :
  nodes e' = nodes e -> fixedNodes e' = fixedNodes e.
Proof.
  unfold nodes, fixedNodes. intros H.
  injection H as _ _ -> _ -> _ -> ->. reflexivity.
Qed.

Lemma session_fixedNodes (fuel : nat) (evs : list Event) (e e' : AudioEngine) :
  endsIn (session fuel evs e) e' -> ctx e <> None ->
  ctx e' <> None /\ fixedNodes e' = fixedNodes e.
Proof.
  intros Hends Hctx.
  apply (session_invariant
           (fun e1 => ctx e1 <> None /\ fixedNodes e1 = fixedNodes e)
           ) with (fuel := fuel) (evs := evs) (e := e); trivial.
  - intros e1 e2 _ _ Hn Hsome _ [Hctx1 Hfixed]. split.
    + apply isSome_not_None. rewrite Hsome. now apply isSome_not_None.
    + rewrite <- Hfixed. now apply fixedNodes_nodes.
  - intros e1 [Hctx1 Hfixed]. split.
    + unfold nextNote. simpl. now destruct (current16thNote e1 + 1 =? 16).
    + rewrite <- Hfixed. apply fixedNodes_nodes.
      unfold nextNote. simpl. now destruct (current16thNote e1 + 1 =? 16).
  - intros e1 e2 H [Hctx1 Hfixed]. unfold init in H.
    destruct (ctx e1) eqn:Hctx2; [|congruence]. ends H. split; congruence.
  - intros g e1 e2 H [Hctx1 Hfixed].
    destruct (updateControlParams_fixedNodes g e1 e2 H) as [-> ->]. now split.
  - now split.
Qed.

(** X3.  Once the graph is built, no call and no host event replaces the
    delay, the reverb, the distortion or the compressor: through every
    session the four nodes keep the settings [init] gave them (the delay
    time, the impulse response, the distortion amount), whatever gestures
    come in, and the context stays. *)
Theorem gestures_do_not_reach_the_fixed_nodes (fuel : nat) (evs : list Event)
    (e e' : AudioEngine) :
  ctx e <> None -> endsIn (session fuel evs e) e' ->
  ctx e' <> None
  /\ delayNode e' = delayNode e /\ reverbNode e' = reverbNode e
  /\ distortionNode e' = distortionNode e
  /\ compressorNode e' = compressorNode e.
Proof.
  intros Hctx Hends.
  destruct (session_fixedNodes fuel evs e e' Hends Hctx) as [Hctx' Hfixed].
  unfold fixedNodes in Hfixed. injection Hfixed as -> -> -> ->.
  now repeat split.
Qed.

Lemma startedEngine_ctx : ctx startedEngine <> None.
Proof. intros H. apply (f_equal isSome) in H. vm_compute in H. discriminate H. Qed.

Lemma gestures_do_not_reach_the_fixed_nodes_witness :
  ctx gesturedEngine <> None
  /\ delayNode gesturedEngine = delayNode startedEngine
  /\ reverbNode gesturedEngine = reverbNode startedEngine
  /\ distortionNode gesturedEngine = distortionNode startedEngine
  /\ compressorNode gesturedEngine = compressorNode startedEngine.
Proof.
  apply (gestures_do_not_reach_the_fixed_nodes 100 gestureSession).
  - exact startedEngine_ctx.
  - left. apply Done_outcomeEngine. vm_compute. reflexivity.
Defined.

(** ** Counting notes *)

Lemma sixteenth_nextNote (e : AudioEngine) : sixteenth (nextNote e) = sixteenth e.
Proof.
  unfold sixteenth. now destruct (nextNote_clock e) as (_ & -> & _).
Qed.

Lemma nextNote_counters (e : AudioEngine) :
  0 <= current16thNote e < 16 ->
  current16thNote (nextNote e) = (current16thNote e + 1) mod 16
  /\ globalBar (nextNote e) = globalBar e + (current16thNote e + 1) / 16.
Proof.
  intros Hstep. unfold nextNote. simpl.
  destruct (Z.eqb_spec (current16thNote e + 1) 16) as [Hwrap|Hnowrap]; simpl.
  - rewrite Hwrap. now split.
  - rewrite Z.mod_small, Z.div_small by lia. split; lia.
Qed.

(** X4.  From a step in range, [n] calls of [nextNote] advance the step
    counter by [n] modulo 16, the bar counter by the number of times the
    step wrapped, and the time of the next note by [n] sixteenth notes of
    [0.25 * 60 / bpm] seconds. *)
Theorem nextNotes_count (n : nat) :
  forall e,
    0 <= current16thNote e < 16 ->
    current16thNote (nextNotes n e) = (current16thNote e + Z.of_nat n) mod 16
    /\ globalBar (nextNotes n e)
       = globalBar e + (current16thNote e + Z.of_nat n) / 16
    /\ (nextNoteTime (nextNotes n e)
        == nextNoteTime e + inject_Z (Z.of_nat n) * sixteenth e)%Q.
Proof.
  induction n as [|k IH]; intros e Hstep.
  - simpl nextNotes. rewrite Z.add_0_r, Z.mod_small, Z.div_small by lia.
    split; [reflexivity|]. split; [lia|]. simpl. ring.
  - destruct (nextNote_counters e Hstep) as [Hs Hb].
    destruct (nextNote_clock e) as (Ht & _ & _).
    assert (0 <= current16thNote (nextNote e) < 16) as Hstep'
      by (rewrite Hs; apply Z.mod_pos_bound; lia).
    destruct (IH (nextNote e) Hstep') as (IHs & IHb & IHt).
    simpl nextNotes. rewrite IHs, IHb, IHt, Hs, Hb, Ht, sixteenth_nextNote.
    rewrite Nat2Z.inj_succ.
    replace (current16thNote e + Z.succ (Z.of_nat k))
      with (current16thNote e + 1 + Z.of_nat k) by lia.
    split; [apply Z.add_mod_idemp_l; lia|]. split.
    + rewrite <- Z.add_assoc. f_equal.
      pose proof (Z.div_mod (current16thNote e + 1) 16 ltac:(lia)) as Hdm.
      set (q := (current16thNote e + 1) / 16) in *.
      set (m := (current16thNote e + 1) mod 16) in *.
      rewrite Hdm.
      rewrite <- Z.add_assoc, Z.mul_comm, Z.div_add_l by lia. reflexivity.
    + unfold Z.succ. rewrite inject_Z_plus. simpl (inject_Z 1). ring.
Qed.

Lemma nextNotes_count_witness :
  current16thNote (nextNotes 127 complexEngine)
  = (current16thNote complexEngine + Z.of_nat 127) mod 16
  /\ globalBar (nextNotes 127 complexEngine)
     = globalBar complexEngine + (current16thNote complexEngine + Z.of_nat 127) / 16
  /\ (nextNoteTime (nextNotes 127 complexEngine)
      == nextNoteTime complexEngine
         + inject_Z (Z.of_nat 127) * sixteenth complexEngine)%Q.
Proof.
  apply (nextNotes_count 127 complexEngine).
  assert (current16thNote complexEngine = 0) as -> by (vm_compute; reflexivity).
  lia.
Defined.

(** ** The look-ahead window *)
















Lemma endsIn_unique (o : Outcome) (e1 e2 : AudioEngine) :
  endsIn o e1 -> endsIn o e2 -> e1 = e2.
Proof. intros [-> | ->] [H | H]; congruence. Qed.

Lemma voicesOf_nextNote (e : AudioEngine) : voicesOf (nextNote e) = voicesOf e.
Proof.
  unfold voicesOf, nextNote. simpl.
  now destruct (current16thNote e + 1 =? 16).
Qed.

#[local] Hint Extern 1 (voiceTime _ = _) => reflexivity : fx.

Lemma chordVoices_voiceTime (e : AudioEngine) (time duration : Q) (octaveShift : Z)
    (type : SynthType) (notes : list (option Z)) :
  forall i,
    emits (fun v => voiceTime v = time)
          (chordVoices e time duration octaveShift type i notes).
Proof.
  induction notes as [|degree rest IH]; intros i; simpl; unfold skip, playSynth;
    fx_auto.
Qed.

Lemma noteEffects_voiceTime (e : AudioEngine) (now : Q) (beat : Z) (time : Q) :
  emits (fun v => voiceTime v = time) (noteEffects e now beat time).
Proof.
  unfold noteEffects.
  apply emits_bind; [apply uiSync_emits | intros _].
  apply emits_bind; [|intros _].
  { unfold rhythmSection, playKick, playTimpani, playNoiseSnare, playShaker,
      playHiHat, skip.
    fx_auto. }
  apply emits_bind; [|intros _].
  { unfold playChord, skip. destruct (beat =? 0); [|fx_auto].
    apply emits_bind; [apply chordRoot_emits | intros root].
    apply chordVoices_voiceTime. }
  apply emits_bind; [|intros _].
  { unfold bassline, playBass, skip.
    destruct (negb _ && negb _); [|fx_auto].
    destruct (js_index (bassPattern e) beat) as [[slot|]|]; [| fx_auto |];
      (apply emits_bind; [apply chordRoot_emits | intros root]); fx_auto. }
  unfold leadOrArp, playSynth, skip.
  destruct (_ && (Z.rem beat 2 =? 0)).
  - apply emits_bind; [apply chordRoot_emits | intros root]. fx_auto.
  - destruct (js_index (melodyPattern e) beat) as [[slot|]|]; fx_auto.
Qed.

Lemma scheduleNote_voiceTime (e e' : AudioEngine) (beat : Z) (time : Q) :
  endsIn (scheduleNote e beat time) e' ->
  exists new,
    voicesOf e' = voicesOf e ++ new
    /\ Forall (fun v => voiceTime v = time) new.
Proof.
  intros H. destruct (ctx e) as [c|] eqn:Hctx.
  - destruct (scheduleNote_voices e c beat time Hctx) as (e1 & H1 & Hctx1).
    rewrite (endsIn_unique _ _ _ H H1).
    exists (startedVoices (emitted (noteEffects e (currentTime c) beat time))).
    unfold voicesOf. rewrite Hctx, Hctx1. simpl. split; [reflexivity|].
    apply noteEffects_voiceTime.
  - unfold scheduleNote in H. rewrite Hctx in H. ends H.
    exists []. rewrite app_nil_r. now split.
Qed.

Lemma schedulerLoop_voiceTime (fuel : nat) (now : Q) :
  forall e e',
    endsIn (schedulerLoop fuel now e) e' ->
    exists new,
      voicesOf e' = voicesOf e ++ new
      /\ Forall (fun v => (voiceTime v < now + scheduleAheadTime e)%Q) new.
Proof.
  induction fuel as [|k IH]; intros e e' H; simpl in H;
    destruct (Qltb _ _) eqn:Hlate;
    try (ends H; exists []; rewrite app_nil_r; now split).
  apply Qltb_lt in Hlate.
  destruct (scheduleNote e (current16thNote e) (nextNoteTime e)) as [e1|e1|] eqn:Hnote.
  - destruct (scheduleNote_voiceTime e e1 _ _ (or_introl Hnote)) as (new1 & Hv1 & Ht1).
    destruct (scheduleNote_keepsClock e e1 _ _ (or_introl Hnote)) as (_ & _ & Hahead).
    destruct (IH _ e' H) as (new2 & Hv2 & Ht2).
    rewrite voicesOf_nextNote, Hv1 in Hv2.
    destruct (nextNote_clock e1) as (_ & _ & Hahead').
    rewrite Hahead', Hahead in Ht2.
    exists (new1 ++ new2). rewrite app_assoc. split; [exact Hv2|].
    apply Forall_app. split; [|exact Ht2].
    eapply Forall_impl; [|exact Ht1]. intros v ->. exact Hlate.
  - ends H.
    destruct (scheduleNote_voiceTime e e' _ _ (or_intror Hnote)) as (new1 & Hv1 & Ht1).
    exists new1. split; [exact Hv1|].
    eapply Forall_impl; [|exact Ht1]. intros v ->. exact Hlate.
  - ends H.
Qed.

(** X6.  A poll of the scheduler never schedules beyond its look-ahead
    window: every voice it starts is timed before the audio clock plus
    [scheduleAheadTime], and the voices started before the poll are all
    kept, in order. *)
Theorem notes_stay_inside_the_window (fuel : nat) (e e' : AudioEngine)
    (c : AudioContext) :
  ctx e = Some c -> endsIn (scheduler fuel e) e' ->
  exists new,
    voicesOf e' = voices c ++ new
    /\ Forall (fun v => (voiceTime v < currentTime c + scheduleAheadTime e)%Q) new.
Proof.
  intros Hctx H. unfold scheduler in H. rewrite Hctx in H.
  assert (voicesOf e = voices c) as Hvoices by (unfold voicesOf; now rewrite Hctx).
  rewrite <- Hvoices.
  destruct (negb (isPlaying e)).
  { ends H. exists []. rewrite app_nil_r. now split. }
  destruct (schedulerLoop fuel (currentTime c) e) as [e1|e1|] eqn:Hloop.
  - simpl in H. ends H.
    apply (schedulerLoop_voiceTime fuel (currentTime c) e e1 (or_introl Hloop)).
  - ends H.
    apply (schedulerLoop_voiceTime fuel (currentTime c) e e' (or_intror Hloop)).
  - ends H.
Qed.

Lemma notes_stay_inside_the_window_witness :
  exists new,
    voicesOf polledEngine = voices lateContext ++ new
    /\ Forall (fun v => (voiceTime v
                         < currentTime lateContext + scheduleAheadTime lateEngine)%Q)
              new.
Proof.
  apply (notes_stay_inside_the_window 100 lateEngine polledEngine lateContext).
  - reflexivity.
  - left. apply Done_outcomeEngine. vm_compute. reflexivity.
Defined.

(** ** After [stop] *)

Lemma init_voicesOf (e e' : AudioEngine) :
  endsIn (init e) e' -> voicesOf e' = voicesOf e.
Proof.
  unfold init, buildImpulseResponse, voicesOf. intros H.
  destruct (ctx e) eqn:Hctx; [ends H; now rewrite Hctx|].
  destruct (AudioContextClass (window e)); ends H; simpl; now rewrite ?Hctx.
Qed.

Lemma idle_step (fuel : nat) (e0 : AudioEngine) (ev : Event) (e e' : AudioEngine) :
  isStart ev = false -> endsIn (perform fuel ev e) e' ->
  isPlaying e = false /\ voicesOf e = voicesOf e0 /\ transport e = transport e0 ->
  isPlaying e' = false /\ voicesOf e' = voicesOf e0 /\ transport e' = transport e0.
Proof.
  intros Hev H (Hplaying & Hvoices & Htransport).
  destruct ev; simpl in H; try discriminate Hev.
  - ends H. now repeat split.
  - destruct (init_keepsBars e e' H) as (_ & _ & ->).
    rewrite (init_voicesOf e e' H), (init_transport e e' H). now repeat split.
  - ends H. now repeat split.
  - destruct (updateControlParams_keepsBars gestures e e' H) as (_ & _ & ->).
    destruct (updateControlParams_fixedNodes gestures e e' H) as [_ Hctx].
    rewrite (updateControlParams_transport gestures e e' H).
    unfold voicesOf in *. rewrite Hctx. now repeat split.
  - ends H. rewrite <- Hplaying, <- Hvoices, <- Htransport.
    unfold clockAdvances, voicesOf.
    destruct (ctx e) eqn:Hctx; simpl; rewrite ?Hctx; now repeat split.
  - unfold timeoutFires in H. destruct (existsb _ _).
    + rewrite scheduler_stopped in H by exact Hplaying. ends H. now repeat split.
    + ends H. now repeat split.
Qed.

(** X7.  [stop ()] silences the engine until [start ()] is called again:
    whatever polls are still pending and fire, whatever gestures come in
    and however the clock runs, no voice is started, the engine stays
    stopped, and the step, the bar and the time of the next note stay where
    [stop ()] found them. *)
Theorem stop_silences_the_engine (fuel : nat) (evs : list Event)
    (e e' : AudioEngine) :
  noStart evs = true -> endsIn (session fuel evs (stop e)) e' ->
  isPlaying e' = false /\ voicesOf e' = voicesOf e
  /\ current16thNote e' = current16thNote e /\ globalBar e' = globalBar e
  /\ nextNoteTime e' = nextNoteTime e.
Proof.
  intros HnoStart Hends.
  destruct (session_noStart fuel
              (fun e1 => isPlaying e1 = false /\ voicesOf e1 = voicesOf e
                         /\ transport e1 = transport e)
              (idle_step fuel e) evs (stop e) e' HnoStart Hends)
    as (Hplaying & Hvoices & Htransport).
  { now repeat split. }
  unfold transport in Htransport. injection Htransport as -> -> -> _ _ _.
  now repeat split.
Qed.

Lemma stop_silences_the_engine_witness :
  isPlaying idleEngine = false /\ voicesOf idleEngine = voicesOf runningEngine
  /\ current16thNote idleEngine = current16thNote runningEngine
  /\ globalBar idleEngine = globalBar runningEngine
  /\ nextNoteTime idleEngine = nextNoteTime runningEngine.
Proof.
  apply (stop_silences_the_engine 100 idleSession).
  - reflexivity.
  - left. apply Done_outcomeEngine. vm_compute. reflexivity.
Defined.

(** ** What a step leaves out *)

Lemma scheduleNote_new_voices (P : Voice -> Prop) (e e' : AudioEngine)
    (beat : Z) (time : Q) :
  (forall now, emits P (noteEffects e now beat time)) ->
  endsIn (scheduleNote e beat time) e' ->
  exists new, voicesOf e' = voicesOf e ++ new /\ Forall P new.
Proof.
  intros Hemits H. destruct (ctx e) as [c|] eqn:Hctx.
  - destruct (scheduleNote_voices e c beat time Hctx) as (e1 & H1 & Hctx1).
    rewrite (endsIn_unique _ _ _ H H1).
    exists (startedVoices (emitted (noteEffects e (currentTime c) beat time))).
    unfold voicesOf. rewrite Hctx, Hctx1. simpl. split; [reflexivity|].
    apply Hemits.
  - unfold scheduleNote in H. rewrite Hctx in H. ends H.
    exists []. rewrite app_nil_r. now split.
Qed.

#[local] Hint Extern 1 (synthVoice _) => exact I : fx.
#[local] Hint Extern 1 (breakdownVoice _) => exact I : fx.

Lemma chordVoices_synthVoice (P : Voice -> Prop) (e : AudioEngine)
    (time duration : Q) (octaveShift : Z) (type : SynthType)
    (notes : list (option Z)) :
  (forall f, P (Synth time f duration type)) ->
  forall i, emits P (chordVoices e time duration octaveShift type i notes).
Proof.
  intros HP.
  induction notes as [|degree rest IH]; intros i; simpl; unfold skip, playSynth;
    fx_auto.
Qed.

Lemma noteEffects_fist (e : AudioEngine) (now : Q) (beat : Z) (time : Q) :
  isFist (currentGestures e) = true ->
  emits synthVoice (noteEffects e now beat time).
Proof.
  intros Hfist. unfold noteEffects. rewrite Hfist.
  apply emits_bind; [apply uiSync_emits | intros _].
  apply emits_bind; [|intros _].
  { unfold rhythmSection. simpl negb. rewrite !andb_false_r. simpl.
    unfold skip. fx_auto. }
  apply emits_bind; [|intros _].
  { unfold playChord, skip. destruct (beat =? 0); [|fx_auto].
    apply emits_bind; [apply chordRoot_emits | intros root].
    apply chordVoices_synthVoice. intros f. exact I. }
  apply emits_bind; [|intros _].
  { unfold bassline, skip. simpl. fx_auto. }
  unfold leadOrArp, playSynth, skip.
  destruct (_ && (Z.rem beat 2 =? 0)).
  - apply emits_bind; [apply chordRoot_emits | intros root]. simpl. fx_auto.
  - destruct (js_index (melodyPattern e) beat) as [[slot|]|]; fx_auto.
Qed.

(** X8.  Under a fist the step keeps its synths only: [scheduleNote] starts
    no kick, no timpani, no snare or hi-hat and no bass, whatever the
    style, the step and the section; what it starts are the chord and the
    melody, all synth voices. *)
Theorem fist_leaves_the_synths (e e' : AudioEngine) (beat : Z) (time : Q) :
  isFist (currentGestures e) = true ->
  endsIn (scheduleNote e beat time) e' ->
  exists new, voicesOf e' = voicesOf e ++ new /\ Forall synthVoice new.
Proof.
  intros Hfist. apply scheduleNote_new_voices.
  intros now. now apply noteEffects_fist.
Qed.

Lemma fist_leaves_the_synths_witness :
  exists new,
    voicesOf fistStep = voicesOf gesturedEngine ++ new /\ Forall synthVoice new.
Proof.
  apply (fist_leaves_the_synths gesturedEngine fistStep 0 3).
  - vm_compute. reflexivity.
  - left. apply Done_outcomeEngine. vm_compute. reflexivity.
Defined.

Lemma noteEffects_breakdown (e : AudioEngine) (now : Q) (beat : Z) (time : Q) :
  isBreakdown e = true ->
  emits breakdownVoice (noteEffects e now beat time).
Proof.
  intros Hbreakdown. unfold noteEffects. rewrite Hbreakdown.
  apply emits_bind; [apply uiSync_emits | intros _].
  apply emits_bind; [|intros _].
  { unfold rhythmSection. simpl negb. rewrite !andb_false_r. simpl.
    unfold skip, playHiHat.
    apply emits_bind; [fx_auto | intros _].
    apply emits_bind; [fx_auto | intros _].
    destruct (_ && negb (isFist _)); [|fx_auto].
    destruct (negb _); [|fx_auto].
    apply emits_start. simpl.
    destruct (isPinching (currentGestures e)); [now right | now left]. }
  apply emits_bind; [|intros _].
  { unfold playChord, skip. destruct (beat =? 0); [|fx_auto].
    apply emits_bind; [apply chordRoot_emits | intros root].
    apply chordVoices_synthVoice. intros f. exact I. }
  apply emits_bind; [|intros _].
  { unfold bassline, skip. simpl negb. rewrite andb_false_r. fx_auto. }
  unfold leadOrArp, playSynth, skip.
  destruct (_ && (Z.rem beat 2 =? 0)).
  - apply emits_bind; [apply chordRoot_emits | intros root]. simpl. fx_auto.
  - destruct (js_index (melodyPattern e) beat) as [[slot|]|]; fx_auto.
Qed.

(** X9.  In a breakdown (section B active in a piece of complexity above
    0.5) [scheduleNote] starts no kick, no timpani, no noise snare and no
    bass: what is left are the synth voices and the hi-hat with its decay
    of 0.05, or 0.02 under a pinch. *)
Theorem breakdown_drops_drums_and_bass (e e' : AudioEngine) (beat : Z) (time : Q) :
  isBreakdown e = true ->
  endsIn (scheduleNote e beat time) e' ->
  exists new, voicesOf e' = voicesOf e ++ new /\ Forall breakdownVoice new.
Proof.
  intros Hbreakdown. apply scheduleNote_new_voices.
  intros now. now apply noteEffects_breakdown.
Qed.

Lemma breakdown_drops_drums_and_bass_witness :
  exists new,
    voicesOf breakdownStep = voicesOf breakdownEngine ++ new
    /\ Forall breakdownVoice new.
Proof.
  apply (breakdown_drops_drums_and_bass breakdownEngine breakdownStep 0 3).
  - vm_compute. reflexivity.
  - left. apply Done_outcomeEngine. vm_compute. reflexivity.
Defined.

Lemma noteEffects_symphony (e : AudioEngine) (now : Q) (beat : Z) (time : Q) :
  style (params e) = symphony ->
  emits (symphonyVoice beat) (noteEffects e now beat time).
Proof.
  intros Hstyle. unfold noteEffects.
  apply emits_bind; [apply uiSync_emits | intros _].
  apply emits_bind; [|intros _].
  { unfold rhythmSection. rewrite Hstyle. simpl. unfold skip, playTimpani.
    apply emits_bind; [|intros _; fx_auto].
    destruct (_ && _); [|fx_auto].
    destruct (Z.eqb_spec beat 0) as [Hbeat|_]; [|fx_auto].
    apply emits_start. now split. }
  apply emits_bind; [|intros _].
  { unfold playChord, skip. rewrite Hstyle. simpl.
    destruct (beat =? 0); [|fx_auto].
    apply emits_bind; [apply chordRoot_emits | intros root].
    apply chordVoices_synthVoice. intros f. now left. }
  apply emits_bind; [|intros _].
  { unfold bassline, playBass, skip.
    destruct (negb _ && negb _); [|fx_auto].
    destruct (js_index (bassPattern e) beat) as [[slot|]|]; [| fx_auto |];
      (apply emits_bind; [apply chordRoot_emits | intros root]);
      apply emits_withFreq; intros f; exact I. }
  unfold leadOrArp, playSynth, skip. rewrite Hstyle. simpl.
  destruct (_ && (Z.rem beat 2 =? 0)).
  - apply emits_bind; [apply chordRoot_emits | intros root].
    destruct (negb _); [|fx_auto].
    apply emits_withFreq. intros f. now left.
  - destruct (js_index (melodyPattern e) beat) as [[slot|]|];
      first [apply emits_withFreq; intros f; now right | fx_auto].
Qed.

(** X10.  A symphony has no drum kit: for the style [symphony]
    [scheduleNote] starts no kick and no hi-hat, snare or shaker on any
    step; its only percussion is the timpani at 0.8 on the first step of a
    bar, and its synth voices are strings (chords and arpeggio) and
    woodwind (melody). *)
Theorem symphony_has_no_drum_kit (e e' : AudioEngine) (beat : Z) (time : Q) :
  style (params e) = symphony ->
  endsIn (scheduleNote e beat time) e' ->
  exists new, voicesOf e' = voicesOf e ++ new /\ Forall (symphonyVoice beat) new.
Proof.
  intros Hstyle. apply scheduleNote_new_voices.
  intros now. now apply noteEffects_symphony.
Qed.

Lemma symphony_has_no_drum_kit_witness :
  exists new,
    voicesOf symphonyStep = voicesOf symphonyEngine ++ new
    /\ Forall (symphonyVoice 0) new.
Proof.
  apply (symphony_has_no_drum_kit symphonyEngine symphonyStep 0 3).
  - vm_compute. reflexivity.
  - left. apply Done_outcomeEngine. vm_compute. reflexivity.
Defined.

(** ** Frequencies across the scale *)

Lemma semitonesToFreq_octave (base : Q) (s : Z) (f : R) :
  semitonesToFreq base s = Some f ->
  semitonesToFreq base (s + 12) = Some (2 * f)%R.
Proof.
  unfold semitonesToFreq.
  destruct (Qltb 0 base) eqn:Hpos.
  - intros [= <-]. f_equal. rewrite plus_IZR.
    replace ((69 + 12 * log2 (Q2R base / 440) + (IZR s + 12) - 69) / 12)%R
      with ((69 + 12 * log2 (Q2R base / 440) + IZR s - 69) / 12 + 1)%R by field.
    rewrite Rpower_plus, Rpower_1 by lra. ring.
  - destruct (Qeq_bool base 0); [|discriminate].
    intros [= <-]. f_equal. ring.
Qed.

Lemma js_index_bounds {A : Type} (arr : list A) (i : Z) (a : A) :
  js_index arr i = Some a -> 0 <= i < Z.of_nat (length arr).
Proof.
  unfold js_index. destruct (Z.ltb_spec i 0); [discriminate|].
  intros Hnth. assert (nth_error arr (Z.to_nat i) <> None) as Hsome by congruence.
  apply nth_error_Some in Hsome. lia.
Qed.

Lemma getFreq_octave_up (e : AudioEngine) (d octaveOffset : Z) (f : R) :
  getFreq e d octaveOffset = Some f ->
  getFreq e (d + Z.of_nat (length (scale e))) octaveOffset = Some (2 * f)%R
  /\ getFreq e d (octaveOffset + 1) = Some (2 * f)%R.
Proof.
  unfold getFreq. set (len := Z.of_nat (length (scale e))).
  destruct (js_index (scale e) (normDegree len d)) as [s|] eqn:Hs; [|discriminate].
  assert (0 < len) as Hlen by (apply js_index_bounds in Hs; fold len in Hs; lia).
  intros Hf. apply semitonesToFreq_octave in Hf. split.
  - rewrite normDegree_mod in Hs by exact Hlen.
    rewrite normDegree_mod by exact Hlen.
    replace (d + len) with (d + 1 * len) by lia.
    rewrite Z.mod_add, Z.div_add by lia. rewrite Hs. rewrite <- Hf. f_equal. lia.
  - rewrite <- Hf. f_equal. lia.
Qed.

(** X11.  One turn of the scale is one octave, and one octave doubles the
    frequency: wherever [getFreq] has a value, the degree one scale length
    up and the same degree with the octave offset one up both give twice
    that frequency. *)
Theorem getFreq_octave_doubles (e : AudioEngine) (d octaveOffset : Z) (f : R) :
  getFreq e d octaveOffset = Some f ->
  getFreq e (d + Z.of_nat (length (scale e))) octaveOffset = Some (2 * f)%R
  /\ getFreq e d (octaveOffset + 1) = Some (2 * f)%R.
Proof. apply getFreq_octave_up. Qed.

Lemma getFreq_octave_doubles_witness :
  getFreq sampleEngine (0 + Z.of_nat (length (scale sampleEngine))) 0
  = Some (2 * (Q2R 55 * Rpower 2 (IZR 0 / 12)))%R
  /\ getFreq sampleEngine 0 (0 + 1) = Some (2 * (Q2R 55 * Rpower 2 (IZR 0 / 12)))%R.
Proof.
  apply (getFreq_octave_doubles sampleEngine 0 0).
  change (getFreq sampleEngine 0 0) with (semitonesToFreq 55 0).
  now apply semitonesToFreq_positive.
Defined.

(** The scales on offer ascend inside one octave. *)
Lemma selectScale_ascends (s : MusicStyle) (i j a b : Z) :
  js_index (selectScale s) i = Some a -> js_index (selectScale s) j = Some b ->
  (0 <= a < 12) /\ (i < j -> a < b) /\ (i = 0 -> a = 0).
Proof.
  intros Hi Hj.
  pose proof (js_index_bounds _ _ _ Hi) as Hbi.
  pose proof (js_index_bounds _ _ _ Hj) as Hbj.
  assert (length (selectScale s) = 7%nat) as Hlen by (now destruct s).
  rewrite Hlen in Hbi, Hbj.
  assert (i = 0 \/ i = 1 \/ i = 2 \/ i = 3 \/ i = 4 \/ i = 5 \/ i = 6) as Hci by lia.
  assert (j = 0 \/ j = 1 \/ j = 2 \/ j = 3 \/ j = 4 \/ j = 5 \/ j = 6) as Hcj by lia.
  destruct s;
    repeat (destruct Hci as [-> | Hci]); try subst i;
    injection Hi as <-;
    (split; [lia|]); (split; [|lia]);
    repeat (destruct Hcj as [-> | Hcj]); try subst j;
    injection Hj as <-; lia.
Qed.

(** The semitone offset of a degree grows with the degree. *)
Lemma semitones_ascend (s : MusicStyle) (d1 d2 a b : Z) :
  js_index (selectScale s) (normDegree 7 d1) = Some a ->
  js_index (selectScale s) (normDegree 7 d2) = Some b ->
  d1 < d2 -> a + d1 / 7 * 12 < b + d2 / 7 * 12.
Proof.
  intros Ha Hb Hlt.
  destruct (selectScale_ascends s _ _ a b Ha Hb) as (Hra & Hasc & _).
  destruct (selectScale_ascends s _ _ b a Hb Ha) as (Hrb & _ & _).
  rewrite !normDegree_mod in Hasc by lia.
  pose proof (Z.div_mod d1 7 ltac:(lia)) as H1.
  pose proof (Z.div_mod d2 7 ltac:(lia)) as H2.
  pose proof (Z.mod_pos_bound d1 7 ltac:(lia)) as Hm1.
  pose proof (Z.mod_pos_bound d2 7 ltac:(lia)) as Hm2.
  assert (d1 / 7 <= d2 / 7) as Hq by (apply Z.div_le_mono; lia).
  destruct (Z.eq_dec (d1 / 7) (d2 / 7)) as [Heq|Hne].
  - assert (d1 mod 7 < d2 mod 7) as Hm by lia. apply Hasc in Hm. lia.
  - lia.
Qed.

Lemma Rpower_2_lt (a b : R) : (a < b)%R -> (Rpower 2 a < Rpower 2 b)%R.
Proof. intros H. apply Rpower_lt; lra. Qed.

Lemma getFreq_ascends (e : AudioEngine) (s : MusicStyle) (d1 d2 octaveOffset : Z) :
  scale e = selectScale s -> (0 < baseNoteFrequency (params e))%Q -> d1 < d2 ->
  exists f1 f2,
    getFreq e d1 octaveOffset = Some f1 /\ getFreq e d2 octaveOffset = Some f2
    /\ (f1 < f2)%R.
Proof.
  intros Hscale Hbase Hlt. unfold getFreq. rewrite Hscale.
  assert (length (selectScale s) = 7%nat) as -> by (now destruct s).
  change (Z.of_nat 7) with 7.
  destruct (js_index_Some (selectScale s) (normDegree 7 d1)) as [a Ha].
  { assert (length (selectScale s) = 7%nat) as -> by (now destruct s).
    apply normDegree_bounds. lia. }
  destruct (js_index_Some (selectScale s) (normDegree 7 d2)) as [b Hb].
  { assert (length (selectScale s) = 7%nat) as -> by (now destruct s).
    apply normDegree_bounds. lia. }
  rewrite Ha, Hb, !semitonesToFreq_positive by exact Hbase.
  eexists. eexists. split; [reflexivity|]. split; [reflexivity|].
  apply Rmult_lt_compat_l.
  - apply Qlt_Rlt in Hbase. now rewrite RMicromega.Q2R_0 in Hbase.
  - apply Rpower_2_lt. apply Rmult_lt_compat_r; [lra|].
    apply IZR_lt. pose proof (semitones_ascend s d1 d2 a b Ha Hb Hlt). lia.
Qed.

Lemma newAudioEngine_scale (w : Window) (p : SonicParameters) (r : Rng) :
  scale (newAudioEngine w p r) = selectScale (style p).
Proof. unfold newAudioEngine. now rewrite generateComposition_scale. Qed.

Lemma session_scale_and_base (fuel : nat) (w : Window) (p : SonicParameters)
    (r : Rng) (evs : list Event) (e : AudioEngine) :
  endsIn (session fuel evs (newAudioEngine w p r)) e ->
  scale e = selectScale (style p) /\ params e = p.
Proof.
  intros Hends. apply session_composition in Hends.
  unfold composition in Hends. injection Hends as -> -> _ _ _ _.
  split; [apply newAudioEngine_scale | apply newAudioEngine_params].
Qed.

(** X12.  Throughout the life of an engine with a positive base frequency,
    a higher scale degree is a higher note: in every state of every
    session [getFreq] is defined on all degrees and strictly increasing in
    the degree, across octave boundaries and for negative degrees, for
    every style. *)
Theorem higher_degree_higher_note (fuel : nat) (w : Window) (p : SonicParameters)
    (r : Rng) (evs : list Event) (e : AudioEngine) (d1 d2 octaveOffset : Z) :
  (0 < baseNoteFrequency p)%Q ->
  endsIn (session fuel evs (newAudioEngine w p r)) e ->
  d1 < d2 ->
  exists f1 f2,
    getFreq e d1 octaveOffset = Some f1 /\ getFreq e d2 octaveOffset = Some f2
    /\ (f1 < f2)%R.
Proof.
  intros Hbase Hends Hlt.
  destruct (session_scale_and_base fuel w p r evs e Hends) as [Hscale Hparams].
  apply (getFreq_ascends e (style p)); [exact Hscale | now rewrite Hparams | exact Hlt].
Qed.

Lemma higher_degree_higher_note_witness :
  exists f1 f2,
    getFreq runningEngine (-1) 0 = Some f1 /\ getFreq runningEngine 0 0 = Some f2
    /\ (f1 < f2)%R.
Proof.
  apply (higher_degree_higher_note 100 sampleWindow fallbackParams zeroRng
           runningSession runningEngine (-1) 0 0).
  - reflexivity.
  - left. apply Done_outcomeEngine. vm_compute. reflexivity.
  - lia.
Defined.

(** X13.  The degree 0 in octave 0 is the base note: in every state of
    every session, for every style, [getFreq (0, 0)] is the base frequency
    of the parameters, when that is positive. *)
Theorem root_degree_is_the_base_note (fuel : nat) (w : Window)
    (p : SonicParameters) (r : Rng) (evs : list Event) (e : AudioEngine) :
  (0 < baseNoteFrequency p)%Q ->
  endsIn (session fuel evs (newAudioEngine w p r)) e ->
  getFreq e 0 0 = Some (Q2R (baseNoteFrequency p)).
Proof.
  intros Hbase Hends.
  destruct (session_scale_and_base fuel w p r evs e Hends) as [Hscale Hparams].
  unfold getFreq. rewrite Hscale, Hparams.
  assert (length (selectScale (style p)) = 7%nat) as -> by (now destruct (style p)).
  assert (js_index (selectScale (style p)) (normDegree (Z.of_nat 7) 0) = Some 0)
    as -> by (now destruct (style p)).
  rewrite semitonesToFreq_positive by exact Hbase. f_equal.
  change (0 + 0 / Z.of_nat 7 * 12 + 0 * 12) with 0.
  replace (IZR 0 / 12)%R with 0%R by field.
  rewrite Rpower_O by lra. ring.
Qed.

Lemma root_degree_is_the_base_note_witness :
  getFreq runningEngine 0 0 = Some (Q2R (baseNoteFrequency fallbackParams)).
Proof.
  apply (root_degree_is_the_base_note 100 sampleWindow fallbackParams zeroRng
           runningSession runningEngine).
  - reflexivity.
  - left. apply Done_outcomeEngine. vm_compute. reflexivity.
Defined.

(** ** The patterns of a composition *)

Lemma Qfloor_unit (u : Q) (n : Z) :
  (0 <= u)%Q -> (u < 1)%Q -> 0 < n -> 0 <= Qfloor (u * inject_Z n) < n.
Proof.
  intros Hlo Hhi Hn. split.
  - change 0 with (Qfloor 0). apply Qfloor_resp_le.
    apply Qmult_le_0_compat; [exact Hlo|].
    change 0%Q with (inject_Z 0). rewrite <- Zle_Qle. lia.
  - rewrite Zlt_Qlt. apply Qle_lt_trans with (u * inject_Z n)%Q;
      [apply Qfloor_le|].
    rewrite <- (Qmult_1_l (inject_Z n)) at 2.
    apply Qmult_lt_compat_r; [|exact Hhi].
    change 0%Q with (inject_Z 0). rewrite <- Zlt_Qlt. exact Hn.
Qed.

Lemma unit_draws_tape (r r' : Rng) : tape r' = tape r -> unit_draws r -> unit_draws r'.
Proof. unfold unit_draws. now intros ->. Qed.

Lemma melodyLoop_degrees (p : SonicParameters) (todo : nat) :
  forall i pat r,
    unit_draws r -> Forall (melodyDegree p) pat ->
    Forall (melodyDegree p) (fst (melodyLoop p todo i pat r)).
Proof.
  induction todo as [|k IH]; intros i pat r Hdraws Hpat; simpl; [assumption|].
  destruct (Qltb _ _).
  - apply IH; [exact Hdraws|]. apply array_set_Forall; [exact Hpat|].
    unfold melodyDegree.
    destruct (Hdraws (S (cursor r))) as [Hlo Hhi].
    destruct (style_eqb (style p) techno).
    + pose proof (Qfloor_unit _ 5 Hlo Hhi ltac:(lia)) as Hfloor.
      simpl in Hfloor. rewrite Z.rem_small by lia. lia.
    + pose proof (Qfloor_unit _ 12 Hlo Hhi ltac:(lia)) as Hfloor.
      simpl in Hfloor. apply Z.rem_bound_pos; lia.
  - apply IH; assumption.
Qed.

Lemma generateComposition_patterns (e : AudioEngine) (r : Rng) :
  exists r2 r3,
    tape r2 = tape r
    /\ melodyPattern (fst (generateComposition e r))
       = fst (melodyLoop (params e) 16 0 (repeat None 16) r2)
    /\ bassPattern (fst (generateComposition e r))
       = if style_eqb (style (params e)) ambient
         then fst (bassLoop (params e) 16 0 (repeat None 16) r3)
         else array_set (fst (bassLoop (params e) 16 0 (repeat None 16) r3))
                        0 (Some 0).
Proof.
  unfold generateComposition, pickProg, random.
  set (r2 := {| tape := tape _; cursor := S (cursor {| tape := tape r; cursor := _ |}) |}).
  exists r2.
  destruct (melodyLoop _ _ _ _ r2) as [melody r3]. exists r3.
  destruct (bassLoop _ _ _ _ r3) as [bass r4].
  destruct (style_eqb _ _); simpl; now repeat split.
Qed.

(** X14.  With draws in [0, 1) every melody slot the constructor fills
    holds a scale degree of the first octave: one of 0..6, and one of 0..4
    for techno, whose range is 5. *)
Theorem melody_stays_in_the_first_octave (w : Window) (p : SonicParameters)
    (r : Rng) :
  unit_draws r ->
  Forall (fun slot =>
            match slot with
            | None => True
            | Some d => 0 <= d < 7 /\ (style p = techno -> d < 5)
            end)
         (melodyPattern (newAudioEngine w p r)).
Proof.
  intros Hdraws. unfold newAudioEngine.
  destruct (generateComposition_patterns (fieldInitialisers w p) r)
    as (r2 & r3 & Htape & -> & _).
  simpl params.
  eapply Forall_impl;
    [|apply melodyLoop_degrees;
      [apply (unit_draws_tape r); assumption
      |apply Forall_forall; intros s Hs; apply repeat_spec in Hs; now subst s]].
  intros [d|]; [|trivial]. unfold melodyDegree.
  destruct (style p); simpl; intros Hd; split; try lia; discriminate.
Qed.

Lemma cycleRng_unit_draws : unit_draws cycleRng.
Proof.
  intros n. unfold cycleRng, lit, Qle, Qlt. cbn [tape Qnum Qden].
  pose proof (Nat.mod_upper_bound n 10 ltac:(lia)) as Hmod. lia.
Qed.

(** With draws that run through 0, 0.1, ..., 0.9 the techno melody has four
    filled slots, with the degrees 1 and 0. *)
Lemma melody_stays_in_the_first_octave_witness :
  Forall (fun slot =>
            match slot with
            | None => True
            | Some d => 0 <= d < 7 /\ (style fallbackParams = techno -> d < 5)
            end)
         (melodyPattern (newAudioEngine sampleWindow fallbackParams cycleRng))
  /\ melodyPattern (newAudioEngine sampleWindow fallbackParams cycleRng)
     = [Some 1; None; None; None; None; None; None; Some 0;
        Some 1; None; None; None; None; None; None; Some 0].
Proof.
  split.
  - apply (melody_stays_in_the_first_octave sampleWindow fallbackParams cycleRng).
    exact cycleRng_unit_draws.
  - vm_compute. reflexivity.
Defined.

Lemma array_set_same {A : Type} (arr : list A) (i : nat) (v : A) :
  (i < length arr)%nat -> nth_error (array_set arr i v) i = Some v.
Proof.
  revert i. induction arr as [|a rest IH]; intros [|i] Hlen; simpl in *;
    try lia; [reflexivity|].
  apply IH. lia.
Qed.

Lemma array_set_other {A : Type} (arr : list A) (i j : nat) (v : A) :
  i <> j -> nth_error (array_set arr i v) j = nth_error arr j.
Proof.
  revert i j. induction arr as [|a rest IH]; intros [|i] [|j] Hne; simpl;
    try reflexivity; try congruence.
  apply IH. congruence.
Qed.

Lemma array_set_keeps {A : Type} (arr : list A) (i j : nat) (v : A) :
  nth_error arr j = Some v -> nth_error (array_set arr i v) j = Some v.
Proof.
  intros Hj. destruct (Nat.eq_dec i j) as [->|Hne].
  - apply array_set_same. apply nth_error_Some. congruence.
  - now rewrite array_set_other.
Qed.

Lemma bassLoop_keeps (p : SonicParameters) (todo : nat) (j : nat) :
  forall i pat r,
    nth_error pat j = Some (Some 0) ->
    nth_error (fst (bassLoop p todo i pat r)) j = Some (Some 0).
Proof.
  induction todo as [|k IH]; intros i pat r Hj; simpl; [assumption|].
  repeat match goal with
         | |- context [if ?c then _ else _] => destruct c
         end; apply IH; auto using array_set_keeps.
Qed.

Lemma bassLoop_forced (p : SonicParameters) (todo : nat) (j : nat) :
  forall i pat r,
    0 <= i -> (Z.to_nat i <= j < Z.to_nat i + todo)%nat ->
    (j < length pat)%nat ->
    (style_eqb (style p) techno && negb (Z.rem (Z.of_nat j) 2 =? 0))
    || (style_eqb (style p) house
        && ((Z.of_nat j =? 0) || (Z.of_nat j =? 10) || (Z.of_nat j =? 14)))
    = true ->
    nth_error (fst (bassLoop p todo i pat r)) j = Some (Some 0).
Proof.
  induction todo as [|k IH]; intros i pat r Hi Hj Hlen Hforced; [lia|].
  destruct (Nat.eq_dec (Z.to_nat i) j) as [Heq|Hne].
  - assert (Z.of_nat j = i) as Hji by lia. rewrite Hji in Hforced.
    simpl. apply orb_true_iff in Hforced as [Hf|Hf]; rewrite Hf.
    + apply bassLoop_keeps. rewrite Heq. now apply array_set_same.
    + destruct (style_eqb (style p) techno && negb (Z.rem i 2 =? 0));
        apply bassLoop_keeps; rewrite Heq; now apply array_set_same.
  - simpl.
    repeat match goal with
           | |- context [if ?c then _ else _] => destruct c
           end; apply IH; rewrite ?array_set_length; trivial; lia.
Qed.

(** X15.  The bass slots the constructor fills without a draw, whatever
    the random source: step 0 in every style but ambient, every odd step
    in techno, and the steps 0, 10 and 14 in house hold the root. *)
Theorem bass_roots_that_no_draw_decides (w : Window) (p : SonicParameters)
    (r : Rng) (i : Z) :
  0 <= i < 16 -> forcedBass (style p) i = true ->
  js_index (bassPattern (newAudioEngine w p r)) i = Some (Some 0).
Proof.
  intros Hi Hforced. unfold newAudioEngine.
  destruct (generateComposition_patterns (fieldInitialisers w p) r)
    as (r2 & r3 & _ & _ & ->).
  simpl params. unfold js_index.
  destruct (Z.ltb_spec i 0); [lia|].
  pose proof (bassLoop_length p 16 0 (repeat None 16) r3) as Hlen.
  rewrite repeat_length in Hlen.
  unfold forcedBass in Hforced.
  apply orb_true_iff in Hforced as [Hloop|Hfirst].
  - assert (nth_error (fst (bassLoop p 16 0 (repeat None 16) r3)) (Z.to_nat i)
            = Some (Some 0)) as Hslot.
    { apply bassLoop_forced; rewrite ?repeat_length; try lia.
      now rewrite Z2Nat.id by lia. }
    destruct (style_eqb (style p) ambient); [exact Hslot|].
    now apply array_set_keeps.
  - apply andb_true_iff in Hfirst as [Hstyle Hzero].
    apply negb_true_iff in Hstyle. rewrite Hstyle.
    apply Z.eqb_eq in Hzero. subst i. change (Z.to_nat 0) with 0%nat.
    apply array_set_same. rewrite Hlen. lia.
Qed.

Lemma bass_roots_that_no_draw_decides_witness :
  js_index (bassPattern (newAudioEngine sampleWindow houseParams halfRng)) 10
  = Some (Some 0).
Proof.
  apply (bass_roots_that_no_draw_decides sampleWindow houseParams halfRng 10).
  - lia.
  - reflexivity.
Defined.

(** ** What a gesture pushes *)

Lemma Q2R_lit_15_10 : Q2R (lit 15 10) = (15 / 10)%R.
Proof. unfold Q2R, lit. simpl. lra. Qed.

Lemma updateControlParams_pushes (g : HandGestures) (e e' : AudioEngine)
    (c : AudioContext) (f : BiquadFilterNode) :
  ctx e = Some c -> filterNode e = Some f -> distortionNode e <> None ->
  isVisible g = true ->
  endsIn (updateControlParams g e) e' ->
  exists f',
    filterNode e' = Some f'
    /\ events (frequency f')
       = events (frequency f) ++ cutoffPushes g (currentTime c) e
    /\ events (Qfactor f')
       = events (Qfactor f)
         ++ [SetTargetAtTime (Q2R (y g * 15)) (currentTime c) (lit 1 10)].
Proof.
  intros Hctx Hfilter Hdist Hvisible H.
  unfold updateControlParams, gestureModes in H.
  rewrite Hctx, Hfilter, Hvisible in H.
  destruct (distortionNode e); [|congruence]. simpl in H.
  unfold cutoffPushes, cutoffTarget.
  destruct (masterGain e); simpl in H.
  - destruct (isPinching g); ends H; simpl; eexists;
      (split; [reflexivity|]); simpl; rewrite <- ?app_assoc; now split.
  - rewrite andb_false_r. ends H. simpl. eexists.
    split; [reflexivity|]. simpl. now split.
Qed.

Lemma cutoffTarget_floor (g : HandGestures) (now : Q) (p : SonicParameters) :
  (100 <= cutoffTarget g now p)%R.
Proof. apply Rmax_l. Qed.

Lemma cutoffTarget_ceiling (g : HandGestures) (now : Q) (p : SonicParameters) :
  (0 <= x g)%Q -> (x g <= 1)%Q -> (0 <= space p)%Q -> (space p <= 1)%Q ->
  (cutoffTarget g now p <= 12200)%R.
Proof.
  intros Hx0 Hx1 Hs0 Hs1. unfold cutoffTarget.
  apply Qle_Rle in Hx1, Hs0, Hs1.
  rewrite RMicromega.Q2R_0 in Hs0. rewrite RMicromega.Q2R_1 in Hx1, Hs1.
  apply Rmax_lub; [lra|].
  replace (12000 / 100)%R with 120%R by lra.
  assert (Rpower 120 (Q2R (x g)) <= 120)%R as Hpow.
  { rewrite <- (Rpower_1 120) at 2 by lra. apply Rle_Rpower; lra. }
  pose proof (SIN_bound (Q2R now * Q2R (lit 5 10))) as [Hsin0 Hsin1].
  assert (sin (Q2R now * Q2R (lit 5 10)) * 200 * Q2R (space p) <= 200)%R by nra.
  lra.
Qed.

Lemma Forall_cutoffPushes (P : R -> Prop) (g : HandGestures) (now : Q)
    (e : AudioEngine) :
  P (cutoffTarget g now (params e)) ->
  P (cutoffTarget g now (params e) * Q2R (lit 15 10))%R ->
  Forall (fun ev => P (targetOf ev)) (cutoffPushes g now e).
Proof.
  intros H1 H2. unfold cutoffPushes.
  apply Forall_cons; [exact H1|].
  destruct (_ && _); [|apply Forall_nil].
  apply Forall_cons; [exact H2 | apply Forall_nil].
Qed.

(** X16.  A visible gesture never sends the filter below 100 Hz: wherever
    the hand is, also outside the frame, and whatever the LFO adds, every
    cutoff target that [updateControlParams] pushes is at least 100; it
    pushes one target, and a second one under a pinch.  The pushes reach
    the filter also when the call then throws. *)
Theorem cutoff_target_never_below_100 (g : HandGestures) (e e' : AudioEngine)
    (c : AudioContext) (f : BiquadFilterNode) :
  ctx e = Some c -> filterNode e = Some f -> distortionNode e <> None ->
  isVisible g = true ->
  endsIn (updateControlParams g e) e' ->
  exists f' new,
    filterNode e' = Some f'
    /\ events (frequency f') = events (frequency f) ++ new
    /\ length new = (if isPinching g && isSome (masterGain e) then 2 else 1)%nat
    /\ Forall (fun ev => (100 <= targetOf ev)%R) new.
Proof.
  intros Hctx Hfilter Hdist Hvisible H.
  destruct (updateControlParams_pushes g e e' c f Hctx Hfilter Hdist Hvisible H)
    as (f' & Hf' & Hevents & _).
  exists f', (cutoffPushes g (currentTime c) e).
  split; [exact Hf'|]. split; [exact Hevents|]. split.
  - unfold cutoffPushes. now destruct (_ && _).
  - pose proof (cutoffTarget_floor g (currentTime c) (params e)) as Hfloor.
    apply (Forall_cutoffPushes (fun t => 100 <= t)%R); [exact Hfloor|].
    rewrite Q2R_lit_15_10. lra.
Qed.

Lemma startedEngine_distortionNode : distortionNode startedEngine <> None.
Proof. intros H. apply (f_equal isSome) in H. vm_compute in H. discriminate H. Qed.

Lemma cutoff_target_never_below_100_witness :
  exists f' new,
    filterNode pinchedEngine = Some f'
    /\ events (frequency f')
       = events (frequency (mkBiquad (mkParam 1000 []) (mkParam 0 []))) ++ new
    /\ length new
       = (if isPinching pinchRight && isSome (masterGain startedEngine)
          then 2 else 1)%nat
    /\ Forall (fun ev => (100 <= targetOf ev)%R) new.
Proof.
  apply (cutoff_target_never_below_100 pinchRight startedEngine pinchedEngine
           (mkCtx 0 running 0 [])).
  - reflexivity.
  - reflexivity.
  - exact startedEngine_distortionNode.
  - reflexivity.
  - left. apply Done_outcomeEngine. vm_compute. reflexivity.
Defined.

(** X17.  With the hand inside the frame (x in [0, 1]) and a space
    parameter in [0, 1], the cutoff targets stay below a ceiling: 12200 Hz
    for the sweep with the LFO on top, and 18300 Hz for the second target
    of a pinch; the resonance target is 15 times y. *)
Theorem cutoff_target_has_a_ceiling (g : HandGestures) (e e' : AudioEngine)
    (c : AudioContext) (f : BiquadFilterNode) :
  ctx e = Some c -> filterNode e = Some f -> distortionNode e <> None ->
  isVisible g = true ->
  (0 <= x g)%Q -> (x g <= 1)%Q ->
  (0 <= space (params e))%Q -> (space (params e) <= 1)%Q ->
  endsIn (updateControlParams g e) e' ->
  exists f' new,
    filterNode e' = Some f'
    /\ events (frequency f') = events (frequency f) ++ new
    /\ Forall (fun ev => (targetOf ev <= 18300)%R) new
    /\ (isPinching g = false -> Forall (fun ev => (targetOf ev <= 12200)%R) new)
    /\ events (Qfactor f')
       = events (Qfactor f)
         ++ [SetTargetAtTime (Q2R (y g) * 15)%R (currentTime c) (lit 1 10)].
Proof.
  intros Hctx Hfilter Hdist Hvisible Hx0 Hx1 Hs0 Hs1 H.
  destruct (updateControlParams_pushes g e e' c f Hctx Hfilter Hdist Hvisible H)
    as (f' & Hf' & Hevents & Hres).
  exists f', (cutoffPushes g (currentTime c) e).
  pose proof (cutoffTarget_ceiling g (currentTime c) (params e) Hx0 Hx1 Hs0 Hs1)
    as Hceiling.
  split; [exact Hf'|]. split; [exact Hevents|]. split; [|split].
  - apply (Forall_cutoffPushes (fun t => t <= 18300)%R); [lra|].
    rewrite Q2R_lit_15_10. lra.
  - intros Hpinch. unfold cutoffPushes. rewrite Hpinch. simpl.
    apply Forall_cons; [exact Hceiling | apply Forall_nil].
  - rewrite Hres. do 2 f_equal. rewrite Q2R_mult. f_equal.
    unfold Q2R. simpl. lra.
Qed.

Lemma cutoff_target_has_a_ceiling_witness :
  exists f' new,
    filterNode pinchedEngine = Some f'
    /\ events (frequency f')
       = events (frequency (mkBiquad (mkParam 1000 []) (mkParam 0 []))) ++ new
    /\ Forall (fun ev => (targetOf ev <= 18300)%R) new
    /\ (isPinching pinchRight = false
        -> Forall (fun ev => (targetOf ev <= 12200)%R) new)
    /\ events (Qfactor f')
       = events (Qfactor (mkBiquad (mkParam 1000 []) (mkParam 0 [])))
         ++ [SetTargetAtTime (Q2R (y pinchRight) * 15)%R
               (currentTime (mkCtx 0 running 0 [])) (lit 1 10)].
Proof.
  apply (cutoff_target_has_a_ceiling pinchRight startedEngine pinchedEngine
           (mkCtx 0 running 0 [])).
  - reflexivity.
  - reflexivity.
  - exact startedEngine_distortionNode.
  - reflexivity.
  - vm_compute. discriminate.
  - vm_compute. discriminate.
  - vm_compute. discriminate.
  - vm_compute. discriminate.
  - left. apply Done_outcomeEngine. vm_compute. reflexivity.
Defined.

Lemma initLevels_nodes (e e' : AudioEngine) :
  nodes e' = nodes e -> initLevels e -> initLevels e'.
Proof.
  unfold nodes, initLevels. intros H.
  injection H as -> _ _ -> _ -> _ _. trivial.
Qed.

Lemma levelOf_gainTarget (target : R) (t tc : Q) (n : option GainNode) (v : Q) :
  levelOf n v -> levelOf (gainTarget target t tc n) v.
Proof. now destruct n. Qed.

Lemma init_initLevels (e e' : AudioEngine) :
  endsIn (init e) e' -> initLevels e -> initLevels e'.
Proof.
  unfold init, buildImpulseResponse. intros H Hlevels.
  destruct (ctx e); [ends H; exact Hlevels|].
  destruct (AudioContextClass (window e)); ends H; [|exact Hlevels].
  unfold initLevels. simpl. now repeat split.
Qed.

Lemma updateControlParams_initLevels (g : HandGestures) (e e' : AudioEngine) :
  endsIn (updateControlParams g e) e' -> initLevels e -> initLevels e'.
Proof.
  unfold updateControlParams, gestureModes. intros H (Hm & Hr & Hf).
  destruct (ctx e) as [c|]; [|ends H; now repeat split].
  destruct (filterNode e) as [f|]; [|ends H; now repeat split].
  destruct (distortionNode e) as [d|]; [|ends H; now repeat split].
  destruct (negb (isVisible g)); [ends H; now repeat split|].
  simpl in H.
  destruct (masterGain e) as [m|] eqn:Hmaster;
    [|ends H; unfold initLevels; simpl; rewrite Hmaster; now repeat split].
  destruct (isPinching g); ends H; unfold initLevels; simpl;
    rewrite ?Hmaster; (split; [exact Hm|]); split; now apply levelOf_gainTarget.
Qed.

Lemma newAudioEngine_nodes (w : Window) (p : SonicParameters) (r : Rng) :
  nodes (newAudioEngine w p r) = (None, None, None, None, None, None, None, None).
Proof.
  unfold newAudioEngine, generateComposition.
  repeat match goal with
         | |- context [let (_, _) := ?m in _] => destruct m
         end.
  destruct (style_eqb _ _); reflexivity.
Qed.

Lemma session_graph (fuel : nat) (w : Window) (p : SonicParameters) (r : Rng)
    (evs : list Event) (e : AudioEngine) :
  endsIn (session fuel evs (newAudioEngine w p r)) e ->
  graphComplete e /\ initLevels e.
Proof.
  intros Hends.
  apply (session_invariant (fun e1 => graphComplete e1 /\ initLevels e1))
    with (fuel := fuel) (evs := evs) (e := newAudioEngine w p r).
  - intros e1 e2 _ _ Hn Hsome _ [Hgraph Hlevels]. split.
    + apply (graphComplete_nodes e1); [exact Hn | now apply isSome_frame | exact Hgraph].
    + now apply (initLevels_nodes e1).
  - intros e1 [Hgraph Hlevels]. split; [now apply nextNote_graphComplete|].
    apply (initLevels_nodes e1); [|exact Hlevels].
    unfold nextNote. simpl. now destruct (current16thNote e1 + 1 =? 16).
  - intros e1 e2 H [Hgraph Hlevels]. split;
      [now apply (init_graphComplete e1) | now apply (init_initLevels e1)].
  - intros g e1 e2 H [Hgraph Hlevels]. split;
      [now apply (updateControlParams_graphComplete g e1)
      |now apply (updateControlParams_initLevels g e1)].
  - intros e1 t H. exact H.
  - exact Hends.
  - pose proof (newAudioEngine_nodes w p r) as Hnodes.
    unfold nodes in Hnodes. injection Hnodes as Hm Hf Hd Hdf Hr Hrg Hdist Hcomp.
    split.
    + intros Hctx. now destruct (newAudioEngine_ctx w p r) as [Hnone _].
    + unfold initLevels. rewrite Hm, Hrg, Hdf. now repeat split.
Qed.

(** X18.  Opening the hand brings the mix back to where [init] put it: in
    every state of every session the master gain, the reverb send and the
    delay feedback sit at the levels 0.8, 0.4 and 0.3 that [init] gave
    them, and a visible gesture without a fist targets exactly these
    levels, at the clock, with the time constant 0.5; a fist targets 0.5,
    0.8 and 0.8.  Once the graph is built such an update never throws. *)
Theorem open_hand_restores_the_init_levels (fuel : nat) (w : Window)
    (p : SonicParameters) (r : Rng) (evs : list Event) (e : AudioEngine)
    (c : AudioContext) (g : HandGestures) :
  endsIn (session fuel evs (newAudioEngine w p r)) e ->
  ctx e = Some c -> isVisible g = true ->
  exists e' m rv fb before_m before_rv before_fb,
    updateControlParams g e = Done e'
    /\ masterGain e' = Some m /\ reverbGain e' = Some rv
    /\ delayFeedback e' = Some fb
    /\ value (gain m) = lit 8 10 /\ value (gain rv) = lit 4 10
    /\ value (gain fb) = lit 3 10
    /\ events (gain m)
       = before_m
         ++ [SetTargetAtTime (Q2R (if isFist g then lit 5 10 else value (gain m)))
               (currentTime c) (lit 5 10)]
    /\ events (gain rv)
       = before_rv
         ++ [SetTargetAtTime (Q2R (if isFist g then lit 8 10 else value (gain rv)))
               (currentTime c) (lit 5 10)]
    /\ events (gain fb)
       = before_fb
         ++ [SetTargetAtTime (Q2R (if isFist g then lit 8 10 else value (gain fb)))
               (currentTime c) (lit 5 10)].
Proof.
  intros Hends Hctx Hvisible.
  destruct (session_graph fuel w p r evs e Hends) as [Hgraph (Hm & Hrv & Hfb)].
  destruct Hgraph as (Hmaster & Hfilter & _ & Hfeedback & _ & Hreverb & Hdist & _);
    [rewrite Hctx; discriminate|].
  destruct (filterNode e) as [f|] eqn:Ef; [|congruence].
  destruct (distortionNode e) as [d|] eqn:Ed; [|congruence].
  destruct (masterGain e) as [m|] eqn:Em; [|congruence].
  destruct (reverbGain e) as [rv|] eqn:Erv; [|congruence].
  destruct (delayFeedback e) as [fb|] eqn:Efb; [|congruence].
  simpl in Hm, Hrv, Hfb.
  unfold updateControlParams, gestureModes.
  rewrite Hctx, Ef, Ed, Hvisible. simpl. rewrite Em, Erv, Efb. simpl.
  destruct (isPinching g); simpl;
    eexists; eexists; eexists; eexists;
    exists (events (gain m)), (events (gain rv)), (events (gain fb));
    (split; [reflexivity|]); simpl;
    rewrite ?Em, ?Erv, ?Efb; simpl;
    (split; [reflexivity|]); (split; [reflexivity|]); (split; [reflexivity|]);
    simpl; rewrite Hm, Hrv, Hfb; now repeat split.
Qed.

Lemma open_hand_restores_the_init_levels_witness :
  exists e' m rv fb before_m before_rv before_fb,
    updateControlParams openHand clenchedEngine = Done e'
    /\ masterGain e' = Some m /\ reverbGain e' = Some rv
    /\ delayFeedback e' = Some fb
    /\ value (gain m) = lit 8 10 /\ value (gain rv) = lit 4 10
    /\ value (gain fb) = lit 3 10
    /\ events (gain m)
       = before_m
         ++ [SetTargetAtTime
               (Q2R (if isFist openHand then lit 5 10 else value (gain m)))
               (currentTime (mkCtx 0 running 0 [])) (lit 5 10)]
    /\ events (gain rv)
       = before_rv
         ++ [SetTargetAtTime
               (Q2R (if isFist openHand then lit 8 10 else value (gain rv)))
               (currentTime (mkCtx 0 running 0 [])) (lit 5 10)]
    /\ events (gain fb)
       = before_fb
         ++ [SetTargetAtTime
               (Q2R (if isFist openHand then lit 8 10 else value (gain fb)))
               (currentTime (mkCtx 0 running 0 [])) (lit 5 10)].
Proof.
  apply (open_hand_restores_the_init_levels 100 sampleWindow fallbackParams
           zeroRng releaseSession clenchedEngine (mkCtx 0 running 0 []) openHand).
  - left. apply Done_outcomeEngine. vm_compute. reflexivity.
  - reflexivity.
  - reflexivity.
Defined.

(** ** The distortion curve *)

Lemma PI_bounds : (3 < PI <= 4)%R.
Proof. pose proof PI2_3_2. pose proof PI_4. lra. Qed.

Lemma curveInput_range (i : Z) :
  0 <= i <= n_samples -> (-1 <= curveInput i <= 1)%R.
Proof.
  intros [Hlo Hhi]. unfold curveInput, n_samples in *.
  apply IZR_le in Hlo, Hhi. lra.
Qed.

Lemma curveInput_mirror (i : Z) : curveInput (n_samples - i) = (- curveInput i)%R.
Proof. unfold curveInput, n_samples. rewrite minus_IZR. field. Qed.

Lemma distAmount_clean (p : SonicParameters) :
  style p = ambient \/ style p = easy_listening \/ style p = symphony ->
  distAmount p = 0%Q.
Proof. unfold distAmount. now intros [-> | [-> | ->]]. Qed.

Lemma init_distortionNode (e e' : AudioEngine) :
  ctx e = None -> init e = Done e' ->
  distortionNode e' = Some (mkShaper (distAmount (params e))).
Proof.
  intros Hctx Hinit. unfold init in Hinit. rewrite Hctx in Hinit.
  destruct (AudioContextClass (window e)); [|discriminate].
  injection Hinit as Heq. subst e'. unfold buildImpulseResponse. simpl.
  reflexivity.
Qed.

Lemma makeDistortionCurve_0 (i : Z) :
  makeDistortionCurve 0 i = (curveInput i / 3)%R.
Proof.
  unfold makeDistortionCurve. pose proof PI_bounds. field. lra.
Qed.

(** X19.  The styles without distortion get a straight line: for ambient,
    easy listening and symphony [init] asks for the amount 0, and the
    curve it builds for the wave shaper is then the input divided by 3 at
    every sample, whatever the darkness. *)
Theorem clean_styles_get_a_linear_curve (e e' : AudioEngine) (i : Z) :
  ctx e = None -> init e = Done e' ->
  style (params e) = ambient \/ style (params e) = easy_listening
  \/ style (params e) = symphony ->
  exists node,
    distortionNode e' = Some node /\ curveOf node i = (curveInput i / 3)%R.
Proof.
  intros Hctx Hinit Hstyle.
  exists (mkShaper (distAmount (params e))).
  split; [now apply init_distortionNode|].
  unfold curveOf. simpl curve.
  rewrite (distAmount_clean _ Hstyle), RMicromega.Q2R_0.
  apply makeDistortionCurve_0.
Qed.

Lemma clean_styles_get_a_linear_curve_witness :
  exists node,
    distortionNode
      (outcomeEngine (init (newAudioEngine sampleWindow symphonyParams zeroRng))
         (newAudioEngine sampleWindow symphonyParams zeroRng))
    = Some node
    /\ curveOf node 0 = (curveInput 0 / 3)%R.
Proof.
  apply (clean_styles_get_a_linear_curve
           (newAudioEngine sampleWindow symphonyParams zeroRng)).
  - reflexivity.
  - apply Done_outcomeEngine. vm_compute. reflexivity.
  - right. right. reflexivity.
Defined.

Lemma Rabs_div_lt_1 (n d : R) : (0 < d)%R -> (- d < n < d)%R -> (Rabs (n / d) < 1)%R.
Proof.
  intros Hd [Hlo Hhi]. apply Rabs_def1.
  - apply Rmult_lt_reg_r with d; [exact Hd|]. unfold Rdiv.
    rewrite Rmult_assoc, Rinv_l by lra. lra.
  - apply Rmult_lt_reg_r with d; [exact Hd|]. unfold Rdiv.
    rewrite Rmult_assoc, Rinv_l by lra. lra.
Qed.

(** X20.  The distortion curve is an odd, bounded transfer function.  For
    every amount that is not negative, every sample of the table, from
    index 0 to 44099, lies strictly inside (-1, 1); the samples [i] and
    [44100 - i] mirror each other around the middle of the table with
    opposite signs, for every [i] from 1 on; and sample 0, the input -1,
    has no mirror: index 44100 is past the end of the table. *)
Theorem distortion_curve_is_odd_and_bounded (amount : R) (i : Z) :
  (0 <= amount)%R -> 0 <= i < n_samples ->
  exists a,
    curveSample amount i = Some a
    /\ (Rabs a < 1)%R
    /\ (0 < i -> curveSample amount (n_samples - i) = Some (- a)%R)
    /\ (i = 0 -> curveSample amount (n_samples - i) = None).
Proof.
  intros Hk Hi. pose proof PI_bounds as [Hpi3 Hpi4].
  exists (makeDistortionCurve amount i).
  assert (curveSample amount i = Some (makeDistortionCurve amount i)) as Hsample.
  { unfold curveSample.
    destruct (Z.leb_spec 0 i); [|lia]. destruct (Z.ltb_spec i n_samples); [|lia].
    reflexivity. }
  split; [exact Hsample|].
  assert (makeDistortionCurve amount (n_samples - i)
          = (- makeDistortionCurve amount i)%R
          /\ (Rabs (makeDistortionCurve amount i) < 1)%R) as [Hodd Hbound].
  { pose proof (curveInput_range i ltac:(lia)) as Hx.
    unfold makeDistortionCurve. rewrite curveInput_mirror, Rabs_Ropp.
    set (x := curveInput i) in *.
    pose proof (Rabs_pos x) as Ha.
    assert (Rabs x <= 1)%R as Ha1 by (apply Rabs_le; lra).
    assert (0 < PI + amount * Rabs x)%R as Hd by nra.
    split; [field; lra|].
    apply Rabs_div_lt_1; [exact Hd|].
    assert (0 <= amount * Rabs x)%R as Hka by nra.
    assert (amount * Rabs x * PI <= amount * Rabs x * 4)%R as Hka4 by nra.
    destruct (Rle_dec 0 x) as [Hpos|Hneg].
    - rewrite Rabs_pos_eq in * by exact Hpos. nra.
    - rewrite Rabs_left in * by lra. nra. }
  split; [exact Hbound|]. split.
  - intros Hpos. unfold curveSample.
    destruct (Z.leb_spec 0 (n_samples - i)); [|lia].
    destruct (Z.ltb_spec (n_samples - i) n_samples); [|lia].
    cbn [andb]. now rewrite Hodd.
  - intros ->. unfold curveSample.
    destruct (Z.ltb_spec (n_samples - 0) n_samples); [lia|].
    now rewrite andb_false_r.
Qed.

Lemma distortion_curve_is_odd_and_bounded_witness :
  exists a,
    curveSample 200 11025 = Some a
    /\ (Rabs a < 1)%R
    /\ (0 < 11025 -> curveSample 200 (n_samples - 11025) = Some (- a)%R)
    /\ (11025 = 0 -> curveSample 200 (n_samples - 11025) = None).
Proof.
  apply (distortion_curve_is_odd_and_bounded 200 11025).
  - lra.
  - unfold n_samples. lia.
Defined.

(** ** The hand tracker *)

Lemma hypot_nonneg (a b : R) : (0 <= hypot a b)%R.
Proof. apply sqrt_pos. Qed.

Lemma Rltb_true (a b : R) : Rltb a b = true <-> (a < b)%R.
Proof. unfold Rltb. destruct (Rlt_dec a b); split; intros; congruence. Qed.

(** X21.  The tracker never reports a fist and an open palm at once, and
    what it reports for a frame without a hand is the neutral snapshot the
    engine starts with: a gesture that is not visible never carries a fist
    or a pinch. *)
Theorem fist_and_open_palm_exclude_each_other (hands : list (Z -> Landmark)) :
  isFist (detectGestures hands) && isPalmOpen (detectGestures hands) = false
  /\ (isVisible (detectGestures hands) = false ->
      detectGestures hands = neutralGestures).
Proof.
  destruct hands as [|landmarks rest]; simpl; [now split|].
  split; [|discriminate].
  apply andb_false_iff.
  destruct (Rltb _ (_ * (12 / 10))) eqn:Hfist; [right | now left].
  apply Rltb_true in Hfist.
  destruct (Rltb (_ * (17 / 10)) _) eqn:Hopen; [|reflexivity].
  apply Rltb_true in Hopen. exfalso.
  pose proof (hypot_nonneg
                (Q2R (lx (landmarks 9) - lx (landmarks 0)))
                (Q2R (ly (landmarks 9) - ly (landmarks 0)))).
  lra.
Qed.

Lemma hypot_scale (s a b : R) : (0 <= s)%R -> hypot (s * a) (s * b) = (s * hypot a b)%R.
Proof.
  intros Hs. unfold hypot.
  replace (s * a * (s * a) + s * b * (s * b))%R
    with (s * s * (a * a + b * b))%R by ring.
  rewrite sqrt_mult by nra. now rewrite sqrt_square.
Qed.

Lemma moved_distance (s tx ty : Q) (landmarks : Z -> Landmark) (i j : Z) :
  (0 < s)%Q ->
  hypot (Q2R (lx (moved s tx ty landmarks i) - lx (moved s tx ty landmarks j)))
        (Q2R (ly (moved s tx ty landmarks i) - ly (moved s tx ty landmarks j)))
  = (Q2R s * hypot (Q2R (lx (landmarks i) - lx (landmarks j)))
                   (Q2R (ly (landmarks i) - ly (landmarks j))))%R.
Proof.
  intros Hs. apply Qlt_Rlt in Hs. rewrite RMicromega.Q2R_0 in Hs.
  rewrite <- hypot_scale by lra. unfold moved. simpl.
  rewrite <- !Q2R_mult. f_equal; apply Qeq_eqR; ring.
Qed.

Lemma Rltb_scale (s a b a' b' : R) :
  (0 < s)%R -> a' = (s * a)%R -> b' = (s * b)%R -> Rltb a' b' = Rltb a b.
Proof.
  intros Hs -> ->. unfold Rltb.
  destruct (Rlt_dec (s * a) (s * b)) as [H1|H1], (Rlt_dec a b) as [H2|H2];
    try reflexivity; exfalso.
  - apply H2. now apply Rmult_lt_reg_l with s.
  - apply H1. now apply Rmult_lt_compat_l.
Qed.

(** X22.  In exact arithmetic the three gesture flags do not depend on
    where the hand is in the frame nor on how far it is from the camera: a
    hand seen [s] times as large, for any positive [s], and shifted
    anywhere, is pinching, a fist or an open palm exactly when the original
    is, because every threshold is relative to the hand scale, the distance
    from the wrist to the middle knuckle.  This is a property of the
    formulas over the real numbers; in doubles the products are rounded,
    and a hand that sits on a threshold can change a flag when it is
    scaled. *)
Theorem gesture_flags_ignore_distance_and_position (s tx ty : Q)
    (landmarks : Z -> Landmark) :
  (0 < s)%Q ->
  isPinching (gesturesOfHand (moved s tx ty landmarks))
  = isPinching (gesturesOfHand landmarks)
  /\ isFist (gesturesOfHand (moved s tx ty landmarks))
     = isFist (gesturesOfHand landmarks)
  /\ isPalmOpen (gesturesOfHand (moved s tx ty landmarks))
     = isPalmOpen (gesturesOfHand landmarks).
Proof.
  intros Hs. unfold gesturesOfHand. cbn [isPinching isFist isPalmOpen fold_left].
  rewrite !(moved_distance s tx ty landmarks) by exact Hs.
  apply Qlt_Rlt in Hs. rewrite RMicromega.Q2R_0 in Hs.
  split; [|split]; apply (Rltb_scale (Q2R s)); try exact Hs; field.
Qed.

Lemma gesture_flags_ignore_distance_and_position_witness :
  isPinching (gesturesOfHand (moved 2 (lit 1 10) 0 sampleHand))
  = isPinching (gesturesOfHand sampleHand)
  /\ isFist (gesturesOfHand (moved 2 (lit 1 10) 0 sampleHand))
     = isFist (gesturesOfHand sampleHand)
  /\ isPalmOpen (gesturesOfHand (moved 2 (lit 1 10) 0 sampleHand))
     = isPalmOpen (gesturesOfHand sampleHand).
Proof.
  apply (gesture_flags_ignore_distance_and_position 2 (lit 1 10) 0 sampleHand).
  reflexivity.
Defined.

Lemma fist_and_open_palm_exclude_each_other_witness :
  isFist (detectGestures [sampleHand]) && isPalmOpen (detectGestures [sampleHand])
  = false
  /\ (isVisible (detectGestures [sampleHand]) = false ->
      detectGestures [sampleHand] = neutralGestures).
Proof. exact (fist_and_open_palm_exclude_each_other [sampleHand]). Defined.

(** ** The step shown in the HUD *)

Lemma playbackZone_edges (idx : Z) (t : R) :
  0 <= idx ->
  let '(zx, zy) := getPlaybackZone idx t in
  (0 <= zx)%R /\ (zx + 21 <= 100)%R /\ (0 <= zy)%R
  /\ ((zy + 21 <= 100)%R <-> idx < 16).
Proof.
  intros Hidx. unfold getPlaybackZone.
  pose proof (SIN_bound (t / 100)) as [Hs0 Hs1].
  pose proof (COS_bound (t / 100)) as [Hc0 Hc1].
  pose proof (Z.rem_bound_pos idx 4 Hidx ltac:(lia)) as [Hcol0 Hcol1].
  assert (0 <= idx / 4) as Hrow0 by (apply Z.div_pos; lia).
  apply IZR_le in Hcol0, Hrow0.
  assert (Z.rem idx 4 <= 3) as Hcol3 by lia. apply IZR_le in Hcol3.
  repeat split; try lra.
  - intros Htop. destruct (Z.lt_ge_cases idx 16) as [Hlt|Hge]; [exact Hlt|].
    assert (4 <= idx / 4) as Hrow by (apply Z.div_le_lower_bound; lia).
    apply IZR_le in Hrow. lra.
  - intros Hlt.
    assert (idx / 4 <= 3) as Hrow
      by (apply Z.lt_succ_r, Z.div_lt_upper_bound; lia).
    apply IZR_le in Hrow. lra.
Qed.

(** X23.  The step the HUD is told, and where it draws it.  When the UI
    timeout that [scheduleNote] registered in one state of a session fires
    in a later state, the index it passes to the step callback is the step
    plus 16 times the bar modulo 4 of the later state, one of 0..63.  The
    playback zone that [getPlaybackZone] derives from it lies inside the
    image from left to right, and from top to bottom exactly when that
    bar is a multiple of 4: for an index of 16 or more the zone is below the
    image. *)
Theorem step_index_and_playback_zone (fuel : nat) (w : Window)
    (p : SonicParameters) (r : Rng) (evs1 evs2 : list Event)
    (e1 e2 : AudioEngine) (idx : Z) (t : R) :
  endsIn (session fuel evs1 (newAudioEngine w p r)) e1 ->
  endsIn (session fuel evs2 e1) e2 ->
  stepCallbackFires e2 (current16thNote e1) = Some idx ->
  0 <= idx < 64
  /\ idx = current16thNote e1 + 16 * (globalBar e2 mod 4)
  /\ let '(zx, zy) := getPlaybackZone idx t in
     (0 <= zx)%R /\ (zx + 21 <= 100)%R /\ (0 <= zy)%R
     /\ ((zy + 21 <= 100)%R <-> globalBar e2 mod 4 = 0).
Proof.
  intros Hends1 Hends2 Hfires.
  pose proof (session_countersInRange fuel evs1 _ e1 Hends1
                (newAudioEngine_countersInRange w p r)) as Hrange1.
  pose proof (session_countersInRange fuel evs2 e1 e2 Hends2 Hrange1)
    as [Hbar2 _].
  destruct Hrange1 as [_ Hstep1].
  unfold stepCallbackFires in Hfires.
  destruct (isPlaying e2 && onStepCallback e2); [|discriminate].
  injection Hfires as <-.
  rewrite Z.rem_mod_nonneg by lia.
  pose proof (Z.mod_pos_bound (globalBar e2) 4 ltac:(lia)) as Hmod.
  split; [lia|]. split; [lia|].
  pose proof (playbackZone_edges
                (current16thNote e1 + globalBar e2 mod 4 * 16) t ltac:(lia))
    as Hzone.
  destruct (getPlaybackZone _ t) as [zx zy].
  destruct Hzone as (Hl0 & Hl1 & Ht0 & Ht1).
  repeat split; trivial.
  - intros Htop. apply Ht1 in Htop. lia.
  - intros Hzero. apply Ht1. lia.
Qed.

Lemma step_index_and_playback_zone_witness :
  0 <= 18 < 64
  /\ 18 = current16thNote runningEngine + 16 * (globalBar callbackEngine mod 4)
  /\ let '(zx, zy) := getPlaybackZone 18 0 in
     (0 <= zx)%R /\ (zx + 21 <= 100)%R /\ (0 <= zy)%R
     /\ ((zy + 21 <= 100)%R <-> globalBar callbackEngine mod 4 = 0).
Proof.
  apply (step_index_and_playback_zone 100 sampleWindow fallbackParams zeroRng
           runningSession callbackSession runningEngine callbackEngine 18 0).
  - left. apply Done_outcomeEngine. vm_compute. reflexivity.
  - left. apply Done_outcomeEngine. vm_compute. reflexivity.
  - vm_compute. reflexivity.
Defined.

(** ** The voicing of a chord *)

Lemma getFreq_positive (e : AudioEngine) (d oct : Z) (f : R) :
  (0 < baseNoteFrequency (params e))%Q -> getFreq e d oct = Some f -> (0 < f)%R.
Proof.
  intros Hbase. unfold getFreq.
  destruct (js_index _ _); [|discriminate].
  rewrite semitonesToFreq_positive by exact Hbase. intros [= <-].
  apply Rmult_lt_0_compat; [|apply exp_pos].
  apply Qlt_Rlt in Hbase. now rewrite RMicromega.Q2R_0 in Hbase.
Qed.

Lemma chordVoices_cons (e : AudioEngine) (time duration : Q) (octaveShift : Z)
    (type : SynthType) (i d : Z) (f : R) (rest : list (option Z)) :
  getFreq e d ((if i =? 0 then 0 else 1) + octaveShift) = Some f ->
  startedVoices
    (emitted (chordVoices e time duration octaveShift type i (Some d :: rest)))
  = Synth time f duration type
    :: startedVoices
         (emitted (chordVoices e time duration octaveShift type (i + 1) rest)).
Proof.
  intros Hf. simpl. unfold playSynth, withFreq. rewrite Hf.
  unfold bind. simpl. reflexivity.
Qed.

(** The voice one octave up and [k] degrees up from a note is higher. *)
Lemma getFreq_step_up (e : AudioEngine) (s : MusicStyle) (d k oct : Z) :
  scale e = selectScale s -> (0 < baseNoteFrequency (params e))%Q -> 0 <= k ->
  exists f f',
    getFreq e d oct = Some f /\ getFreq e (d + k) (oct + 1) = Some f'
    /\ (0 < f)%R /\ (f < f')%R
    /\ forall g, getFreq e (d + k) oct = Some g -> f' = (2 * g)%R.
Proof.
  intros Hscale Hbase Hk.
  destruct (getFreq_defined e d oct) as [f Hf];
    [rewrite Hscale; apply selectScale_nonempty | now apply Qlt_le_weak |].
  destruct (getFreq_defined e (d + k) oct) as [g Hg];
    [rewrite Hscale; apply selectScale_nonempty | now apply Qlt_le_weak |].
  pose proof (getFreq_positive e d oct f Hbase Hf) as Hpos.
  pose proof (getFreq_positive e (d + k) oct g Hbase Hg) as Hgpos.
  destruct (getFreq_octave_up e (d + k) oct g Hg) as [_ Hup].
  exists f, (2 * g)%R. repeat split; trivial.
  - destruct (Z.eq_dec k 0) as [->|Hne].
    + rewrite Z.add_0_r in Hg. assert (g = f) as -> by congruence. lra.
    + destruct (getFreq_ascends e s d (d + k) oct Hscale Hbase ltac:(lia))
        as (f1 & f2 & Hf1 & Hf2 & Hlt).
      assert (f1 = f) as -> by congruence. assert (f2 = g) as -> by congruence.
      lra.
  - intros g' Hg'. congruence.
Qed.

(** One bar of four beats lasts a positive time. *)
Lemma bar_duration (b : Q) : (0 < b)%Q -> (0 < 60 / b * 4)%Q.
Proof.
  intros Hb. apply Qmult_lt_0_compat; [|reflexivity].
  apply Qlt_shift_div_l; [exact Hb|]. rewrite Qmult_0_l. reflexivity.
Qed.

(** X24.  A chord is a rising stack of three voices, four in the pieces of
    complexity above 0.7.  In every state of every session of an engine
    with draws in [0, 1), a positive tempo and a positive base frequency,
    [playChord] at a time that is not negative returns and starts, in this
    order: the root of the current chord, [currentChordSequence[globalBar %
    4]], in the octave of the shift; then the degrees 2, 4 and, if any, 6
    above the root, one octave higher.  Each voice is higher than the one
    before; each lasts one bar of four beats, a positive time; and all are
    strings in a symphony, electric piano in easy listening and pad
    otherwise. *)
Theorem chord_is_a_rising_stack (fuel : nat) (w : Window) (p : SonicParameters)
    (r : Rng) (evs : list Event) (e : AudioEngine) (time : Q)
    (isBuilding : bool) (octaveShift : Z) :
  unit_draws r -> (0 < bpm p)%Q -> (0 < baseNoteFrequency p)%Q ->
  (0 <= time)%Q ->
  endsIn (session fuel evs (newAudioEngine w p r)) e ->
  exists sequence root f0 f2 f4 f6,
    currentChordSequence e = Some sequence
    /\ js_index sequence (Z.rem (globalBar e) 4) = Some root
    /\ getFreq e root octaveShift = Some f0
    /\ getFreq e (root + 2) (1 + octaveShift) = Some f2
    /\ getFreq e (root + 4) (1 + octaveShift) = Some f4
    /\ getFreq e (root + 6) (1 + octaveShift) = Some f6
    /\ returned (playChord e time isBuilding octaveShift) = Some tt
    /\ startedVoices (emitted (playChord e time isBuilding octaveShift))
       = [Synth time f0 (60 / bpm p * 4) (chordType (style p));
          Synth time f2 (60 / bpm p * 4) (chordType (style p));
          Synth time f4 (60 / bpm p * 4) (chordType (style p))]
         ++ (if Qltb (lit 7 10) (complexity p)
             then [Synth time f6 (60 / bpm p * 4) (chordType (style p))]
             else [])
    /\ (0 < f0 < f2)%R /\ (f2 < f4 < f6)%R
    /\ (0 < 60 / bpm p * 4)%Q.
Proof.
  intros Hdraws Hbpm Hbase Htime Hends.
  assert (playable e) as (Hcomp & Htransport & _).
  { apply (session_playable fuel evs _ e Hends).
    apply newAudioEngine_playable; [exact Hdraws | now apply Qlt_le_weak]. }
  destruct (session_scale_and_base fuel w p r evs e Hends) as [Hscale Hparams].
  destruct (chordRoot_in_range e Htransport) as (sequence & root & Hseq & Hroot).
  assert (0 < baseNoteFrequency (params e))%Q as Hbase' by now rewrite Hparams.
  destruct (getFreq_step_up e (style p) root 2 octaveShift Hscale Hbase' ltac:(lia))
    as (f0 & f2 & Hf0 & Hf2 & Hpos & H02 & Hd2).
  destruct (getFreq_step_up e (style p) root 4 octaveShift Hscale Hbase' ltac:(lia))
    as (f0' & f4 & Hf0' & Hf4 & _ & _ & Hd4).
  destruct (getFreq_step_up e (style p) root 6 octaveShift Hscale Hbase' ltac:(lia))
    as (f0'' & f6 & Hf0'' & Hf6 & _ & _ & Hd6).
  destruct (getFreq_ascends e (style p) (root + 2) (root + 4) octaveShift
              Hscale Hbase' ltac:(lia)) as (g2 & g4 & Hg2 & Hg4 & H24).
  destruct (getFreq_ascends e (style p) (root + 4) (root + 6) octaveShift
              Hscale Hbase' ltac:(lia)) as (g4' & g6 & Hg4' & Hg6 & H46).
  assert (g4' = g4) as -> by congruence.
  rewrite (Hd2 g2 Hg2), (Hd4 g4 Hg4), (Hd6 g6 Hg6) in *.
  replace (octaveShift + 1) with (1 + octaveShift) in Hf2, Hf4, Hf6 by lia.
  exists sequence, root, f0, (2 * g2)%R, (2 * g4)%R, (2 * g6)%R.
  split; [exact Hseq|]. split; [exact Hroot|]. split; [exact Hf0|].
  split; [exact Hf2|]. split; [exact Hf4|]. split; [exact Hf6|].
  split.
  { apply returns_unit.
    destruct Hcomp as (Hsc & Hb & _).
    now apply (playChord_returns e time isBuilding octaveShift sequence root). }
  split; [|split; [lra | split; [lra | now apply bar_duration]]].
  unfold playChord, chordRoot. rewrite Hseq, Hroot. unfold bind at 1.
  cbn [returned emitted ret app option_map]. rewrite Hparams.
  assert ((if style_eqb (style p) easy_listening then epiano
           else if style_eqb (style p) symphony then strings else pad)
          = chordType (style p)) as -> by (now destruct (style p)).
  destruct (Qltb (lit 7 10) (complexity p)); cbn [app];
    rewrite (chordVoices_cons e time _ octaveShift _ 0 root f0) by exact Hf0;
    rewrite (chordVoices_cons e time _ octaveShift _ (0 + 1) (root + 2) _)
      by exact Hf2;
    rewrite (chordVoices_cons e time _ octaveShift _ (0 + 1 + 1) (root + 4) _)
      by exact Hf4;
    rewrite ?(chordVoices_cons e time _ octaveShift _ (0 + 1 + 1 + 1) (root + 6) _)
      by exact Hf6;
    reflexivity.
Qed.

Lemma chord_is_a_rising_stack_witness :
  exists sequence root f0 f2 f4 f6,
    currentChordSequence runningEngine = Some sequence
    /\ js_index sequence (Z.rem (globalBar runningEngine) 4) = Some root
    /\ getFreq runningEngine root 0 = Some f0
    /\ getFreq runningEngine (root + 2) (1 + 0) = Some f2
    /\ getFreq runningEngine (root + 4) (1 + 0) = Some f4
    /\ getFreq runningEngine (root + 6) (1 + 0) = Some f6
    /\ returned (playChord runningEngine 3 false 0) = Some tt
    /\ startedVoices (emitted (playChord runningEngine 3 false 0))
       = [Synth 3 f0 (60 / bpm fallbackParams * 4) (chordType (style fallbackParams));
          Synth 3 f2 (60 / bpm fallbackParams * 4) (chordType (style fallbackParams));
          Synth 3 f4 (60 / bpm fallbackParams * 4) (chordType (style fallbackParams))]
         ++ (if Qltb (lit 7 10) (complexity fallbackParams)
             then [Synth 3 f6 (60 / bpm fallbackParams * 4)
                     (chordType (style fallbackParams))]
             else [])
    /\ (0 < f0 < f2)%R /\ (f2 < f4 < f6)%R
    /\ (0 < 60 / bpm fallbackParams * 4)%Q.
Proof.
  apply (chord_is_a_rising_stack 100 sampleWindow fallbackParams zeroRng
           runningSession runningEngine 3 false 0).
  - intros n. split; [discriminate | reflexivity].
  - reflexivity.
  - reflexivity.
  - discriminate.
  - left. apply Done_outcomeEngine. vm_compute. reflexivity.
Defined.

(** ** The drums of a step *)

#[local] Hint Extern 1 (notKick _) => exact I : fx.
#[local] Hint Extern 1 (notHiHat _) => exact I : fx.

Lemma melody_and_harmony_emit (P : Voice -> Prop) (e : AudioEngine)
    (beat : Z) (time : Q) (fist pinching breakdown : bool) :
  (forall t f, P (Bass t f)) -> (forall t f d ty, P (Synth t f d ty)) ->
  emits P
    ((when (beat =? 0) then
        playChord e time fist
          match activeSectionIdx e with Some 1 => 1 | _ => 0 end) ;;
     bassline e beat time fist breakdown ;;
     leadOrArp e beat time fist pinching).
Proof.
  intros Hbass Hsynth.
  apply emits_bind; [|intros _].
  { unfold playChord, skip. destruct (beat =? 0); [|fx_auto].
    apply emits_bind; [apply chordRoot_emits | intros root].
    apply chordVoices_synthVoice. intros f. apply Hsynth. }
  apply emits_bind; [|intros _].
  { unfold bassline, playBass, skip.
    destruct (negb _ && negb _); [|fx_auto].
    destruct (js_index (bassPattern e) beat) as [[slot|]|]; [| fx_auto |];
      (apply emits_bind; [apply chordRoot_emits | intros root]);
      apply emits_withFreq; intros f; apply Hbass. }
  unfold leadOrArp, playSynth, skip.
  destruct (_ && (Z.rem beat 2 =? 0)).
  - apply emits_bind; [apply chordRoot_emits | intros root].
    destruct (negb _); [|fx_auto].
    apply emits_withFreq. intros f. apply Hsynth.
  - destruct (js_index (melodyPattern e) beat) as [[slot|]|]; [| fx_auto |];
      apply emits_withFreq; intros f; apply Hsynth.
Qed.

Lemma noteEffects_off_quarter (e : AudioEngine) (now : Q) (beat : Z) (time : Q) :
  Z.rem beat 4 <> 0 -> emits notKick (noteEffects e now beat time).
Proof.
  intros Hbeat. unfold noteEffects.
  apply emits_bind; [apply uiSync_emits | intros _].
  apply emits_bind; [|intros _; apply melody_and_harmony_emit; intros; exact I].
  unfold rhythmSection, playNoiseSnare, playShaker, playHiHat, skip.
  apply Z.eqb_neq in Hbeat. rewrite Hbeat. simpl. fx_auto.
Qed.

Lemma noteEffects_kick (e : AudioEngine) (now : Q) (beat : Z) (time : Q) :
  Z.rem beat 4 = 0 -> isFist (currentGestures e) = false ->
  isBreakdown e = false -> style (params e) <> symphony ->
  In (kickOf (style (params e)) time)
     (startedVoices (emitted (noteEffects e now beat time))).
Proof.
  intros Hbeat Hfist Hbreakdown Hstyle. unfold noteEffects.
  apply In_startedVoices.
  apply In_emitted_then; [apply uiSync_returns|].
  apply In_emitted_first. unfold rhythmSection.
  apply In_emitted_first.
  apply Z.eqb_eq in Hbeat. rewrite Hbeat, Hfist, Hbreakdown. simpl.
  destruct (style (params e)); simpl; try (now left); congruence.
Qed.

Lemma scheduleNote_voices_of (e e' : AudioEngine) (c : AudioContext)
    (beat : Z) (time : Q) :
  ctx e = Some c -> endsIn (scheduleNote e beat time) e' ->
  voicesOf e'
  = voices c ++ startedVoices (emitted (noteEffects e (currentTime c) beat time)).
Proof.
  intros Hctx H.
  destruct (scheduleNote_voices e c beat time Hctx) as (e1 & H1 & Hctx1).
  rewrite (endsIn_unique _ _ _ H H1). unfold voicesOf. now rewrite Hctx1.
Qed.

(** X25.  Four on the floor.  Outside a fist and a breakdown, in every
    style but the symphony, [scheduleNote] starts a kick on every quarter
    step (0, 4, 8, 12), at 0.6 with a decay of 0.3 for easy listening and
    ambient and at 1 with a decay of 0.5 otherwise, also when the call
    throws later on; and it starts no kick on any other step. *)
Theorem four_on_the_floor (e e' : AudioEngine) (c : AudioContext) (beat : Z)
    (time : Q) :
  ctx e = Some c -> endsIn (scheduleNote e beat time) e' ->
  exists new,
    voicesOf e' = voices c ++ new
    /\ (Z.rem beat 4 <> 0 -> Forall notKick new)
    /\ (Z.rem beat 4 = 0 -> isFist (currentGestures e) = false ->
        isBreakdown e = false -> style (params e) <> symphony ->
        In (kickOf (style (params e)) time) new).
Proof.
  intros Hctx H.
  exists (startedVoices (emitted (noteEffects e (currentTime c) beat time))).
  split; [now apply scheduleNote_voices_of|]. split.
  - intros Hbeat. now apply noteEffects_off_quarter.
  - intros Hbeat Hfist Hbreakdown Hstyle. now apply noteEffects_kick.
Qed.

Lemma four_on_the_floor_witness :
  exists new,
    voicesOf kickStep = voices (mkCtx 0 running 0 []) ++ new
    /\ (Z.rem 4 4 <> 0 -> Forall notKick new)
    /\ (Z.rem 4 4 = 0 -> isFist (currentGestures startedEngine) = false ->
        isBreakdown startedEngine = false ->
        style (params startedEngine) <> symphony ->
        In (kickOf (style (params startedEngine)) 3) new).
Proof.
  apply (four_on_the_floor startedEngine kickStep (mkCtx 0 running 0 []) 4 3).
  - reflexivity.
  - left. apply Done_outcomeEngine. vm_compute. reflexivity.
Defined.

(** ** What a session keeps *)

(** X26.  The composition is fixed at construction: no call and no host
    event of any session changes the parameters, the scale, the form, the
    two sections, the melody pattern or the bass pattern. *)
Theorem composition_is_fixed_at_construction (fuel : nat) (evs : list Event)
    (e e' : AudioEngine) :
  endsIn (session fuel evs e) e' ->
  params e' = params e /\ scale e' = scale e /\ form e' = form e
  /\ sections e' = sections e /\ melodyPattern e' = melodyPattern e
  /\ bassPattern e' = bassPattern e.
Proof.
  intros Hends. apply session_composition in Hends.
  unfold composition in Hends. injection Hends as -> -> -> -> -> ->.
  now repeat split.
Qed.

Lemma composition_is_fixed_at_construction_witness :
  params gesturedEngine = params startedEngine
  /\ scale gesturedEngine = scale startedEngine
  /\ form gesturedEngine = form startedEngine
  /\ sections gesturedEngine = sections startedEngine
  /\ melodyPattern gesturedEngine = melodyPattern startedEngine
  /\ bassPattern gesturedEngine = bassPattern startedEngine.
Proof.
  apply (composition_is_fixed_at_construction 100 gestureSession).
  left. apply Done_outcomeEngine. vm_compute. reflexivity.
Defined.

Lemma newAudioEngine_chords (w : Window) (p : SonicParameters) (r : Rng) :
  currentChordSequence (newAudioEngine w p r)
  = sectionAt (sections (newAudioEngine w p r))
              (activeSectionIdx (newAudioEngine w p r)).
Proof.
  unfold newAudioEngine, generateComposition.
  repeat match goal with
         | |- context [let (_, _) := ?m in _] => destruct m
         end.
  destruct (style_eqb _ _); reflexivity.
Qed.

(** X27.  The chords played are always those of the active section: in
    every state of every session [currentChordSequence] is
    [sections[activeSectionIdx]], also after [stop ()] and a new
    [start ()], which reset the bar counter and leave both as they
    were. *)
Theorem chords_are_those_of_the_active_section (fuel : nat) (w : Window)
    (p : SonicParameters) (r : Rng) (evs : list Event) (e : AudioEngine) :
  endsIn (session fuel evs (newAudioEngine w p r)) e ->
  currentChordSequence e = sectionAt (sections e) (activeSectionIdx e).
Proof.
  intros Hends.
  apply (session_invariant
           (fun e1 => currentChordSequence e1
                      = sectionAt (sections e1) (activeSectionIdx e1)))
    with (fuel := fuel) (evs := evs) (e := newAudioEngine w p r).
  - intros e1 e2 Hc Ht _ _ _. unfold composition in Hc. unfold transport in Ht.
    injection Hc as _ _ _ -> _ _. injection Ht as _ _ _ -> -> _. trivial.
  - intros e1 H1. unfold nextNote. simpl.
    destruct (current16thNote e1 + 1 =? 16); [reflexivity | exact H1].
  - intros e1 e2 H H1.
    pose proof (init_composition e1 e2 H) as Hc.
    pose proof (init_transport e1 e2 H) as Ht.
    unfold composition in Hc. unfold transport in Ht.
    injection Hc as _ _ _ -> _ _. injection Ht as _ _ _ -> -> _. exact H1.
  - intros g e1 e2 H H1.
    pose proof (updateControlParams_composition g e1 e2 H) as Hc.
    pose proof (updateControlParams_transport g e1 e2 H) as Ht.
    unfold composition in Hc. unfold transport in Ht.
    injection Hc as _ _ _ -> _ _. injection Ht as _ _ _ -> -> _. exact H1.
  - intros e1 t H1. exact H1.
  - exact Hends.
  - apply newAudioEngine_chords.
Qed.

Lemma chords_are_those_of_the_active_section_witness :
  currentChordSequence replayedEngine
  = sectionAt (sections replayedEngine) (activeSectionIdx replayedEngine).
Proof.
  apply (chords_are_those_of_the_active_section 100 sampleWindow fallbackParams
           zeroRng replaySession replayedEngine).
  left. apply Done_outcomeEngine. vm_compute. reflexivity.
Defined.

(** ** Layers that enter with the intensity *)

Lemma half_intensity (bar : Z) : (lit 5 10 < intensityAt bar)%Q <-> 32 < bar.
Proof.
  unfold intensityAt.
  destruct (Q.min_spec 1 (inject_Z bar / 64)) as [[Hlt ->] | [Hle ->]].
  - split; [|reflexivity]. intros _.
    unfold Qlt, Qdiv, Qmult, Qinv, inject_Z in Hlt. simpl in Hlt. lia.
  - unfold Qlt, Qdiv, Qmult, Qinv, inject_Z, lit. simpl. lia.
Qed.

Lemma Qltb_Qeq (a b b' : Q) : (b == b')%Q -> Qltb a b = Qltb a b'.
Proof.
  intros Heq. destruct (Qltb a b') eqn:H'.
  - apply Qltb_lt. apply Qltb_lt in H'. now rewrite Heq.
  - apply Qltb_ge. apply Qltb_ge in H'. now rewrite Heq.
Qed.

Lemma odd_step (beat : Z) :
  Z.rem beat 2 <> 0 ->
  (Z.rem beat 4 =? 0) = false /\ (beat =? 4) = false /\ (beat =? 12) = false
  /\ (Z.rem beat 2 =? 0) = false.
Proof.
  intros Hodd. repeat split; apply Z.eqb_neq; intros H; apply Hodd.
  - apply Z.rem_divide in H; [|lia]. apply Z.rem_divide; [lia|].
    destruct H as [q ->]. exists (2 * q). lia.
  - now subst beat.
  - now subst beat.
  - exact H.
Qed.

Lemma noteEffects_offbeat_hat (e : AudioEngine) (now : Q) (beat : Z) (time : Q) :
  Z.rem beat 2 <> 0 -> isFist (currentGestures e) = false ->
  isPinching (currentGestures e) = false -> style (params e) <> symphony ->
  (Qltb (lit 5 10) (intensity e) = true ->
   In (HiHat time (lit 15 100) (lit 5 100))
      (startedVoices (emitted (noteEffects e now beat time))))
  /\ (Qltb (lit 5 10) (intensity e) = false ->
      emits notHiHat (noteEffects e now beat time)).
Proof.
  intros Hodd Hfist Hpinch Hstyle.
  destruct (odd_step beat Hodd) as (Hq & H4 & H12 & H2).
  assert (style_eqb (style (params e)) symphony = false) as Hsym
    by (destruct (style (params e)); try reflexivity; congruence).
  split; intros Hintensity; unfold noteEffects.
  - apply In_startedVoices.
    apply In_emitted_then; [apply uiSync_returns|].
    apply In_emitted_first. unfold rhythmSection.
    rewrite Hq, H4, H12, H2, Hfist, Hpinch, Hintensity, Hsym. simpl.
    unfold playHiHat. simpl. now left.
  - apply emits_bind; [apply uiSync_emits | intros _].
    apply emits_bind; [|intros _; apply melody_and_harmony_emit; intros; exact I].
    unfold rhythmSection.
    rewrite Hq, H4, H12, H2, Hfist, Hpinch, Hintensity. simpl.
    unfold skip. fx_auto.
Qed.

(** X28.  The off-beat hi-hats enter in bar 33.  In the first run of an
    engine, outside a fist and a pinch and in every style but the
    symphony, [scheduleNote] on an odd step starts the soft hi-hat (0.15,
    decay 0.05) when the bar counter is above 32, where the intensity has
    passed one half, and no hi-hat at all up to bar 32. *)
Theorem offbeat_hats_enter_in_bar_33 (fuel : nat) (w : Window)
    (p : SonicParameters) (r : Rng) (before after : list Event)
    (e e' : AudioEngine) (c : AudioContext) (beat : Z) (time : Q) :
  noStart before = true -> noStart after = true ->
  endsIn (session fuel (before ++ CallStart :: after) (newAudioEngine w p r)) e ->
  ctx e = Some c -> endsIn (scheduleNote e beat time) e' ->
  Z.rem beat 2 <> 0 -> isFist (currentGestures e) = false ->
  isPinching (currentGestures e) = false -> style p <> symphony ->
  exists new,
    voicesOf e' = voices c ++ new
    /\ (32 < globalBar e -> In (HiHat time (lit 15 100) (lit 5 100)) new)
    /\ (globalBar e <= 32 -> Forall notHiHat new).
Proof.
  intros Hbefore Hafter Hends Hctx Hnote Hodd Hfist Hpinch Hstyle.
  pose proof (first_run_intensityTracksBar fuel before after _ e
                (newAudioEngine_notStarted w p r) Hbefore Hafter Hends)
    as Htracks.
  destruct (session_scale_and_base fuel w p r _ e Hends) as [_ Hparams].
  rewrite <- Hparams in Hstyle.
  destruct (noteEffects_offbeat_hat e (currentTime c) beat time
              Hodd Hfist Hpinch Hstyle) as [Hhat Hnone].
  unfold intensityTracksBar in Htracks.
  rewrite (Qltb_Qeq _ _ _ Htracks) in Hhat, Hnone.
  exists (startedVoices (emitted (noteEffects e (currentTime c) beat time))).
  split; [now apply scheduleNote_voices_of|]. split.
  - intros Hbar. apply Hhat. apply Qltb_lt. now apply half_intensity.
  - intros Hbar. apply Hnone. apply Qltb_ge.
    apply Qnot_lt_le. intros Hlt. apply half_intensity in Hlt. lia.
Qed.

Lemma offbeat_hats_enter_in_bar_33_witness :
  exists new,
    voicesOf (offbeatStep startedEngine) = voices (mkCtx 0 running 0 []) ++ new
    /\ (32 < globalBar startedEngine ->
        In (HiHat 3 (lit 15 100) (lit 5 100)) new)
    /\ (globalBar startedEngine <= 32 -> Forall notHiHat new).
Proof.
  apply (offbeat_hats_enter_in_bar_33 100 sampleWindow fallbackParams zeroRng
           [] [] startedEngine (offbeatStep startedEngine)
           (mkCtx 0 running 0 []) 1 3).
  - reflexivity.
  - reflexivity.
  - left. vm_compute. reflexivity.
  - reflexivity.
  - left. apply Done_outcomeEngine. vm_compute. reflexivity.
  - discriminate.
  - reflexivity.
  - reflexivity.
  - discriminate.
Defined.

(** ** The loop of the scheduler *)

Lemma updateControlParams_no_Spin (g : HandGestures) (e : AudioEngine) :
  updateControlParams g e <> Spin.
Proof.
  unfold updateControlParams, gestureModes.
  destruct (ctx e) as [c|]; [|discriminate].
  destruct (filterNode e) as [f|]; [|discriminate].
  destruct (distortionNode e) as [d|]; [|discriminate].
  destruct (negb (isVisible g)); [discriminate|].
  simpl.
  destruct (masterGain e); [destruct (isPinching g)|]; discriminate.
Qed.

Lemma init_no_Spin (e : AudioEngine) : init e <> Spin.
Proof.
  unfold init. destruct (ctx e); [discriminate|].
  destruct (AudioContextClass (window e)); discriminate.
Qed.

Lemma resumeIfSuspended_params (e : AudioEngine) :
  params (resumeIfSuspended e) = params e.
Proof.
  unfold resumeIfSuspended. destruct (ctx e) as [c|]; [|reflexivity].
  now destruct (state c).
Qed.

Lemma init_params (e e' : AudioEngine) : endsIn (init e) e' -> params e' = params e.
Proof.
  intros H. apply init_composition in H. unfold composition in H. congruence.
Qed.

(** X29.  With a positive tempo every call ends: for each call or host
    event on an engine whose [bpm] is positive there is a number of loop
    iterations within which it returns or throws; the [while] loop of the
    scheduler is left after finitely many notes. *)
Theorem every_call_ends (ev : Event) (e : AudioEngine) :
  (0 < bpm (params e))%Q ->
  exists n, forall fuel, (n <= fuel)%nat -> perform fuel ev e <> Spin.
Proof.
  intros Hbpm. destruct ev; simpl; try (exists 0%nat; intros; discriminate).
  - exists 0%nat. intros. apply init_no_Spin.
  - unfold start.
    destruct (init e) as [e1|e1|] eqn:Hinit;
      [|exists 0%nat; intros; discriminate | now destruct (init_no_Spin e)].
    simpl.
    destruct (ctx (resumeIfSuspended e1)) as [c|];
      [|exists 0%nat; intros; discriminate].
    apply scheduler_enough_fuel. simpl.
    now rewrite resumeIfSuspended_params, (init_params e e1 (or_introl Hinit)).
  - exists 0%nat. intros. apply updateControlParams_no_Spin.
  - unfold timeoutFires.
    destruct (existsb _ _); [|exists 0%nat; intros; discriminate].
    now apply scheduler_enough_fuel.
Qed.

Lemma every_call_ends_witness :
  exists n,
    forall fuel, (n <= fuel)%nat -> perform fuel (TimeoutFires 0) lateEngine <> Spin.
Proof.
  apply (every_call_ends (TimeoutFires 0) lateEngine).
  vm_compute. reflexivity.
Defined.

Lemma negative_tempo (a : Q) : (a < 0)%Q -> (lit 25 100 * (60 / a) < 0)%Q.
Proof.
  intros Ha.
  assert (a * (60 / a) == 60)%Q as Hmul
    by (apply Qmult_div_r; intros H; rewrite H in Ha; now apply (Qlt_irrefl 0)).
  set (z := (60 / a)%Q) in *.
  assert (z < 0)%Q as Hz.
  { apply Qnot_le_lt. intros Hz.
    assert (a * z <= 0)%Q as Hle.
    { rewrite <- (Qmult_0_l z). apply Qmult_le_compat_r; [|exact Hz].
      now apply Qlt_le_weak. }
    rewrite Hmul in Hle. apply Qle_not_lt in Hle. now apply Hle. }
  unfold lit. Lqa.lra.
Qed.

Lemma schedulerLoop_backwards (fuel : nat) (now : Q) :
  forall e e',
    (bpm (params e) < 0)%Q ->
    (nextNoteTime e < now + scheduleAheadTime e)%Q ->
    schedulerLoop fuel now e <> Done e'.
Proof.
  induction fuel as [|k IH]; intros e e' Hbpm Hlate; simpl;
    apply Qltb_lt in Hlate as Hcond; rewrite Hcond; [discriminate|].
  destruct (scheduleNote e (current16thNote e) (nextNoteTime e)) as [e1|e1|] eqn:Hnote;
    try discriminate.
  destruct (scheduleNote_keepsClock e e1 _ _ (or_introl Hnote))
    as (Htime & Hparams & Hahead).
  destruct (nextNote_clock e1) as (Htime' & Hparams' & Hahead').
  apply IH.
  - now rewrite Hparams', Hparams.
  - rewrite Htime', Hahead', Htime, Hahead. unfold sixteenth. rewrite Hparams.
    pose proof (negative_tempo _ Hbpm). Lqa.lra.
Qed.

(** X30.  With a negative tempo a poll that has a note to schedule never
    returns: each [nextNote] moves the time of the next note back, so
    the condition of the [while] loop holds for ever; on any number of
    iterations the poll is still in its loop, or has thrown. *)
Theorem negative_tempo_never_leaves_the_loop (fuel : nat) (e e' : AudioEngine)
    (c : AudioContext) :
  ctx e = Some c -> isPlaying e = true -> (bpm (params e) < 0)%Q ->
  (nextNoteTime e < currentTime c + scheduleAheadTime e)%Q ->
  scheduler fuel e <> Done e'.
Proof.
  intros Hctx Hplaying Hbpm Hlate. unfold scheduler.
  rewrite Hctx, Hplaying. simpl.
  destruct (schedulerLoop fuel (currentTime c) e) as [e1|e1|] eqn:Hloop;
    try discriminate.
  now destruct (schedulerLoop_backwards fuel (currentTime c) e e1 Hbpm Hlate).
Qed.

Lemma negative_tempo_never_leaves_the_loop_witness :
  scheduler 100 backwardsEngine <> Done backwardsEngine.
Proof.
  apply (negative_tempo_never_leaves_the_loop 100 backwardsEngine backwardsEngine
           (mkCtx (0 + 1) running 0 [])).
  - reflexivity.
  - reflexivity.
  - reflexivity.
  - reflexivity.
Defined.

(** ** Times the host accepts *)

Ltac in_range Htime :=
  unfold voiceInRange; simpl; split;
  [ exact Htime
  | first [ exact I | reflexivity
          | match goal with
            | |- context [if ?b then _ else _] => destruct b; reflexivity
            end ] ].

Lemma chordVoices_inRange (e : AudioEngine) (time duration : Q) (octaveShift : Z)
    (type : SynthType) (notes : list (option Z)) :
  (0 <= time)%Q -> (0 < duration)%Q ->
  forall i, emits voiceInRange (chordVoices e time duration octaveShift type i notes).
Proof.
  intros Htime Hduration. apply chordVoices_synthVoice. intros f.
  now split.
Qed.

Lemma noteEffects_inRange (e : AudioEngine) (now : Q) (beat : Z) (time : Q) :
  (0 < bpm (params e))%Q -> (0 <= time)%Q ->
  emits voiceInRange (noteEffects e now beat time).
Proof.
  intros Hbpm Htime. unfold noteEffects.
  apply emits_bind; [apply uiSync_emits | intros _].
  apply emits_bind; [|intros _].
  { unfold rhythmSection, playKick, playTimpani, playNoiseSnare, playShaker,
      playHiHat, skip.
    repeat fx_step; auto with fx; apply emits_start; in_range Htime. }
  apply emits_bind; [|intros _].
  { unfold playChord, skip. destruct (beat =? 0); [|fx_auto].
    apply emits_bind; [apply chordRoot_emits | intros root].
    apply chordVoices_inRange; [exact Htime | now apply bar_duration]. }
  apply emits_bind; [|intros _].
  { unfold bassline, playBass, skip.
    destruct (negb _ && negb _); [|fx_auto].
    destruct (js_index (bassPattern e) beat) as [[slot|]|]; [| fx_auto |];
      (apply emits_bind; [apply chordRoot_emits | intros root]);
      apply emits_withFreq; intros f; in_range Htime. }
  unfold leadOrArp, playSynth, skip.
  destruct (_ && (Z.rem beat 2 =? 0)).
  - apply emits_bind; [apply chordRoot_emits | intros root].
    destruct (negb _); [|fx_auto].
    apply emits_withFreq. intros f. in_range Htime.
  - destruct (js_index (melodyPattern e) beat) as [[slot|]|]; [| fx_auto |];
      apply emits_withFreq; intros f; in_range Htime.
Qed.

Lemma scheduleNote_timesInRange (e e' : AudioEngine) (beat : Z) :
  (0 < bpm (params e))%Q -> timesInRange e ->
  endsIn (scheduleNote e beat (nextNoteTime e)) e' -> timesInRange e'.
Proof.
  intros Hbpm [Hnext Hctx] H.
  destruct (scheduleNote_keepsClock e e' _ _ H) as (Htime & _ & _).
  unfold timesInRange. rewrite Htime. split; [exact Hnext|].
  destruct (ctx e) as [c|] eqn:Ec.
  - destruct (scheduleNote_voices e c beat (nextNoteTime e) Ec) as (e1 & H1 & Hctx1).
    rewrite (endsIn_unique _ _ _ H H1), Hctx1. simpl.
    destruct Hctx as [Hclock Hvoices]. split; [exact Hclock|].
    apply Forall_app. split; [exact Hvoices|].
    now apply noteEffects_inRange.
  - unfold scheduleNote in H. rewrite Ec in H. ends H. now rewrite Ec.
Qed.

Lemma nextNote_ctx (e : AudioEngine) : ctx (nextNote e) = ctx e.
Proof.
  unfold nextNote. simpl. now destruct (current16thNote e + 1 =? 16).
Qed.

Lemma nextNote_timesInRange (e : AudioEngine) :
  (0 < bpm (params e))%Q -> timesInRange e -> timesInRange (nextNote e).
Proof.
  intros Hbpm [Hnext Hctx]. unfold timesInRange.
  destruct (nextNote_clock e) as (-> & _ & _). rewrite nextNote_ctx.
  split; [|exact Hctx].
  pose proof (sixteenth_pos e Hbpm). Lqa.lra.
Qed.

Lemma schedulerLoop_timesInRange (fuel : nat) (now : Q) :
  forall e e',
    (0 < bpm (params e))%Q -> timesInRange e ->
    endsIn (schedulerLoop fuel now e) e' -> timesInRange e'.
Proof.
  induction fuel as [|k IH]; intros e e' Hbpm Hin H; simpl in H;
    destruct (Qltb _ _); try (ends H; exact Hin); try (now ends H).
  destruct (scheduleNote e (current16thNote e) (nextNoteTime e)) as [e1|e1|] eqn:Hnote.
  - destruct (scheduleNote_keepsClock e e1 _ _ (or_introl Hnote)) as (_ & Hparams & _).
    assert (0 < bpm (params e1))%Q as Hbpm1 by now rewrite Hparams.
    apply (IH (nextNote e1) e').
    + now destruct (nextNote_clock e1) as (_ & -> & _).
    + apply nextNote_timesInRange; [exact Hbpm1|].
      now apply (scheduleNote_timesInRange e e1 (current16thNote e) Hbpm Hin (or_introl Hnote)).
    + exact H.
  - ends H.
    now apply (scheduleNote_timesInRange e e' (current16thNote e) Hbpm Hin (or_intror Hnote)).
  - ends H.
Qed.

Lemma scheduler_timesInRange (fuel : nat) (e e' : AudioEngine) :
  (0 < bpm (params e))%Q -> timesInRange e ->
  endsIn (scheduler fuel e) e' -> timesInRange e'.
Proof.
  intros Hbpm Hin H. unfold scheduler in H.
  destruct (ctx e) as [c|]; [|ends H; exact Hin].
  destruct (negb (isPlaying e)); [ends H; exact Hin|].
  destruct (schedulerLoop fuel (currentTime c) e) as [e1|e1|] eqn:Hloop.
  - simpl in H. ends H.
    exact (schedulerLoop_timesInRange fuel _ e e1 Hbpm Hin (or_introl Hloop)).
  - ends H.
    exact (schedulerLoop_timesInRange fuel _ e e' Hbpm Hin (or_intror Hloop)).
  - ends H.
Qed.

Lemma init_timesInRange (e e' : AudioEngine) :
  timesInRange e -> endsIn (init e) e' -> timesInRange e'.
Proof.
  intros [Hnext Hctx] H.
  destruct (ctx e) as [c|] eqn:Ec.
  - unfold init in H. rewrite Ec in H. ends H. unfold timesInRange.
    now rewrite Ec.
  - pose proof (init_transport e e' H) as Ht. unfold transport in Ht.
    injection Ht as _ _ Htime _ _ _.
    unfold timesInRange. rewrite Htime. split; [exact Hnext|].
    unfold init in H. rewrite Ec in H.
    destruct (AudioContextClass (window e)); ends H; [|now rewrite Ec].
    unfold buildImpulseResponse. simpl. split; [apply Qle_refl | apply Forall_nil].
Qed.

Lemma start_timesInRange (fuel : nat) (e e' : AudioEngine) :
  (0 < bpm (params e))%Q -> timesInRange e ->
  endsIn (start fuel e) e' -> timesInRange e'.
Proof.
  intros Hbpm Hin H. unfold start in H.
  destruct (init e) as [e1|e1|] eqn:Hinit.
  - pose proof (init_timesInRange e e1 Hin (or_introl Hinit)) as [_ Hctx1].
    pose proof (init_params e e1 (or_introl Hinit)) as Hparams.
    simpl in H.
    destruct (ctx (resumeIfSuspended e1)) as [c|] eqn:Ec.
    + apply (scheduler_timesInRange fuel _ e' ) in H; [exact H | |].
      * simpl. now rewrite resumeIfSuspended_params, Hparams.
      * unfold timesInRange. simpl. rewrite Ec.
        unfold resumeIfSuspended in Ec.
        destruct (ctx e1) as [c1|] eqn:E1; simpl in Ec; [|congruence].
        destruct Hctx1 as [Hclock Hvoices].
        assert (currentTime c = currentTime c1 /\ voices c = voices c1) as [-> ->]
          by (destruct (state c1); simpl in Ec; rewrite ?E1 in Ec;
              injection Ec as <-; now split).
        split; [unfold lit; Lqa.lra | now split].
    + apply init_Done_ctx, isSome_not_None in Hinit.
      rewrite <- resumeIfSuspended_isSome, Ec in Hinit. discriminate Hinit.
  - ends H. exact (init_timesInRange e e' Hin (or_intror Hinit)).
  - ends H.
Qed.

Lemma perform_timesInRange (fuel : nat) (ev : Event) (e e' : AudioEngine) :
  (0 < bpm (params e))%Q -> hostEvent ev -> timesInRange e ->
  endsIn (perform fuel ev e) e' -> timesInRange e'.
Proof.
  intros Hbpm Hev Hin H. destruct ev; simpl in H.
  - ends H. exact Hin.
  - exact (init_timesInRange e e' Hin H).
  - exact (start_timesInRange fuel e e' Hbpm Hin H).
  - ends H. exact Hin.
  - destruct (updateControlParams_fixedNodes gestures e e' H) as [_ Hctx].
    pose proof (updateControlParams_transport gestures e e' H) as Ht.
    unfold transport in Ht. injection Ht as _ _ Htime _ _ _.
    unfold timesInRange. now rewrite Hctx, Htime.
  - ends H. destruct Hin as [Hnext Hctx]. unfold timesInRange, clockAdvances.
    destruct (ctx e) as [c|] eqn:Ec; simpl; rewrite ?Ec; [|now split].
    destruct Hctx as [Hclock Hvoices]. simpl in Hev.
    split; [exact Hnext|]. split; [Lqa.lra | exact Hvoices].
  - unfold timeoutFires in H.
    destruct (existsb _ _); [|ends H; exact Hin].
    now apply (scheduler_timesInRange fuel _ e') in H.
Qed.

Lemma session_timesInRange (fuel : nat) (evs : list Event) :
  forall e e',
    (0 < bpm (params e))%Q -> Forall hostEvent evs -> timesInRange e ->
    endsIn (session fuel evs e) e' -> timesInRange e'.
Proof.
  induction evs as [|ev rest IH]; intros e e' Hbpm Hevs Hin H; simpl in H.
  - ends H. exact Hin.
  - inversion Hevs as [|? ? Hev Hrest]; subst.
    destruct (perform fuel ev e) as [e1|e1|] eqn:Hperform; [| |ends H].
    + apply (IH e1 e'); trivial.
      * pose proof (perform_composition fuel ev e e1 (or_introl Hperform)) as Hc.
        unfold composition in Hc. injection Hc as -> _ _ _ _ _. exact Hbpm.
      * exact (perform_timesInRange fuel ev e e1 Hbpm Hev Hin (or_introl Hperform)).
    + apply (IH e1 e'); trivial.
      * pose proof (perform_composition fuel ev e e1 (or_intror Hperform)) as Hc.
        unfold composition in Hc. injection Hc as -> _ _ _ _ _. exact Hbpm.
      * exact (perform_timesInRange fuel ev e e1 Hbpm Hev Hin (or_intror Hperform)).
Qed.

Lemma newAudioEngine_timesInRange (w : Window) (p : SonicParameters) (r : Rng) :
  timesInRange (newAudioEngine w p r).
Proof.
  unfold timesInRange.
  destruct (newAudioEngine_ctx w p r) as [-> _]. split; [|exact I].
  unfold newAudioEngine, generateComposition.
  repeat match goal with
         | |- context [let (_, _) := ?m in _] => destruct m
         end.
  destruct (style_eqb _ _); simpl; apply Qle_refl.
Qed.

(** X1.  An engine whose parameters are in the range of the data model (a
    positive tempo, a darkness and a base frequency that are not negative),
    built from draws in [0, 1) and driven by a host whose gestures are
    inside the frame and whose audio clock does not run backwards, never
    throws while it plays.  In every state of every such session the clock,
    the time of the next note and the start times of all voices started so
    far are 0 or later, every decay and every duration is positive and the
    target of the bass filter's exponential ramp is positive: these are
    the arguments that the range checks of the host, which the embedding
    leaves out, look at.  And no scheduler poll, no gesture update and no
    call of [stop] throws, while [init] and [start] throw only on a host
    without an audio context class, before any context exists, leaving the
    engine as it was. *)
Theorem only_a_host_without_audio_throws (fuel : nat) (w : Window)
    (p : SonicParameters) (r : Rng) (evs : list Event) (ev : Event)
    (e e' : AudioEngine) :
  unit_draws r ->
  (0 < bpm p)%Q -> (0 <= darkness p)%Q -> (0 <= baseNoteFrequency p)%Q ->
  Forall hostEvent evs -> hostEvent ev ->
  endsIn (session fuel evs (newAudioEngine w p r)) e ->
  timesInRange e
  /\ bassRampInRange e
  /\ (perform fuel ev e = Threw e' ->
      e' = e /\ ctx e = None /\ AudioContextClass w = None
      /\ (ev = CallInit \/ ev = CallStart)).
Proof.
  intros Hdraws Hbpm Hdarkness Hbase Hevs Hev Hends. split; [|split].
  - apply (session_timesInRange fuel evs (newAudioEngine w p r) e); trivial.
    + now rewrite newAudioEngine_params.
    + apply newAudioEngine_timesInRange.
  - pose proof (session_composition fuel evs _ e Hends) as Hc.
    unfold composition in Hc. injection Hc as Hparams _ _ _ _ _.
    unfold bassRampInRange. rewrite Hparams, newAudioEngine_params.
    Lqa.lra.
  - intros Hthrew.
    assert (playable e) as Hplayable.
    { apply (session_playable fuel evs _ e Hends).
      now apply newAudioEngine_playable. }
    destruct (perform_Threw fuel ev e e' Hplayable Hthrew)
      as (Heq & Hctx & Hclass & Hstart).
    repeat split; trivial.
    rewrite <- Hclass. symmetry.
    apply (session_hostClass fuel evs _ _ e Hends).
    now destruct (newAudioEngine_ctx w p r) as [_ ->].
Qed.

(** On a host without audio [start ()] throws before any context exists;
    the running sample engine has started its voices at times the host
    accepts. *)
Lemma only_a_host_without_audio_throws_witness :
  (timesInRange silentEngine
   /\ bassRampInRange silentEngine
   /\ (perform 0 CallStart silentEngine = Threw silentEngine ->
       silentEngine = silentEngine /\ ctx silentEngine = None
       /\ AudioContextClass silentWindow = None
       /\ (CallStart = CallInit \/ CallStart = CallStart)))
  /\ perform 0 CallStart silentEngine = Threw silentEngine
  /\ (timesInRange runningEngine
      /\ bassRampInRange runningEngine
      /\ (perform 100 (TimeoutFires 1) runningEngine = Threw runningEngine ->
          runningEngine = runningEngine /\ ctx runningEngine = None
          /\ AudioContextClass sampleWindow = None
          /\ (TimeoutFires 1 = CallInit \/ TimeoutFires 1 = CallStart))).
Proof.
  split; [|split].
  - apply (only_a_host_without_audio_throws 0 silentWindow fallbackParams zeroRng
             [] CallStart).
    + intros n. split; [discriminate | reflexivity].
    + reflexivity.
    + discriminate.
    + discriminate.
    + apply Forall_nil.
    + exact I.
    + left. reflexivity.
  - vm_compute. reflexivity.
  - apply (only_a_host_without_audio_throws 100 sampleWindow fallbackParams
             zeroRng runningSession (TimeoutFires 1)).
    + intros n. split; [discriminate | reflexivity].
    + reflexivity.
    + discriminate.
    + discriminate.
    + repeat (apply Forall_cons; [first [exact I | discriminate]|]).
      apply Forall_nil.
    + exact I.
    + left. apply Done_outcomeEngine. vm_compute. reflexivity.
Defined.
